(** * Obsidian-like Markdown to PDF converter: a shallow embedding of [main.py]

    The development models the conversion engine of [main.py]:
    - [preprocess_obsidian] (line-ending normalisation, callout rewrite),
    - [transform_callouts] (badge injection inside [wrap_html_document]),
    - [ConvertTask._compute_out_path] and [MainWindow._common_base],
    - [ConvertTask.run] (the batch loop with its signals).

    Python strings are sequences of Unicode code points; the regular
    expressions of the source are kept as syntax trees and run by a
    backtracking matcher that follows the priorities of Python's [re]. *)

From Stdlib Require Import Ascii String.
From Stdlib Require Import List NArith Bool Arith Lia.
Import ListNotations.

Set Implicit Arguments.

(* ================================================================== *)
(** * Python [str] *)
(* ================================================================== *)

(** A character is a Unicode code point. *)
Definition char := N.
Definition str := list char.

Definition cp (a : ascii) : char := N_of_ascii a.

Definition bytes_of (s : string) : list N := map N_of_ascii (list_ascii_of_string s).

(** Source literals are written as Rocq strings, which hold UTF-8 bytes;
    [utf8_decode] turns them into code points (the Cyrillic log lines of
    [ConvertTask.run] need it). *)
Fixpoint utf8_decode (bs : list N) : str :=
  match bs with
  | [] => []
  | b :: r =>
      if (b <? 128)%N then b :: utf8_decode r
      else if (b <? 224)%N then
        match r with
        | b2 :: r2 => ((b - 192) * 64 + (b2 - 128))%N :: utf8_decode r2
        | [] => []
        end
      else if (b <? 240)%N then
        match r with
        | b2 :: b3 :: r3 =>
            ((b - 224) * 4096 + (b2 - 128) * 64 + (b3 - 128))%N :: utf8_decode r3
        | _ => []
        end
      else
        match r with
        | b2 :: b3 :: b4 :: r4 =>
            ((b - 240) * 262144 + (b2 - 128) * 4096 + (b3 - 128) * 64 + (b4 - 128))%N
              :: utf8_decode r4
        | _ => []
        end
  end.

Definition lit (s : string) : str := utf8_decode (bytes_of s).

(** Named characters. *)
Definition LF : char := 10%N.
Definition CR : char := 13%N.
Definition TAB : char := 9%N.
Definition SP : char := 32%N.
Definition DQ : char := 34%N.          (* the double quote *)
Definition GT : char := 62%N.          (* > *)
Definition LT : char := 60%N.          (* < *)
Definition BSL : char := 92%N.         (* the backslash *)

Definition char_eqb (a b : char) : bool := (a =? b)%N.

Fixpoint str_eqb (a b : str) : bool :=
  match a, b with
  | [], [] => true
  | x :: a', y :: b' => char_eqb x y && str_eqb a' b'
  | _, _ => false
  end.

(** [s.startswith(p)] *)
Fixpoint startswith (p s : str) : bool :=
  match p, s with
  | [], _ => true
  | x :: p', y :: s' => char_eqb x y && startswith p' s'
  | _ :: _, [] => false
  end.

(** [sub in s] *)
Fixpoint contains (sub s : str) : bool :=
  startswith sub s ||
  match s with
  | [] => false
  | _ :: s' => contains sub s'
  end.

(** [s.find(sub)], [None] for -1. *)
Fixpoint find (sub s : str) : option nat :=
  if startswith sub s then Some 0
  else match s with
       | [] => None
       | _ :: s' => option_map S (find sub s')
       end.

(** [str.isspace] on one character: the code points for which CPython's
    [Py_UNICODE_ISSPACE] holds. The same test backs [\s] in [re]. *)
Definition isspace (c : char) : bool :=
  ((9 <=? c) && (c <=? 13) || (28 <=? c) && (c <=? 32) ||
   (c =? 133) || (c =? 160) || (c =? 5760) ||
   (8192 <=? c) && (c <=? 8202) || (c =? 8232) || (c =? 8233) ||
   (c =? 8239) || (c =? 8287) || (c =? 12288))%N.

Definition is_upper_ascii (c : char) : bool := ((65 <=? c) && (c <=? 90))%N.
Definition is_lower_ascii (c : char) : bool := ((97 <=? c) && (c <=? 122))%N.

(** [str.lower]; the source applies it to a capture of [[A-Za-z]+] only, so
    the ASCII part of the Unicode case mapping is all that is modelled. *)
Definition lower_char (c : char) : char :=
  if is_upper_ascii c then (c + 32)%N else c.
Definition lower (s : str) : str := map lower_char s.

Fixpoint dropwhile (p : char -> bool) (s : str) : str :=
  match s with
  | c :: s' => if p c then dropwhile p s' else s
  | [] => []
  end.

Fixpoint takewhile (p : char -> bool) (s : str) : str :=
  match s with
  | c :: s' => if p c then c :: takewhile p s' else []
  | [] => []
  end.

Definition lstrip (s : str) : str := dropwhile isspace s.
Definition rstrip (s : str) : str := rev (dropwhile isspace (rev s)).
(** [s.strip()] *)
Definition strip (s : str) : str := rstrip (lstrip s).

(** [s.replace(old, new)] for a non-empty [old]: occurrences are found left
    to right and do not overlap. [skip] counts the characters of the
    occurrence just replaced that are still to be dropped. *)
Fixpoint replace_go (old new : str) (skip : nat) (s : str) : str :=
  match s with
  | [] => []
  | c :: s' =>
      match skip with
      | S k => replace_go old new k s'
      | O =>
          if startswith old s
          then new ++ replace_go old new (length old - 1) s'
          else c :: replace_go old new 0 s'
      end
  end.

Definition replace (old new s : str) : str := replace_go old new 0 s.

(** [sep.join(parts)] *)
Fixpoint join (sep : str) (parts : list str) : str :=
  match parts with
  | [] => []
  | [p] => p
  | p :: ps => p ++ sep ++ join sep ps
  end.

(** [s.split(c)] for a one-character separator. *)
Fixpoint split (c : char) (s : str) : list str :=
  match s with
  | [] => [[]]
  | x :: s' =>
      if char_eqb x c then [] :: split c s'
      else match split c s' with
           | l :: ls => (x :: l) :: ls
           | [] => [[x]]
           end
  end.

(* ================================================================== *)
(** * Exceptions *)
(* ================================================================== *)

(** A raised exception: the qualified name of its class as
    [traceback.format_exception_only] prints it, and [str(e)]. *)
Record exn : Type := Exn { exn_type : str; exn_msg : str }.

(** A computation that returns or raises. *)
Inductive result (A : Type) : Type :=
| Ok (a : A)
| Raise (e : exn).
Arguments Ok {A} a.
Arguments Raise {A} e.

Definition rbind {A B} (x : result A) (f : A -> result B) : result B :=
  match x with
  | Ok a => f a
  | Raise e => Raise e
  end.

(* ================================================================== *)
(** * The fragment of Python's [re] used by the source *)
(* ================================================================== *)

(** Pattern syntax. Repetitions in the source's patterns are always over a
    single character class. *)
Inductive regex : Type :=
| Chr (c : char)                  (* a literal character *)
| Lit (l : str)                   (* a literal string *)
| Cls (p : char -> bool)          (* a class: [...], \s, . *)
| Star (p : char -> bool)         (* p*   greedy *)
| Plus (p : char -> bool)         (* p+   greedy *)
| LazyStar (p : char -> bool)     (* p*?  *)
| Cat (r1 r2 : regex)
| Opt (r : regex)                 (* (?:r)?  greedy *)
| Grp (n : nat) (r : regex)       (* capturing group number n *)
| Bol (multiline : bool)          (* ^ *)
| Eol (multiline : bool).         (* $ *)

(** Captures, most recent first. *)
Definition caps := list (nat * str).

Fixpoint lookup (n : nat) (cs : caps) : option str :=
  match cs with
  | [] => None
  | (k, v) :: cs' => if Nat.eqb k n then Some v else lookup n cs'
  end.

(** A match object: where it starts, the text it covers, its groups. *)
Record rmatch : Type := Match { m_start : nat; m_text : str; m_caps : caps }.

(** [m.group(n)] for [n >= 1]; [None] when the group did not take part. *)
Definition group (m : rmatch) (n : nat) : option str := lookup n (m_caps m).

(** [m.group(n)], or the empty string when that is [None]. *)
Definition group_or_empty (m : rmatch) (n : nat) : str :=
  match group m n with
  | Some s => s
  | None => []
  end.

Definition at_bol (multiline : bool) (prev : option char) : bool :=
  match prev with
  | None => true
  | Some c => multiline && char_eqb c LF
  end.

Definition at_eol (multiline : bool) (s : str) : bool :=
  match s with
  | [] => true
  | c :: s' =>
      char_eqb c LF && (multiline || match s' with [] => true | _ => false end)
  end.

Section Matcher.
Variable R : Type.

  (** A continuation receives the text just matched, the character before
      the current position, the rest of the input and the captures. *)
Definition kont := str -> option char -> str -> caps -> option R.

Fixpoint m_lit (l : str) (prev : option char) (s : str) (cs : caps) (k : kont)
    : option R :=
    match l with
    | [] => k [] prev s cs
    | c :: l' =>
        match s with
        | x :: s' =>
            if char_eqb x c
            then m_lit l' (Some x) s' cs (fun t => k (x :: t))
            else None
        | [] => None
        end
    end.

  (** Greedy repetition: the longest run first, then shorter ones. *)
Fixpoint m_star (p : char -> bool) (prev : option char) (s : str) (cs : caps)
    (k : kont) : option R :=
    match s with
    | x :: s' =>
        if p x then
          match m_star p (Some x) s' cs (fun t => k (x :: t)) with
          | Some r => Some r
          | None => k [] prev s cs
          end
        else k [] prev s cs
    | [] => k [] prev s cs
    end.

  (** Lazy repetition: the shortest run first, then longer ones. *)
Fixpoint m_lazy (p : char -> bool) (prev : option char) (s : str) (cs : caps)
    (k : kont) : option R :=
    match k [] prev s cs with
    | Some r => Some r
    | None =>
        match s with
        | x :: s' =>
            if p x then m_lazy p (Some x) s' cs (fun t => k (x :: t)) else None
        | [] => None
        end
    end.

Definition m_cls (p : char -> bool) (s : str) (cs : caps) (k : kont) : option R :=
    match s with
    | x :: s' => if p x then k [x] (Some x) s' cs else None
    | [] => None
    end.

Fixpoint m (r : regex) (prev : option char) (s : str) (cs : caps) (k : kont)
    : option R :=
    match r with
    | Chr c => m_cls (fun x => char_eqb x c) s cs k
    | Lit l => m_lit l prev s cs k
    | Cls p => m_cls p s cs k
    | Star p => m_star p prev s cs k
    | Plus p =>
        m_cls p s cs (fun t1 prev1 s1 cs1 =>
          m_star p prev1 s1 cs1 (fun t2 => k (t1 ++ t2)))
    | LazyStar p => m_lazy p prev s cs k
    | Cat r1 r2 =>
        m r1 prev s cs (fun t1 prev1 s1 cs1 =>
          m r2 prev1 s1 cs1 (fun t2 => k (t1 ++ t2)))
    | Opt r' =>
        match m r' prev s cs k with
        | Some x => Some x
        | None => k [] prev s cs
        end
    | Grp n r' =>
        m r' prev s cs (fun t prev' s' cs' => k t prev' s' ((n, t) :: cs'))
    | Bol ml => if at_bol ml prev then k [] prev s cs else None
    | Eol ml => if at_eol ml s then k [] prev s cs else None
    end.
End Matcher.

(** One attempt at the current position: the text and the groups of the
    first successful path. *)
Definition match_here (r : regex) (prev : option char) (s : str)
  : option (str * caps) :=
  m r prev s [] (fun t _ _ cs => Some (t, cs)).

(** [re.search]: the leftmost position at which an attempt succeeds. *)
Fixpoint search_from (r : regex) (pos : nat) (prev : option char) (s : str)
  : option rmatch :=
  match match_here r prev s with
  | Some (t, cs) => Some (Match pos t cs)
  | None =>
      match s with
      | [] => None
      | c :: s' => search_from r (S pos) (Some c) s'
      end
  end.

Definition re_search (r : regex) (s : str) : option rmatch :=
  search_from r 0 None s.

(** The scan behind [re.sub]: the input cut into kept characters and
    matches, left to right, matches not overlapping. [budget] is what is
    left of [count] ([None]: no limit); [skip] counts the characters of the
    last match still to be passed over. None of the source's patterns
    matches the empty string; after an empty match the scan moves on by one
    character. *)
Inductive piece : Type :=
| Keep (c : char)
| Hit (mt : rmatch).

Definition budget_open (b : option nat) : bool :=
  match b with
  | Some O => false
  | _ => true
  end.

Definition budget_pred (b : option nat) : option nat := option_map Nat.pred b.

Fixpoint scan (r : regex) (budget : option nat) (skip : nat) (pos : nat)
  (prev : option char) (s : str) : list piece :=
  match skip with
  | S k =>
      match s with
      | [] => []
      | c :: s' => scan r budget k (S pos) (Some c) s'
      end
  | O =>
      if budget_open budget then
        match match_here r prev s with
        | Some (t, cs) =>
            Hit (Match pos t cs) ::
            match s with
            | [] => []
            | c :: s' =>
                match t with
                | [] => Keep c :: scan r (budget_pred budget) 0 (S pos) (Some c) s'
                | _ :: t' => scan r (budget_pred budget) (length t') (S pos) (Some c) s'
                end
            end
        | None =>
            match s with
            | [] => []
            | c :: s' => Keep c :: scan r budget 0 (S pos) (Some c) s'
            end
        end
      else map Keep s
  end.

(** [count = 0] asks for every match. *)
Definition budget_of_count (count : nat) : option nat :=
  match count with
  | O => None
  | S _ => Some count
  end.

Definition pieces (r : regex) (count : nat) (s : str) : list piece :=
  scan r (budget_of_count count) 0 0 None s.

(** [re.sub(pattern, repl, s, count)] with a callable [repl] that returns. *)
Fixpoint subst_pieces (repl : rmatch -> str) (ps : list piece) : str :=
  match ps with
  | [] => []
  | Keep c :: ps' => c :: subst_pieces repl ps'
  | Hit mt :: ps' => repl mt ++ subst_pieces repl ps'
  end.

Definition re_sub (r : regex) (repl : rmatch -> str) (s : str) (count : nat) : str :=
  subst_pieces repl (pieces r count s).

(** [re.sub] with a callable [repl] that may raise: the first exception,
    in match order, ends the substitution. *)
Fixpoint subst_pieces_exn (repl : rmatch -> result str) (ps : list piece)
  : result str :=
  match ps with
  | [] => Ok []
  | Keep c :: ps' => rbind (subst_pieces_exn repl ps') (fun t => Ok (c :: t))
  | Hit mt :: ps' =>
      rbind (repl mt) (fun x =>
      rbind (subst_pieces_exn repl ps') (fun t => Ok (x ++ t)))
  end.

Definition re_sub_exn (r : regex) (repl : rmatch -> result str) (s : str)
  (count : nat) : result str :=
  subst_pieces_exn repl (pieces r count s).

(** Replacement templates ([repl] given as a string). [re] parses the
    template once, before any search, so a bad escape raises even when the
    pattern matches nowhere. *)
Inductive tok : Type :=
| TChar (c : char)
| TRef (n : nat).

Inductive tstate : Type :=
| TS_text                       (* ordinary text *)
| TS_esc                        (* after a backslash *)
| TS_g                          (* after \g *)
| TS_name (acc : str)           (* inside \g<...>, name so far reversed *)
| TS_zero (n : nat) (v : N)     (* after \0 and n more octal digits *)
| TS_d1 (d : N)                 (* after \d, d a digit 1..9 *)
| TS_d2 (d1 d2 : N).            (* after \d and a second digit *)

Definition is_digit (c : char) : bool := ((48 <=? c) && (c <=? 57))%N.
Definition is_octdigit (c : char) : bool := ((48 <=? c) && (c <=? 55))%N.
Definition is_ascii_letter (c : char) : bool := is_upper_ascii c || is_lower_ascii c.
Definition digit_val (c : char) : N := (c - 48)%N.

Definition re_error (msg : string) : exn := Exn (lit "re.error") (lit msg).

(** [\a \b \f \n \r \t \v] and the escaped backslash. *)
Definition escape_char (c : char) : option char :=
  if char_eqb c 97%N then Some 7%N
  else if char_eqb c 98%N then Some 8%N
  else if char_eqb c 102%N then Some 12%N
  else if char_eqb c 110%N then Some 10%N
  else if char_eqb c 114%N then Some 13%N
  else if char_eqb c 116%N then Some 9%N
  else if char_eqb c 118%N then Some 11%N
  else if char_eqb c BSL then Some BSL
  else None.

Definition group_ref (ngroups : nat) (n : N) : result (list tok) :=
  if (N.to_nat n <=? ngroups)%nat then Ok [TRef (N.to_nat n)]
  else Raise (re_error "invalid group reference").

Fixpoint decimal_value (acc : N) (s : str) : N :=
  match s with
  | [] => acc
  | c :: s' => decimal_value (acc * 10 + digit_val c)%N s'
  end.

Definition is_ident_start (c : char) : bool := is_ascii_letter c || char_eqb c 95%N.
Definition is_ident_char (c : char) : bool := is_ident_start c || is_digit c.

(** The group named by [\g<name>]; the patterns used with a template have
    no named groups. *)
Definition named_ref (ngroups : nat) (name : str) : result (list tok) :=
  match name with
  | [] => Raise (re_error "missing group name")
  | c :: rest =>
      if forallb is_digit name then group_ref ngroups (decimal_value 0 name)
      else if is_ident_start c && forallb is_ident_char rest
      then Raise (Exn (lit "IndexError") (lit "unknown group name"))
      else Raise (re_error "bad character in group name")
  end.

(** What a character does in ordinary text. *)
Definition text_step (c : char) : list tok * tstate :=
  if char_eqb c BSL then ([], TS_esc) else ([TChar c], TS_text).

Definition emit_then (pre : result (list tok)) (c : char)
  : result (list tok * tstate) :=
  rbind pre (fun ts => let '(ts', st) := text_step c in Ok (ts ++ ts', st)).

Definition tmpl_step (ngroups : nat) (st : tstate) (c : char)
  : result (list tok * tstate) :=
  match st with
  | TS_text => Ok (text_step c)
  | TS_esc =>
      if char_eqb c 103%N then Ok ([], TS_g)
      else if char_eqb c 48%N then Ok ([], TS_zero 0 0%N)
      else if is_digit c then Ok ([], TS_d1 (digit_val c))
      else match escape_char c with
           | Some e => Ok ([TChar e], TS_text)
           | None =>
               if is_ascii_letter c then Raise (re_error "bad escape")
               else Ok ([TChar BSL; TChar c], TS_text)
           end
  | TS_g =>
      if char_eqb c LT then Ok ([], TS_name [])
      else Raise (re_error "missing <")
  | TS_name acc =>
      if char_eqb c GT
      then rbind (named_ref ngroups (rev acc)) (fun ts => Ok (ts, TS_text))
      else Ok ([], TS_name (c :: acc))
  | TS_zero n v =>
      if (n <? 2)%nat && is_octdigit c
      then Ok ([], TS_zero (S n) (v * 8 + digit_val c)%N)
      else emit_then (Ok [TChar (N.land v 255)]) c
  | TS_d1 d =>
      if is_digit c then Ok ([], TS_d2 d (digit_val c))
      else emit_then (group_ref ngroups d) c
  | TS_d2 d1 d2 =>
      if (d1 <? 8)%N && (d2 <? 8)%N && is_octdigit c
      then let v := (d1 * 64 + d2 * 8 + digit_val c)%N in
           if (255 <? v)%N then Raise (re_error "octal escape value outside of range")
           else Ok ([TChar v], TS_text)
      else emit_then (group_ref ngroups (d1 * 10 + d2)%N) c
  end.

Definition tmpl_end (ngroups : nat) (st : tstate) : result (list tok) :=
  match st with
  | TS_text => Ok []
  | TS_esc => Raise (re_error "bad escape (end of pattern)")
  | TS_g => Raise (re_error "missing <")
  | TS_name _ => Raise (re_error "missing >, unterminated name")
  | TS_zero _ v => Ok [TChar (N.land v 255)]
  | TS_d1 d => group_ref ngroups d
  | TS_d2 d1 d2 => group_ref ngroups (d1 * 10 + d2)%N
  end.

Fixpoint parse_template_from (ngroups : nat) (st : tstate) (s : str)
  : result (list tok) :=
  match s with
  | [] => tmpl_end ngroups st
  | c :: s' =>
      rbind (tmpl_step ngroups st c) (fun '(ts, st') =>
      rbind (parse_template_from ngroups st' s') (fun rest => Ok (ts ++ rest)))
  end.

Definition parse_template (ngroups : nat) (tmpl : str) : result (list tok) :=
  parse_template_from ngroups TS_text tmpl.

(** A group that took no part in the match expands to the empty string. *)
Fixpoint expand_template (ts : list tok) (mt : rmatch) : str :=
  match ts with
  | [] => []
  | TChar c :: ts' => c :: expand_template ts' mt
  | TRef O :: ts' => m_text mt ++ expand_template ts' mt
  | TRef n :: ts' => group_or_empty mt n ++ expand_template ts' mt
  end.

(** [re.sub(pattern, template, s, count)]; [ngroups] is the number of
    groups of the pattern. *)
Definition re_sub_template (r : regex) (ngroups : nat) (tmpl : str) (s : str)
  (count : nat) : result str :=
  rbind (parse_template ngroups tmpl) (fun ts =>
  Ok (re_sub r (expand_template ts) s count)).

(** A pattern written as the sequence of its items. *)
Fixpoint seq (rs : list regex) : regex :=
  match rs with
  | [] => Lit []
  | [r] => r
  | r :: rs' => Cat r (seq rs')
  end.

(** Character classes of the source's patterns. *)
Definition is_blank (c : char) : bool := char_eqb c SP || char_eqb c TAB.   (* [ \t] *)
Definition is_letter (c : char) : bool := is_ascii_letter c.                (* [A-Za-z] *)
Definition not_newline (c : char) : bool := negb (char_eqb c LF).           (* . *)
Definition any_char (c : char) : bool := true.                              (* . with DOTALL *)
Definition not_dq (c : char) : bool := negb (char_eqb c DQ).                (* not the double quote *)
Definition not_gt (c : char) : bool := negb (char_eqb c GT).                (* [^>] *)

(* ================================================================== *)
(** * [preprocess_obsidian] *)
(* ================================================================== *)

(** The named groups of the header pattern. *)
Definition g_type : nat := 1.
Definition g_title : nat := 2.

(** The header pattern, compiled with [re.MULTILINE]; its items, in order:
    [^]  [[ \t]*]  [>]  [[ \t]*]  [\[\!]  [(?P<type>] [[A-Za-z]+] [)]  [\]]
    [[ \t]*]  [(?P<title>] [.*] [)?]  [$]. *)
Definition callout_header_re : regex :=
  seq [ Bol true; Star is_blank; Chr GT; Star is_blank; Lit (lit "[!");
        Grp g_type (Plus is_letter); Chr 93%N; Star is_blank;
        Opt (Grp g_title (Star not_newline)); Eol true ].

Definition nonempty (s : str) : bool :=
  match s with
  | [] => false
  | _ :: _ => true
  end.

Definition repl_callout (mt : rmatch) : str :=
  let t := lower (group_or_empty mt g_type) in
  let title := strip (group_or_empty mt g_title) in
  if nonempty title
  then lit "> <!--callout:" ++ t ++ lit " title=" ++ [DQ] ++ title ++ [DQ] ++ lit "-->"
  else lit "> <!--callout:" ++ t ++ lit "-->".

Definition preprocess_obsidian (text : str) : str :=
  let text := replace [CR] [LF] (replace [CR; LF] [LF] text) in
  re_sub callout_header_re repl_callout text 0.

(* ================================================================== *)
(** * [wrap_html_document] and its [transform_callouts] *)
(* ================================================================== *)

(** The marker pattern searched inside a block; its items, in order, with
    [Q] for the double quote:
    [<!--]  [\s*]  [callout:]  [(] [[a-z]+] [)]
    [(?:] [\s+] [title=Q] [(] [[^Q]*] [)] [Q] [)?]  [\s*]  [-->]. *)
Definition callout_comment_re : regex :=
  seq [ Lit (lit "<!--"); Star isspace; Lit (lit "callout:");
        Grp 1 (Plus is_lower_ascii);
        Opt (seq [ Plus isspace; Lit (lit "title="); Chr DQ;
                   Grp 2 (Star not_dq); Chr DQ ]);
        Star isspace; Lit (lit "-->") ].

(** The marker pattern used for removal; its items, in order:
    [<!--]  [\s*]  [callout:]  [[^>]*]  [-->]  [\s*]. *)
Definition callout_strip_re : regex :=
  seq [ Lit (lit "<!--"); Star isspace; Lit (lit "callout:"); Star not_gt;
        Lit (lit "-->"); Star isspace ].

(** The first-paragraph pattern, compiled without flags; its items:
    [^]  [(] [<p] [[^>]*] [>] [)]. *)
Definition first_p_re : regex :=
  seq [ Bol false; Grp 1 (seq [ Lit (lit "<p"); Star not_gt; Chr GT ]) ].

(** The block pattern, compiled with [re.DOTALL]; its items:
    [<blockquote>]  [(] [.*?] [)]  [</blockquote>]. *)
Definition blockquote_re : regex :=
  seq [ Lit (lit "<blockquote>"); Grp 1 (LazyStar any_char); Lit (lit "</blockquote>") ].

Definition make_badge (ctype ctitle : str) : str :=
  if nonempty ctitle
  then lit "<span data-callout=" ++ [DQ] ++ ctype ++ [DQ] ++ lit ">" ++ ctitle ++ lit "</span>"
  else lit "<span data-callout=" ++ [DQ] ++ ctype ++ [DQ] ++ lit "></span>".

(** The inner function [repl] of [transform_callouts]. *)
Definition repl (mt : rmatch) : result str :=
  let inner := group_or_empty mt 1 in
  match re_search callout_comment_re inner with
  | None => Ok (m_text mt)
  | Some cm =>
      let ctype := group_or_empty cm 1 in
      let ctitle := group_or_empty cm 2 in
      let badge := make_badge ctype ctitle in
      let inner2 := re_sub callout_strip_re (fun _ => []) inner 1 in
      rbind (re_sub_template first_p_re 1 ([BSL; 49%N] ++ badge ++ [SP]) inner2 1)
        (fun inner2_new =>
           let inner2_new := if str_eqb inner2_new inner2 then badge ++ inner2
                             else inner2_new in
           Ok (lit "<blockquote>" ++ inner2_new ++ lit "</blockquote>"))
  end.

Definition transform_callouts (html : str) : result str :=
  re_sub_exn blockquote_re repl html 0.

(* ================================================================== *)
(** * [pathlib] and [os.path], POSIX flavour *)
(* ================================================================== *)

(** A pure path: whether it is anchored at the root, and its components.
    The [//] root of POSIX is outside the model. *)
Record Path : Type := MkPath { p_abs : bool; p_parts : list str }.

Definition SLASH : char := 47%N.
Definition DOT : char := 46%N.

Definition is_component (c : str) : bool := nonempty c && negb (str_eqb c [DOT]).

(** [Path(s)]: empty components and [.] are dropped. *)
Definition Path_of_str (s : str) : Path :=
  MkPath (startswith [SLASH] s) (filter is_component (split SLASH s)).

(** [str(p)] *)
Definition str_of_Path (p : Path) : str :=
  if p_abs p then SLASH :: join [SLASH] (p_parts p)
  else match p_parts p with
       | [] => [DOT]
       | _ => join [SLASH] (p_parts p)
       end.

(** [Path()] *)
Definition Path_empty : Path := MkPath false [].

(** [p.name] *)
Definition name (p : Path) : str := last (p_parts p) [].

(** [s.rfind(c)] *)
Fixpoint rfind (c : char) (s : str) : option nat :=
  match s with
  | [] => None
  | x :: s' =>
      match rfind c s' with
      | Some i => Some (S i)
      | None => if char_eqb x c then Some 0 else None
      end
  end.

(** The index at which the suffix of a name starts: the last dot, unless
    it is the first or the last character. *)
Definition suffix_index (nm : str) : option nat :=
  match rfind DOT nm with
  | Some i => if (0 <? i) && (i <? length nm - 1) then Some i else None
  | None => None
  end.

(** [p.suffix] *)
Definition suffix (p : Path) : str :=
  match suffix_index (name p) with
  | Some i => skipn i (name p)
  | None => []
  end.

(** [p.stem] *)
Definition stem (p : Path) : str :=
  match suffix_index (name p) with
  | Some i => firstn i (name p)
  | None => name p
  end.

(** [p.parent] *)
Definition parent (p : Path) : Path := MkPath (p_abs p) (removelast (p_parts p)).

(** [a / b] *)
Definition joinpath (a b : Path) : Path :=
  if p_abs b then b else MkPath (p_abs a) (p_parts a ++ p_parts b).

Fixpoint strip_prefix (pre l : list str) : option (list str) :=
  match pre, l with
  | [], _ => Some l
  | x :: pre', y :: l' => if str_eqb x y then strip_prefix pre' l' else None
  | _ :: _, [] => None
  end.

Definition ValueError (msg : string) : exn := Exn (lit "ValueError") (lit msg).

(** [self.relative_to(other)] *)
Definition relative_to (self other : Path) : result Path :=
  if Bool.eqb (p_abs self) (p_abs other) then
    match strip_prefix (p_parts other) (p_parts self) with
    | Some rest => Ok (MkPath false rest)
    | None => Raise (ValueError "path is not in the subpath of the other")
    end
  else Raise (ValueError "path is not in the subpath of the other").

(** Lexicographic order on strings and on lists of strings, as Python
    compares them. *)
Fixpoint str_ltb (a b : str) : bool :=
  match a, b with
  | _, [] => false
  | [], _ :: _ => true
  | x :: a', y :: b' => (x <? y)%N || (char_eqb x y && str_ltb a' b')
  end.

Fixpoint parts_ltb (a b : list str) : bool :=
  match a, b with
  | _, [] => false
  | [], _ :: _ => true
  | x :: a', y :: b' => str_ltb x y || (str_eqb x y && parts_ltb a' b')
  end.

(** [min(l)] and [max(l)] of a non-empty list given as head and tail. *)
Definition min_parts (x : list str) (l : list (list str)) : list str :=
  fold_left (fun acc y => if parts_ltb y acc then y else acc) l x.
Definition max_parts (x : list str) (l : list (list str)) : list str :=
  fold_left (fun acc y => if parts_ltb acc y then y else acc) l x.

Fixpoint common_prefix (s1 s2 : list str) : list str :=
  match s1, s2 with
  | x :: s1', y :: s2' => if str_eqb x y then x :: common_prefix s1' s2' else []
  | _, _ => []
  end.

(** [os.path.commonpath] of [posixpath]. *)
Definition commonpath (paths : list str) : result str :=
  match paths with
  | [] => Raise (ValueError "commonpath() arg is an empty sequence")
  | p0 :: ps =>
      let isabs := startswith [SLASH] p0 in
      if forallb (fun p => Bool.eqb (startswith [SLASH] p) isabs) ps then
        let split_paths := map (fun p => filter is_component (split SLASH p)) paths in
        match split_paths with
        | [] => Ok []
        | x :: l =>
            let s1 := min_parts x l in
            let s2 := max_parts x l in
            let common := common_prefix s1 s2 in
            Ok ((if isabs then [SLASH] else []) ++ join [SLASH] common)
        end
      else Raise (ValueError "Can't mix absolute and relative paths")
  end.

(** [MainWindow._common_base]. [resolve] stands for [Path.resolve], which
    consults the file system. *)
Definition _common_base (resolve : Path -> Path) (paths : list Path) : option Path :=
  match commonpath (map (fun p => str_of_Path (resolve p)) paths) with
  | Ok common => Some (Path_of_str common)
  | Raise _ => None
  end.

(* ================================================================== *)
(** * [ConvertTask] *)
(* ================================================================== *)

Record ConvertTask : Type := MkTask {
  files : list Path;
  out_dir : Path;
  theme : str;
  font_family : str;
  preserve_structure : bool;
  base_root : option Path
}.

(** [ConvertTask._compute_out_path] *)
Definition _compute_out_path (self : ConvertTask) (md_path : Path) : Path :=
  let safe_name := stem md_path ++ lit ".pdf" in
  match preserve_structure self, base_root self with
  | true, Some base =>
      let rel_parent :=
        match relative_to (parent md_path) base with
        | Ok rel => rel
        | Raise _ => Path_empty
        end in
      joinpath (joinpath (out_dir self) rel_parent) (Path_of_str safe_name)
  | _, _ => joinpath (out_dir self) (Path_of_str safe_name)
  end.

(** One result of a run: [(str(md_path), str(output_pdf), ok, err)]. *)
Record outcome : Type := MkOutcome {
  o_src : str;
  o_dest : str;
  o_ok : bool;
  o_err : str
}.

(** What a run does that can be seen from outside, in order: the signals it
    emits and the calls it makes to the file system and to the renderer. *)
Inductive event : Type :=
| Progress (cur total : nat)             (* signals.progress.emit *)
| Message (text : str)                   (* signals.message.emit *)
| Done (results : list outcome)          (* signals.done.emit *)
| ReadFile (p : Path)                    (* load_text *)
| Mkdir (d : Path)                       (* mkdir(parents=True, exist_ok=True) *)
| WritePdf (base_url out_pdf : str).     (* HTML(...).write_pdf *)

(** [traceback.format_exception_only(type(e), e)]: one line, the class
    name and, when [str(e)] is not empty, a colon and [str(e)]. *)
Definition format_exception_only (e : exn) : list str :=
  [ exn_type e ++
    (if nonempty (exn_msg e) then lit ": " ++ exn_msg e else []) ++ [LF] ].

Section Engine.
  (** The state of the file system. *)
Variable World : Type.
  (** [p.open(...).read()] *)
Variable read_file : World -> Path -> result str.
  (** [markdown.Markdown(...).convert] with the extensions of the source. *)
Variable markdown_convert : str -> result str.
  (** The style sheets, static text. *)
Variable pdf_css_base : str -> str.
Variable pdf_css_theme_light : str.
Variable pdf_css_theme_dark : str.
Variable pygments_css : str.
  (** [d.mkdir(parents=True, exist_ok=True)] *)
Variable mkdir_p : World -> Path -> World * result unit.
  (** [HTML(string=html, base_url=b).write_pdf(out)] *)
Variable write_pdf : World -> str -> str -> str -> World * result unit.

Record state : Type := MkState { world : World; trace : list event }.

  (** Computations over the state that return or raise. *)
Definition M (A : Type) : Type := state -> state * result A.

Definition ret {A} (a : A) : M A := fun st => (st, Ok a).
Definition bind {A B} (x : M A) (f : A -> M B) : M B :=
    fun st => match x st with
              | (st', Ok a) => f a st'
              | (st', Raise e) => (st', Raise e)
              end.
Definition lift {A} (r : result A) : M A := fun st => (st, r).
Definition emit (ev : event) : M unit :=
    fun st => (MkState (world st) (trace st ++ [ev]), Ok tt).
  (** [try: body  except Exception as e: handler(e)] *)
Definition try_except {A} (body : M A) (handler : exn -> M A) : M A :=
    fun st => match body st with
              | (st', Ok a) => (st', Ok a)
              | (st', Raise e) => handler e st'
              end.

Notation "x <- c1 ;; c2" := (bind c1 (fun x => c2))
    (at level 61, c1 at next level, right associativity).
Notation "c1 ;;; c2" := (bind c1 (fun _ => c2))
    (at level 61, right associativity).

Definition load_text (p : Path) : M str :=
    emit (ReadFile p) ;;;
    fun st => (st, read_file (world st) p).

Definition build_markdown_html (md_text : str) : M str :=
    lift (markdown_convert md_text).

Definition wrap_html_document (body_html theme font_family title : str)
    : result str :=
    let theme_css := if str_eqb theme (lit "Dark") then pdf_css_theme_dark
                     else pdf_css_theme_light in
    let css_base := pdf_css_base font_family in
    let pyg_css := pygments_css in
    rbind (transform_callouts body_html) (fun body_with_callouts =>
    let header_html :=
      lit "<h1 class=" ++ [DQ] ++ lit "doc-title" ++ [DQ] ++ lit ">" ++ title
        ++ lit "</h1>" in
    Ok (lit "<!DOCTYPE html>
    <html lang=" ++ [DQ] ++ lit "ru" ++ [DQ] ++ lit ">
    <head>
      <meta charset=" ++ [DQ] ++ lit "utf-8" ++ [DQ] ++ lit " />
      <meta name=" ++ [DQ] ++ lit "viewport" ++ [DQ] ++ lit " content=" ++ [DQ]
        ++ lit "width=device-width, initial-scale=1" ++ [DQ] ++ lit " />
      <title>" ++ title ++ lit "</title>
      <style>
        " ++ css_base ++ lit "
        " ++ theme_css ++ lit "
        /* Pygments */
        " ++ pyg_css ++ lit "

        /* стиль заголовка документа */
        h1.doc-title {
          text-align: center;
          font-size: 2em;
          margin-bottom: 1em;
          border-bottom: 2px solid var(--divider);
          padding-bottom: 0.3em;
        }
      </style>
    </head>
    <body>
      " ++ header_html ++ lit "
      " ++ body_with_callouts ++ lit "
    </body>
    </html>
    ")).

  (** [ConvertTask.convert_one] *)
Definition convert_one (self : ConvertTask) (md_path : Path) : M (str * Path) :=
    text <- load_text md_path ;;
    let text := preprocess_obsidian text in
    body_html <- build_markdown_html text ;;
    let doc_title := stem md_path in
    full_html <- lift (wrap_html_document body_html (theme self)
                         (font_family self) doc_title) ;;
    let out_pdf := _compute_out_path self md_path in
    ret (full_html, out_pdf).

  (** [ConvertTask.render_pdf] *)
Definition render_pdf (html_str : str) (base_url out_pdf : Path) : M unit :=
    emit (Mkdir (parent out_pdf)) ;;;
    (fun st => let '(w, r) := mkdir_p (world st) (parent out_pdf) in
               (MkState w (trace st), r)) ;;;
    emit (WritePdf (str_of_Path base_url) (str_of_Path out_pdf)) ;;;
    (fun st => let '(w, r) := write_pdf (world st) html_str (str_of_Path base_url)
                                (str_of_Path out_pdf) in
               (MkState w (trace st), r)).

  (** The text recorded for an exception. *)
Definition error_text (e : exn) : str :=
    strip (concat (format_exception_only e)).

  (** The body of the loop of [ConvertTask.run] for the [i]-th file:
      the [try] block and its handler. It returns the list of results with
      one more entry. *)
Definition run_step (self : ConvertTask) (total i : nat) (md_path : Path)
    (results : list outcome) : M (list outcome) :=
    try_except
      (emit (Progress i total) ;;;
       emit (Message (lit "Конвертация: " ++ str_of_Path md_path)) ;;;
       r <- convert_one self md_path ;;
       let '(html, output_pdf) := r in
       render_pdf html (parent md_path) output_pdf ;;;
       let results := results ++
             [MkOutcome (str_of_Path md_path) (str_of_Path output_pdf) true []] in
       emit (Message (lit "✓ Готово: " ++ str_of_Path output_pdf)) ;;;
       ret results)
      (fun e =>
         let err := error_text e in
         let results := results ++ [MkOutcome (str_of_Path md_path) [] false err] in
         emit (Message (lit "✗ Ошибка: " ++ str_of_Path md_path ++ [LF] ++ lit "  "
                          ++ err)) ;;;
         ret results).

  (** [for i, md_path in enumerate(..., start=i)] *)
Fixpoint run_loop (self : ConvertTask) (total i : nat) (todo : list Path)
    (results : list outcome) : M (list outcome) :=
    match todo with
    | [] => ret results
    | md_path :: rest =>
        results <- run_step self total i md_path results ;;
        run_loop self total (S i) rest results
    end.

  (** [ConvertTask.run] *)
Definition run (self : ConvertTask) : M (list outcome) :=
    let total := length (files self) in
    results <- run_loop self total 1 (files self) [] ;;
    emit (Done results) ;;;
    ret results.

  (** The steps of one document that can raise: read and assemble
      ([convert_one]), then render ([render_pdf]). *)
Definition convert_and_render (self : ConvertTask) (md_path : Path) : M Path :=
    r <- convert_one self md_path ;;
    render_pdf (fst r) (parent md_path) (snd r) ;;;
    ret (snd r).

  (** The state in which the steps of a document start: the progress
      signal and the first log line have been emitted. *)
Definition announced (total i : nat) (md_path : Path) (st : state) : state :=
    MkState (world st)
      (trace st ++ [Progress i total;
                    Message (lit "Конвертация: " ++ str_of_Path md_path)]).
End Engine.

(* ================================================================== *)
(** * Vocabulary of the specification *)
(* ================================================================== *)

(** The character before the current position once [t] has been read. *)
Definition last_char (prev : option char) (t : str) : option char :=
  fold_left (fun _ c => Some c) t prev.

(** The outcome recorded for a document whose steps returned [r]. *)
Definition outcome_of (md_path : Path) (r : result Path) : outcome :=
  match r with
  | Ok output_pdf => MkOutcome (str_of_Path md_path) (str_of_Path output_pdf) true []
  | Raise e => MkOutcome (str_of_Path md_path) [] false (error_text e)
  end.

(** The log line that closes the processing of a document. *)
Definition closing_message (md_path : Path) (r : result Path) : event :=
  match r with
  | Ok output_pdf => Message (lit "✓ Готово: " ++ str_of_Path output_pdf)
  | Raise e =>
      Message (lit "✗ Ошибка: " ++ str_of_Path md_path ++ [LF] ++ lit "  "
                 ++ error_text e)
  end.

(** The printed class name of an exception starts with a character that is
    not white space (class names are identifiers, possibly qualified). *)
Definition exn_ok (e : exn) : bool :=
  match exn_type e with
  | c :: _ => negb (isspace c)
  | [] => false
  end.

(** Events that belong to the processing of one document: log lines and
    the calls made for it. *)
Definition doc_event (md_path : Path) (ev : event) : bool :=
  match ev with
  | Message _ => true
  | ReadFile p => if list_eq_dec (list_eq_dec N.eq_dec) (p_parts p) (p_parts md_path)
                  then Bool.eqb (p_abs p) (p_abs md_path) else false
  | Mkdir _ => true
  | WritePdf b _ => str_eqb b (str_of_Path (parent md_path))
  | Progress _ _ => false
  | Done _ => false
  end.

(** Components of a path never hold a separator. *)
Definition has_slash (c : str) : bool := existsb (fun x => char_eqb x SLASH) c.
Definition path_ok (p : Path) : bool :=
  forallb (fun c => negb (has_slash c)) (p_parts p).

(** [self.is_relative_to(other)]: [other] is [self] or one of its
    ancestors. *)
Definition is_relative_to (self other : Path) : bool :=
  Bool.eqb (p_abs self) (p_abs other) &&
  match strip_prefix (p_parts other) (p_parts self) with
  | Some _ => true
  | None => false
  end.

(** A replacement that reads the text and the groups of a match, not its
    position. *)
Definition ignores_start (A : Type) (f : rmatch -> A) : Prop :=
  forall pos pos' t cs, f (Match pos t cs) = f (Match pos' t cs).

(** Line endings normalised in one pass: a carriage return, with the line
    feed that follows it if there is one, becomes one line feed. *)
Fixpoint normalize_newlines (s : str) : str :=
  match s with
  | [] => []
  | c :: s' =>
      if char_eqb c CR then
        LF :: match s' with
              | d :: s'' => if char_eqb d LF then normalize_newlines s''
                            else normalize_newlines s'
              | [] => []
              end
      else c :: normalize_newlines s'
  end.

(** A character that ends no line. *)
Definition no_break (c : char) : bool :=
  negb (char_eqb c CR) && negb (char_eqb c LF).

(** A callout header read from the start of [l] in the specification's
    words: optional blanks, the blockquote marker, optional blanks, the tag
    [[!kind]] with [kind] one or more letters, optional blanks, and the
    title, which runs to the end of the line. *)
Definition header_of (l : str) : option (str * str) :=
  match dropwhile is_blank l with
  | c1 :: l1 =>
      if char_eqb c1 GT then
        match dropwhile is_blank l1 with
        | c2 :: c3 :: l2 =>
            if char_eqb c2 91%N && char_eqb c3 33%N then
              match takewhile is_letter l2, dropwhile is_letter l2 with
              | _ :: _, c4 :: l3 =>
                  if char_eqb c4 93%N
                  then Some (takewhile is_letter l2,
                             takewhile not_newline (dropwhile is_blank l3))
                  else None
              | _, _ => None
              end
            else None
        | _ => None
        end
      else None
  | [] => None
  end.

(** The marker line for a kind and a trimmed title. *)
Definition marker_line (kind title : str) : str :=
  if nonempty title
  then lit "> <!--callout:" ++ kind ++ lit " title=" ++ [DQ] ++ title ++ [DQ] ++ lit "-->"
  else lit "> <!--callout:" ++ kind ++ lit "-->".

(** What the preprocessor makes of one line. *)
Definition rewrite_line (l : str) : str :=
  match header_of l with
  | Some (kind, title) => marker_line (lower kind) (strip title)
  | None => l
  end.

(** A run of characters of the class [p] ends where [after] starts. *)
Definition stops (p : char -> bool) (after : str) : Prop :=
  match after with
  | [] => True
  | c :: _ => p c = false
  end.

(** Any character but [<]. *)
Definition not_lt (c : char) : bool := negb (char_eqb c LT).

(** The tags that delimit a block. *)
Definition OPEN : str := lit "<blockquote>".
Definition CLOSE : str := lit "</blockquote>".

(** The marker comment the preprocessor writes after the blockquote sign. *)
Definition marker (kind title : str) : str :=
  if nonempty title
  then lit "<!--callout:" ++ kind ++ lit " title=" ++ [DQ] ++ title ++ [DQ] ++ lit "-->"
  else lit "<!--callout:" ++ kind ++ lit "-->".

(** Optional white space and the end of a comment, read from the start of
    [s]. *)
Definition comment_end_at (s : str) : bool :=
  startswith (lit "-->") (dropwhile isspace s).

(** A title attribute read from the start of [s]: white space, [title=],
    and a quoted text without double quote; the title and what follows the
    closing quote. *)
Definition title_at (s : str) : option (str * str) :=
  match takewhile isspace s with
  | [] => None
  | _ :: _ =>
      if startswith (lit "title=" ++ [DQ]) (dropwhile isspace s) then
        let s5 := skipn 7 (dropwhile isspace s) in
        match dropwhile not_dq s5 with
        | c :: s6 => if char_eqb c DQ then Some (takewhile not_dq s5, s6) else None
        | [] => None
        end
      else None
  end.

(** A marker comment read from the start of [s]: its kind and, when the
    title attribute is there and the comment ends right after it, its
    title. *)
Definition comment_at (s : str) : option (str * option str) :=
  if startswith (lit "<!--") s then
    let s2 := dropwhile isspace (skipn 4 s) in
    if startswith (lit "callout:") s2 then
      let s3 := skipn 8 s2 in
      match takewhile is_lower_ascii s3 with
      | [] => None
      | _ :: _ =>
          let kind := takewhile is_lower_ascii s3 in
          let s4 := dropwhile is_lower_ascii s3 in
          match title_at s4 with
          | Some (title, s6) =>
              if comment_end_at s6 then Some (kind, Some title)
              else if comment_end_at s4 then Some (kind, None) else None
          | None => if comment_end_at s4 then Some (kind, None) else None
          end
      end
    else None
  else None.

(** The groups of a marker comment. *)
Definition comment_caps (c : str * option str) : caps :=
  match c with
  | (kind, Some title) => [(2, title); (1, kind)]
  | (kind, None) => [(1, kind)]
  end.

(** The first marker comment of [s], searched from left to right. *)
Fixpoint first_comment (s : str) : option (str * option str) :=
  match comment_at s with
  | Some c => Some c
  | None =>
      match s with
      | [] => None
      | _ :: s' => first_comment s'
      end
  end.

(** An opening tag that starts with [<p] at the very start of [s], and what
    follows it. *)
Definition p_tag_at (s : str) : option (str * str) :=
  if startswith (lit "<p") s then
    let s1 := skipn 2 s in
    match dropwhile not_gt s1 with
    | c :: rest => Some (lit "<p" ++ takewhile not_gt s1 ++ [c], rest)
    | [] => None
    end
  else None.

(** Where the badge goes: after such a tag when the content starts with
    one, in front of the content otherwise. *)
Definition place_badge (badge content : str) : str :=
  match p_tag_at content with
  | Some (tag, rest) => tag ++ badge ++ [SP] ++ rest
  | None => badge ++ content
  end.

(** An opening [<p] tag at the start of [x], if there is one, is closed
    within [x]. *)
Definition p_tag_closed (x : str) : bool :=
  match p_tag_at x with
  | Some _ => true
  | None => negb (startswith (lit "<p") x)
  end.

(** A title that the marker and the template carry unchanged: no double
    quote, no [>], no backslash. *)
Definition plain_title_char (c : char) : bool :=
  negb (char_eqb c DQ) && negb (char_eqb c GT) && negb (char_eqb c BSL).

(** A stub environment for examples: one file cannot be read, the
    converter wraps its input in a paragraph, the renderer always succeeds. *)
Definition stub_read (w : unit) (p : Path) : result str :=
  if str_eqb (name p) (lit "missing.md")
  then Raise (Exn (lit "FileNotFoundError") (lit "[Errno 2] No such file or directory"))
  else Ok (lit "Hello").
Definition stub_markdown (t : str) : result str :=
  Ok (lit "<p>" ++ t ++ lit "</p>").
Definition stub_css (font : str) : str := [].
Definition stub_mkdir (w : unit) (d : Path) : unit * result unit := (w, Ok tt).
Definition stub_write (w : unit) (html base_url out : str) : unit * result unit :=
  (w, Ok tt).

(* ================================================================== *)
(** * More of [pathlib] *)
(* ================================================================== *)

(** [p.parts]: the root, when the path is anchored, then the components. *)
Definition parts (p : Path) : list str :=
  if p_abs p then [SLASH] :: p_parts p else p_parts p.

Fixpoint parts_eqb (a b : list str) : bool :=
  match a, b with
  | [], [] => true
  | x :: a', y :: b' => str_eqb x y && parts_eqb a' b'
  | _, _ => false
  end.

(** [p == q] *)
Definition Path_eqb (p q : Path) : bool :=
  Bool.eqb (p_abs p) (p_abs q) && parts_eqb (p_parts p) (p_parts q).

(** A component as [pathlib] keeps it: not empty, not [.], no separator. *)
Definition wf_component (c : str) : bool := is_component c && negb (has_slash c).

(** A path whose components are all such. *)
Definition path_wf (p : Path) : bool := forallb wf_component (p_parts p).

(** [a] is [b] or comes before it in the order of [min] and [max]. *)
Definition parts_leb (a b : list str) : bool := negb (parts_ltb b a).

(** [pre] is a prefix of [l]. *)
Definition is_prefix (pre l : list str) : bool :=
  match strip_prefix pre l with
  | Some _ => true
  | None => false
  end.


(* ================================================================== *)
(** * [collect_md_in_dir] *)
(* ================================================================== *)

Section Collect.
  (** [root.rglob("*.md")], which walks the file system. *)
Variable rglob_md : Path -> list Path.
  (** [str.lower], the case mapping of Unicode. *)
Variable str_lower : str -> str.

  (** The loop of [collect_md_in_dir]: [res] is the list built so far. The
      set of lowercased parts is only tested for membership. *)
Fixpoint collect_loop (ps res : list Path) : list Path :=
    match ps with
    | [] => res
    | p :: ps' =>
        let lowered := map str_lower (parts p) in
        if existsb (str_eqb (lit ".obsidian")) lowered then collect_loop ps' res
        else if existsb (startswith [DOT]) (parts p) then collect_loop ps' res
        else collect_loop ps' (res ++ [p])
    end.

Definition collect_md_in_dir (root : Path) : list Path :=
    collect_loop (rglob_md root) [].
End Collect.

(** A part that marks a hidden file or directory. *)
Definition hidden (p : Path) : bool := existsb (startswith [DOT]) (parts p).

(* ================================================================== *)
(** * [MainWindow]: the file list and the base folder *)
(* ================================================================== *)

(** The digits of [str(n)]. *)
Fixpoint digits (d : Decimal.uint) : str :=
  match d with
  | Decimal.Nil => []
  | Decimal.D0 d => 48%N :: digits d
  | Decimal.D1 d => 49%N :: digits d
  | Decimal.D2 d => 50%N :: digits d
  | Decimal.D3 d => 51%N :: digits d
  | Decimal.D4 d => 52%N :: digits d
  | Decimal.D5 d => 53%N :: digits d
  | Decimal.D6 d => 54%N :: digits d
  | Decimal.D7 d => 55%N :: digits d
  | Decimal.D8 d => 56%N :: digits d
  | Decimal.D9 d => 57%N :: digits d
  end.

(** [str(n)] for a natural number. *)
Definition str_of_nat (n : nat) : str := digits (Nat.to_uint n).

Module MainWindow.

(** The attributes of the window and the state of the widgets that the
    methods below read or write. *)
Record t : Type := Mk {
  files : list Path;
  out_dir : Path;
  theme : str;
  font_family : str;
  preserve_structure : bool;
  base_root : option Path;
  list_files : list str;        (* the items of the list widget, by text *)
  chk_preserve : bool;          (* chk_preserve.isChecked() *)
  ed_base : str;                (* ed_base.text() *)
  ed_out : str;                 (* ed_out.text() *)
  progress : nat;               (* progress.value() *)
  busy : bool;                  (* the argument of the last _set_busy *)
  log : list str                (* the texts appended to the log *)
}.

Definition set_files (self : t) (fs : list Path) (items : list str) : t :=
  Mk fs (out_dir self) (theme self) (font_family self) (preserve_structure self)
     (base_root self) items (chk_preserve self) (ed_base self) (ed_out self)
     (progress self) (busy self) (log self).

Definition set_out_dir (self : t) (d : Path) : t :=
  Mk (files self) d (theme self) (font_family self) (preserve_structure self)
     (base_root self) (list_files self) (chk_preserve self) (ed_base self)
     (ed_out self) (progress self) (busy self) (log self).

Definition set_progress (self : t) (v : nat) : t :=
  Mk (files self) (out_dir self) (theme self) (font_family self)
     (preserve_structure self) (base_root self) (list_files self)
     (chk_preserve self) (ed_base self) (ed_out self) v (busy self) (log self).

(** [_set_busy] *)
Definition _set_busy (self : t) (b : bool) : t :=
  Mk (files self) (out_dir self) (theme self) (font_family self)
     (preserve_structure self) (base_root self) (list_files self)
     (chk_preserve self) (ed_base self) (ed_out self) (progress self) b (log self).

(** [_log] *)
Definition _log (self : t) (text : str) : t :=
  Mk (files self) (out_dir self) (theme self) (font_family self)
     (preserve_structure self) (base_root self) (list_files self)
     (chk_preserve self) (ed_base self) (ed_out self) (progress self) (busy self)
     (log self ++ [text]).

(** [on_clear] *)
Definition on_clear (self : t) : t :=
  _log (set_files self [] []) (lit "Список очищен.").

(** [not self.ed_base.text().strip()] *)
Definition base_blank (self : t) : bool := negb (nonempty (strip (ed_base self))).

Section Methods.
  (** [Path.resolve] and [Path.exists], which consult the file system. *)
Variable resolve : Path -> Path.
Variable exists_ : Path -> bool.
  (** [str.lower], the case mapping of Unicode. *)
Variable str_lower : str -> str.
  (** [out.mkdir(parents=True, exist_ok=True)] *)
Variable mkdir_p : Path -> result unit.
  (** [root.rglob("*.md")] *)
Variable rglob_md : Path -> list Path.

  (** [_set_base_root] *)
Definition _set_base_root (self : t) (path : Path) : t :=
    let b := resolve path in
    Mk (files self) (out_dir self) (theme self) (font_family self)
       (preserve_structure self) (Some b) (list_files self) (chk_preserve self)
       (str_of_Path b) (ed_out self) (progress self) (busy self) (log self).

  (** [_update_base_root_autodetect] *)
Definition _update_base_root_autodetect (self : t) : t :=
    match files self with
    | [] => self
    | _ :: _ =>
        match _common_base resolve (files self) with
        | Some base => _set_base_root self base
        | None => self
        end
    end.

  (** The body of the loop of [_add_files], on the window and the count
      [added]. *)
Definition add_file (st : t * nat) (p : Path) : t * nat :=
    let '(self, added) := st in
    let p := resolve p in
    if negb (exists_ p) || negb (str_eqb (str_lower (suffix p)) (lit ".md"))
    then (self, added)
    else if existsb (Path_eqb p) (files self) then (self, added)
    else (set_files self (files self ++ [p]) (list_files self ++ [str_of_Path p]),
          S added).

  (** [_add_files] *)
Definition _add_files (self : t) (paths : list Path) : t :=
    let '(self, added) := fold_left add_file paths (self, 0) in
    match added with
    | 0 => self
    | S _ =>
        let self :=
          _log self (lit "Добавлено файлов: " ++ str_of_nat added ++ lit " (итого: "
                       ++ str_of_nat (length (files self)) ++ lit ")") in
        if chk_preserve self && base_blank self
        then _update_base_root_autodetect self
        else self
    end.

  (** [on_add_folder]; [d] is what [pick_folder] returned. *)
Definition on_add_folder (self : t) (d : option Path) : t :=
    match d with
    | None => self
    | Some d =>
        let found := collect_md_in_dir rglob_md str_lower d in
        let self := _add_files self found in
        if chk_preserve self && base_blank self then _set_base_root self d
        else self
    end.

  (** [on_convert]: the window afterwards and the task handed to the pool,
      if any; it raises when the output folder cannot be made. *)
Definition on_convert (self : t) : result (t * option ConvertTask) :=
    match files self with
    | [] => Ok (_log self (lit "Нет файлов для конвертации."), None)
    | _ :: _ =>
        let out := Path_of_str (strip (ed_out self)) in
        rbind (mkdir_p out) (fun _ =>
        let self := set_out_dir self out in
        let base_root :=
          if chk_preserve self then
            let base_text := strip (ed_base self) in
            if nonempty base_text then Some (Path_of_str base_text)
            else _common_base resolve (files self)
          else None in
        let self :=
          match chk_preserve self, base_root with
          | true, Some b =>
              _log self (lit "Базовая папка для структуры: " ++ str_of_Path b)
          | _, _ => self
          end in
        let self := _set_busy self true in
        let self := set_progress self 0 in
        let task := MkTask (files self) (out_dir self) (theme self)
                      (font_family self) (chk_preserve self) base_root in
        Ok (self, Some task))
    end.
End Methods.

End MainWindow.

(** A window and a file system for examples: the list is empty, the
    structure is preserved, no base is given; every path exists and
    resolves to itself, anchored at the root. *)
Definition stub_window : MainWindow.t :=
  MainWindow.Mk [] (Path_of_str (lit "/home/u/Desktop")) (lit "Light")
    (lit "JetBrains Mono") true None [] true [] (lit "/home/u/Desktop") 0 false [].
Definition stub_resolve (p : Path) : Path := MkPath true (p_parts p).
Definition stub_exists (p : Path) : bool := true.

(* ================================================================== *)
(** * Properties *)
(* ================================================================== *)

Arguments char_eqb : simpl never.

(** ** Strings *)

Lemma char_eqb_eq (a b : char) : char_eqb a b = true <-> a = b.
Proof. apply N.eqb_eq. Qed.

Lemma char_eqb_refl (a : char) : char_eqb a a = true.
Proof. apply N.eqb_refl. Qed.

Lemma char_eqb_neq (a b : char) : char_eqb a b = false <-> a <> b.
Proof. apply N.eqb_neq. Qed.

Lemma str_eqb_eq (a b : str) : str_eqb a b = true <-> a = b.
Proof.
  revert b; induction a as [|x a IH]; intros [|y b]; simpl; split; intro H;
    try reflexivity; try discriminate.
  - apply andb_true_iff in H as [H1 H2].
    apply char_eqb_eq in H1. apply IH in H2. congruence.
  - inversion H; subst. rewrite char_eqb_refl. simpl. apply IH. reflexivity.
Qed.

Lemma str_eqb_refl (a : str) : str_eqb a a = true.
Proof. apply str_eqb_eq. reflexivity. Qed.

Lemma str_eqb_neq (a b : str) : a <> b -> str_eqb a b = false.
Proof.
  intro H. destruct (str_eqb a b) eqn:E; [|reflexivity].
  apply str_eqb_eq in E. contradiction.
Qed.

(** ** Paths *)

Lemma split_no_sep (c : char) (s : str) :
  existsb (fun x => char_eqb x c) s = false -> split c s = [s].
Proof.
  induction s as [|x s IH]; simpl; intro H; [reflexivity|].
  apply orb_false_iff in H as [H1 H2].
  rewrite H1, (IH H2). reflexivity.
Qed.

Lemma has_slash_app (a b : str) :
  has_slash (a ++ b) = has_slash a || has_slash b.
Proof. unfold has_slash. apply existsb_app. Qed.

Lemma has_slash_firstn (n : nat) (s : str) :
  has_slash s = false -> has_slash (firstn n s) = false.
Proof.
  revert n; induction s as [|x s IH]; intros [|n] H; simpl in *; try reflexivity.
  apply orb_false_iff in H as [H1 H2]. rewrite H1. simpl. apply IH, H2.
Qed.

Lemma has_slash_last (l : list str) :
  forallb (fun c => negb (has_slash c)) l = true -> has_slash (last l []) = false.
Proof.
  induction l as [|x l IH]; simpl; intro H; [reflexivity|].
  apply andb_true_iff in H as [H1 H2].
  destruct l as [|y l]; [now apply negb_true_iff in H1|].
  apply IH, H2.
Qed.

Lemma stem_no_slash (p : Path) : path_ok p = true -> has_slash (stem p) = false.
Proof.
  intro H. unfold stem. pose proof (has_slash_last _ H) as Hn. fold (name p) in Hn.
  destruct (suffix_index (name p)); [apply has_slash_firstn|]; exact Hn.
Qed.

Lemma name_stem_suffix (p : Path) : name p = stem p ++ suffix p.
Proof.
  unfold stem, suffix. destruct (suffix_index (name p)).
  - symmetry. apply firstn_skipn.
  - symmetry. apply app_nil_r.
Qed.

(** A stem followed by [.pdf] is read back as one relative component. *)
Lemma Path_of_safe_name (st : str) :
  has_slash st = false ->
  Path_of_str (st ++ lit ".pdf") = MkPath false [st ++ lit ".pdf"].
Proof.
  intro H. unfold Path_of_str.
  assert (Hs : has_slash (st ++ lit ".pdf") = false).
  { rewrite has_slash_app, H. reflexivity. }
  unfold has_slash in Hs. rewrite (split_no_sep _ _ Hs).
  f_equal.
  - destruct st as [|c st]; [reflexivity|]. simpl in *.
    apply orb_false_iff in H as [H1 _]. unfold char_eqb in *.
    rewrite N.eqb_sym, H1. reflexivity.
  - simpl. unfold is_component.
    destruct st as [|c [|c' st]]; simpl; try reflexivity.
    + rewrite andb_false_r. reflexivity.
    + rewrite andb_false_r. reflexivity.
Qed.

Lemma name_joinpath_single (a : Path) (c : str) :
  name (joinpath a (MkPath false [c])) = c.
Proof. unfold name, joinpath. simpl. apply last_last. Qed.

Lemma relative_to_ok (self other : Path) :
  is_relative_to self other = true ->
  exists rel, relative_to self other = Ok rel /\ p_abs rel = false /\
              strip_prefix (p_parts other) (p_parts self) = Some (p_parts rel).
Proof.
  unfold is_relative_to, relative_to. intro H.
  apply andb_true_iff in H as [H1 H2]. rewrite H1.
  destruct (strip_prefix (p_parts other) (p_parts self)) as [rest|]; [|discriminate].
  exists (MkPath false rest). auto.
Qed.

Lemma relative_to_raise (self other : Path) :
  is_relative_to self other = false ->
  exists e, relative_to self other = Raise e.
Proof.
  unfold is_relative_to, relative_to. intro H.
  destruct (Bool.eqb (p_abs self) (p_abs other)); [|eauto].
  destruct (strip_prefix (p_parts other) (p_parts self)); [discriminate|eauto].
Qed.

Lemma strip_prefix_app (pre l rest : list str) :
  strip_prefix pre l = Some rest -> l = pre ++ rest.
Proof.
  revert l; induction pre as [|x pre IH]; intros l H; simpl in *.
  - congruence.
  - destruct l as [|y l]; [discriminate|].
    destruct (str_eqb x y) eqn:E; [|discriminate].
    apply str_eqb_eq in E. subst. f_equal. apply IH, H.
Qed.

(** C5. The destination is named after the stem of the source, with
    [.pdf] in place of the suffix; it lies directly under the output root
    when the structure is not preserved or the directory of the source is
    not under the base root, and under the mirrored relative directory
    otherwise. *)
Theorem compute_out_path_spec (self : ConvertTask) (md_path : Path) :
  path_ok md_path = true ->
  let file_name := MkPath false [stem md_path ++ lit ".pdf"] in
  name md_path = stem md_path ++ suffix md_path /\
  name (_compute_out_path self md_path) = stem md_path ++ lit ".pdf" /\
  (preserve_structure self = false ->
   _compute_out_path self md_path = joinpath (out_dir self) file_name) /\
  (forall base,
      preserve_structure self = true -> base_root self = Some base ->
      is_relative_to (parent md_path) base = true ->
      exists rel,
        p_abs rel = false /\
        p_parts (parent md_path) = p_parts base ++ p_parts rel /\
        _compute_out_path self md_path =
          joinpath (joinpath (out_dir self) rel) file_name) /\
  (forall base,
      preserve_structure self = true -> base_root self = Some base ->
      is_relative_to (parent md_path) base = false ->
      _compute_out_path self md_path = joinpath (out_dir self) file_name).
Proof.
  intros Hok file_name.
  pose proof (Path_of_safe_name _ (stem_no_slash _ Hok)) as Hsafe.
  split; [apply name_stem_suffix|].
  assert (Hflat : joinpath (joinpath (out_dir self) Path_empty) file_name
                  = joinpath (out_dir self) file_name).
  { unfold joinpath, Path_empty. simpl. rewrite app_nil_r. reflexivity. }
  split; [|split; [|split]].
  - unfold _compute_out_path. rewrite Hsafe. fold file_name.
    destruct (preserve_structure self); [|apply name_joinpath_single].
    destruct (base_root self) as [base|]; [|apply name_joinpath_single].
    apply name_joinpath_single.
  - intro Hp. unfold _compute_out_path. rewrite Hp, Hsafe. reflexivity.
  - intros base Hp Hb Hrel. unfold _compute_out_path. rewrite Hp, Hb, Hsafe.
    destruct (relative_to_ok _ _ Hrel) as (rel & Hr & Habs & Hparts).
    exists rel. rewrite Hr. repeat split; [exact Habs|].
    apply strip_prefix_app, Hparts.
  - intros base Hp Hb Hrel. unfold _compute_out_path. rewrite Hp, Hb, Hsafe.
    destruct (relative_to_raise _ _ Hrel) as (e & Hr). rewrite Hr.
    exact Hflat.
Qed.

Lemma dropwhile_snoc_keep (p : char -> bool) (l : str) (c : char) :
  p c = false -> dropwhile p (l ++ [c]) <> [].
Proof.
  intro H. induction l as [|x l IH]; simpl.
  - rewrite H. discriminate.
  - destruct (p x); [exact IH | discriminate].
Qed.

Lemma strip_nonempty (c : char) (s : str) :
  isspace c = false -> strip (c :: s) <> [].
Proof.
  intro H. unfold strip, lstrip, rstrip. simpl dropwhile at 2. rewrite H.
  intro E. apply (f_equal (@rev char)) in E. rewrite rev_involutive in E.
  simpl in E. revert E. apply dropwhile_snoc_keep, H.
Qed.

Lemma error_text_nonempty (e : exn) : exn_ok e = true -> error_text e <> [].
Proof.
  unfold exn_ok, error_text, format_exception_only. intro H.
  destruct (exn_type e) as [|c t]; [discriminate|].
  apply negb_true_iff in H. simpl. apply strip_nonempty, H.
Qed.

(** Exceptions of the template parser have printable class names. *)
Lemma group_ref_exn n d e : group_ref n d = Raise e -> exn_ok e = true.
Proof.
  unfold group_ref. destruct (N.to_nat d <=? n); intro H; inversion H. reflexivity.
Qed.

Lemma named_ref_exn n nm e : named_ref n nm = Raise e -> exn_ok e = true.
Proof.
  unfold named_ref. destruct nm as [|c r]; [intro H; inversion H; reflexivity|].
  destruct (forallb is_digit (c :: r)); [apply group_ref_exn|].
  destruct (is_ident_start c && forallb is_ident_char r);
    intro H; inversion H; reflexivity.
Qed.

Lemma emit_then_exn pre c e :
  (forall e', pre = Raise e' -> exn_ok e' = true) ->
  emit_then pre c = Raise e -> exn_ok e = true.
Proof.
  unfold emit_then. intros Hpre. destruct pre as [ts|e']; simpl.
  - destruct (text_step c). discriminate.
  - intro H. inversion H; subst. apply Hpre. reflexivity.
Qed.

Lemma tmpl_step_exn n st c e : tmpl_step n st c = Raise e -> exn_ok e = true.
Proof.
  destruct st; unfold tmpl_step.
  - discriminate.
  - repeat match goal with
           | |- context [if ?b then _ else _] => destruct b
           | |- context [match ?x with Some _ => _ | None => _ end] => destruct x
           end; intro H; inversion H; reflexivity.
  - destruct (char_eqb c LT); intro H; inversion H; reflexivity.
  - destruct (char_eqb c GT); [|discriminate].
    destruct (named_ref n (rev acc)) eqn:E; simpl; intro H; inversion H; subst.

    eapply named_ref_exn; eauto.
  - destruct ((n0 <? 2) && is_octdigit c); [discriminate|].
    apply emit_then_exn. discriminate.
  - destruct (is_digit c); [discriminate|].
    apply emit_then_exn. intros e'. apply group_ref_exn.
  - destruct ((d1 <? 8)%N && (d2 <? 8)%N && is_octdigit c).
    + destruct (255 <? d1 * 64 + d2 * 8 + digit_val c)%N;
        intro H; inversion H; reflexivity.
    + apply emit_then_exn. intros e'. apply group_ref_exn.
Qed.

Lemma tmpl_end_exn n st e : tmpl_end n st = Raise e -> exn_ok e = true.
Proof.
  destruct st; simpl; try discriminate;
    try (intro H; inversion H; reflexivity); apply group_ref_exn.
Qed.

Lemma parse_template_exn n st s e :
  parse_template_from n st s = Raise e -> exn_ok e = true.
Proof.
  revert st; induction s as [|c s IH]; intros st; simpl.
  - apply tmpl_end_exn.
  - destruct (tmpl_step n st c) as [[ts st']|e'] eqn:E; simpl.
    + destruct (parse_template_from n st' s) as [rest|e'] eqn:E'; simpl;
        intro H; inversion H; subst. eapply IH; eauto.
    + intro H; inversion H; subst. eapply tmpl_step_exn; eauto.
Qed.

Lemma repl_exn mt e : repl mt = Raise e -> exn_ok e = true.
Proof.
  unfold repl. destruct (re_search callout_comment_re (group_or_empty mt 1));
    [|discriminate].
  unfold re_sub_template, parse_template.
  match goal with |- context [parse_template_from ?n ?st ?s] =>
    destruct (parse_template_from n st s) eqn:E end; simpl.
  - discriminate.
  - intro H; inversion H; subst. eapply parse_template_exn; eauto.
Qed.

Lemma subst_pieces_exn_exn ps e :
  subst_pieces_exn repl ps = Raise e -> exn_ok e = true.
Proof.
  induction ps as [|[c|mt] ps IH]; simpl.
  - discriminate.
  - destruct (subst_pieces_exn repl ps); simpl; [discriminate|].
    intro H; inversion H; subst. apply IH. reflexivity.
  - destruct (repl mt) eqn:E; simpl.
    + destruct (subst_pieces_exn repl ps); simpl; [discriminate|].
      intro H; inversion H; subst. apply IH. reflexivity.
    + intro H; inversion H; subst. eapply repl_exn; eauto.
Qed.

Lemma transform_callouts_exn html e :
  transform_callouts html = Raise e -> exn_ok e = true.
Proof. apply subst_pieces_exn_exn. Qed.

(** Witness of [compute_out_path_spec]: [/a/b/x.md] under the base [/a]. *)
Lemma compute_out_path_witness :
  path_ok (Path_of_str (lit "/a/b/x.md")) = true /\
  name (_compute_out_path
          (MkTask [] (Path_of_str (lit "/out")) [] [] true
             (Some (Path_of_str (lit "/a"))))
          (Path_of_str (lit "/a/b/x.md"))) = lit "x.pdf".
Proof.
  split; [reflexivity|].
  exact (proj1 (proj2 (compute_out_path_spec
           (MkTask [] (Path_of_str (lit "/out")) [] [] true
              (Some (Path_of_str (lit "/a"))))
           (Path_of_str (lit "/a/b/x.md")) eq_refl))).
Defined.

(** C6 (failing input). For the single source [/a/b/x.md] the computed base
    is the file itself, which is no ancestor of the file's directory; an
    empty list gives none and the two sources of the specification's
    example give [/a]. *)
Theorem common_base_single_file :
  (forall resolve, _common_base resolve [] = None) /\
  _common_base (fun p => p)
    [Path_of_str (lit "/a/b/x.md"); Path_of_str (lit "/a/c/y.md")]
    = Some (Path_of_str (lit "/a")) /\
  _common_base (fun p => p) [Path_of_str (lit "/a/b/x.md")]
    = Some (Path_of_str (lit "/a/b/x.md")) /\
  is_relative_to (parent (Path_of_str (lit "/a/b/x.md")))
    (Path_of_str (lit "/a/b/x.md")) = false.
Proof. repeat split; reflexivity. Qed.

Section EngineProps.
Variable World : Type.
Variable read_file : World -> Path -> result str.
Variable markdown_convert : str -> result str.
Variable pdf_css_base : str -> str.
Variable pdf_css_theme_light : str.
Variable pdf_css_theme_dark : str.
Variable pygments_css : str.
Variable mkdir_p : World -> Path -> World * result unit.
Variable write_pdf : World -> str -> str -> str -> World * result unit.

Local Abbreviation run_ :=
    (run read_file markdown_convert pdf_css_base pdf_css_theme_light
       pdf_css_theme_dark pygments_css mkdir_p write_pdf).
Local Abbreviation run_loop_ :=
    (run_loop read_file markdown_convert pdf_css_base pdf_css_theme_light
       pdf_css_theme_dark pygments_css mkdir_p write_pdf).
Local Abbreviation run_step_ :=
    (run_step read_file markdown_convert pdf_css_base pdf_css_theme_light
       pdf_css_theme_dark pygments_css mkdir_p write_pdf).
Local Abbreviation steps_ :=
    (convert_and_render read_file markdown_convert pdf_css_base
       pdf_css_theme_light pdf_css_theme_dark pygments_css mkdir_p write_pdf).

  (** One turn of the loop: the steps of the document run in the announced
      state; whatever they do, an outcome is appended and nothing is
      raised. *)
Lemma run_step_eq (self : ConvertTask) (total i : nat) (md_path : Path)
    (results : list outcome) (st : state World) :
    run_step_ self total i md_path results st =
      let '(st1, r) := steps_ self md_path (announced total i md_path st) in
      (MkState (world st1) (trace st1 ++ [closing_message md_path r]),
       Ok (results ++ [outcome_of md_path r])).
  Proof.
    unfold run_step, convert_and_render, try_except, bind, emit, announced, ret.
    cbn [world trace]. rewrite <- app_assoc. cbn [app].
    destruct (convert_one _ _ _ _ _ _ _ _ _) as [st1 [[html out]|e]];
      [|reflexivity].
    cbn [fst snd].
    destruct (render_pdf mkdir_p write_pdf html (parent md_path) out st1)
      as [st2 [[]|e]]; reflexivity.
  Qed.

Lemma doc_event_read (p : Path) : doc_event p (ReadFile p) = true.
  Proof.
    unfold doc_event. destruct (list_eq_dec _ _ _) as [_|n]; [|now elim n].
    apply eqb_reflx.
  Qed.

  (** What the steps of a document leave in the trace: the read of that
      document first, then at most the calls that render it. *)
Lemma steps_trace (self : ConvertTask) (md_path : Path) (st : state World) :
    exists evs,
      trace (fst (steps_ self md_path st)) = trace st ++ ReadFile md_path :: evs /\
      forallb (doc_event md_path) evs = true.
  Proof.
    unfold convert_and_render, convert_one, load_text, build_markdown_html,
      render_pdf, lift, bind, emit, ret.
    cbn [world trace].
    destruct (read_file (world st) md_path) as [text|e];
      [|exists []; split; reflexivity].
    destruct (markdown_convert (preprocess_obsidian text)) as [body|e];
      [|exists []; split; reflexivity].
    destruct (wrap_html_document _ _ _ _ _ _ _ _) as [html|e];
      [|exists []; split; reflexivity].
    cbn [fst snd world trace].
    destruct (mkdir_p (world st) _) as [w1 [[]|e]]; cbn [fst snd world trace].
    - destruct (write_pdf w1 _ _ _) as [w2 [[]|e]]; cbn [fst snd world trace];
        eexists; rewrite <- !app_assoc; (split; [reflexivity|]);
        cbn [forallb doc_event app]; rewrite str_eqb_refl; reflexivity.
    - eexists; rewrite <- !app_assoc; split; reflexivity.
  Qed.

Lemma run_step_trace (self : ConvertTask) (total i : nat) (md_path : Path)
    (results : list outcome) (st : state World) :
    exists tl,
      trace (fst (run_step_ self total i md_path results st)) =
        trace st ++ Progress i total :: tl /\
      forallb (doc_event md_path) tl = true /\ In (ReadFile md_path) tl.
  Proof.
    rewrite run_step_eq.
    destruct (steps_trace self md_path (announced total i md_path st))
      as (evs & Htr & Hev).
    destruct (steps_ self md_path (announced total i md_path st)) as [st1 r].
    cbn [fst snd world trace] in *. rewrite Htr.
    exists (Message (lit "Конвертация: " ++ str_of_Path md_path)
              :: ReadFile md_path :: evs ++ [closing_message md_path r]).
    split; [|split].
    - unfold announced. cbn [trace]. rewrite <- !app_assoc. reflexivity.
    - cbn [forallb]. rewrite doc_event_read, forallb_app, Hev.
      destruct r; reflexivity.
    - right. left. reflexivity.
  Qed.

Lemma run_step_result (self : ConvertTask) (total i : nat) (md_path : Path)
    (results : list outcome) (st : state World) :
    snd (run_step_ self total i md_path results st) =
      Ok (results ++
            [outcome_of md_path
               (snd (steps_ self md_path (announced total i md_path st)))]).
  Proof.
    rewrite run_step_eq.
    destruct (steps_ self md_path (announced total i md_path st)). reflexivity.
  Qed.

Lemma run_loop_cons (self : ConvertTask) (total i : nat) (md_path : Path)
    (rest : list Path) (results : list outcome) (st : state World) :
    run_loop_ self total i (md_path :: rest) results st =
      run_loop_ self total (S i) rest
        (results ++
           [outcome_of md_path
              (snd (steps_ self md_path (announced total i md_path st)))])
        (fst (run_step_ self total i md_path results st)).
  Proof.
    cbn [run_loop]. unfold bind.
    pose proof (run_step_result self total i md_path results st) as H.
    destruct (run_step_ self total i md_path results st) as [st1 r].
    cbn [fst snd] in *. rewrite H. reflexivity.
  Qed.

Lemma run_loop_app (self : ConvertTask) (total : nat) (a b : list Path) :
    forall i results st,
      run_loop_ self total i (a ++ b) results st =
        match run_loop_ self total i a results st with
        | (st1, Ok r1) => run_loop_ self total (i + length a) b r1 st1
        | (st1, Raise e) => (st1, Raise e)
        end.
  Proof.
    induction a as [|p a IH]; intros i results st.
    - cbn. rewrite Nat.add_0_r. reflexivity.
    - cbn [app]. rewrite !run_loop_cons, IH. cbn [length].
      rewrite Nat.add_succ_r. reflexivity.
  Qed.

  (** The loop never raises; it appends one outcome per document, in
      order. *)
Lemma run_loop_ok (self : ConvertTask) (total : nat) (todo : list Path) :
    forall i results st,
      exists rs,
        snd (run_loop_ self total i todo results st) = Ok (results ++ rs) /\
        map o_src rs = map str_of_Path todo.
  Proof.
    induction todo as [|p todo IH]; intros i results st.
    - exists []. rewrite app_nil_r. split; reflexivity.
    - rewrite run_loop_cons.
      destruct (IH (S i)
                  (results ++ [outcome_of p
                     (snd (steps_ self p (announced total i p st)))])
                  (fst (run_step_ self total i p results st)))
        as (rs & Hrs & Hsrc).
      eexists (_ :: rs). rewrite Hrs, <- app_assoc. split; [reflexivity|].
      cbn [map]. rewrite Hsrc. f_equal.
      destruct (snd (steps_ self p (announced total i p st))); reflexivity.
  Qed.

Lemma run_loop_trace (self : ConvertTask) (total : nat) (todo : list Path) :
    forall i results st,
      exists blocks,
        trace (fst (run_loop_ self total i todo results st)) =
          trace st ++ concat blocks /\
        length blocks = length todo /\
        forall k md_path, nth_error todo k = Some md_path ->
          exists tl, nth_error blocks k = Some (Progress (i + k) total :: tl) /\
                     forallb (doc_event md_path) tl = true /\
                     In (ReadFile md_path) tl.
  Proof.
    induction todo as [|p todo IH]; intros i results st.
    - exists []. cbn. rewrite app_nil_r. repeat split.
      intros [|k] q H; discriminate.
    - rewrite run_loop_cons.
      destruct (run_step_trace self total i p results st) as (tl & Htr & Hev & Hin).
      destruct (IH (S i)
                  (results ++ [outcome_of p
                     (snd (steps_ self p (announced total i p st)))])
                  (fst (run_step_ self total i p results st)))
        as (blocks & Hb & Hlen & Hnth).
      exists ((Progress i total :: tl) :: blocks). split; [|split].
      + rewrite Hb, Htr. cbn [concat]. rewrite <- app_assoc. reflexivity.
      + cbn [length]. congruence.
      + intros [|k] q Hq; cbn [nth_error] in *.
        * inversion Hq; subst. exists tl. rewrite Nat.add_0_r. auto.
        * destruct (Hnth k q Hq) as (tl' & H1 & H2).
          exists tl'. rewrite Nat.add_succ_r. auto.
  Qed.

Lemma run_eq (self : ConvertTask) (st : state World) :
    exists results,
      snd (run_loop_ self (length (files self)) 1 (files self) [] st) = Ok results /\
      map o_src results = map str_of_Path (files self) /\
      run_ self st =
        (MkState
           (world (fst (run_loop_ self (length (files self)) 1 (files self) [] st)))
           (trace (fst (run_loop_ self (length (files self)) 1 (files self) [] st))
              ++ [Done results]),
         Ok results).
  Proof.
    destruct (run_loop_ok self (length (files self)) (files self) 1 [] st)
      as (rs & Hrs & Hsrc).
    exists rs. cbn [app] in Hrs. repeat split; auto.
    unfold run, bind, emit, ret.
    destruct (run_loop_ self (length (files self)) 1 (files self) [] st) as [st1 r].
    cbn [fst snd] in *. subst r. reflexivity.
  Qed.

  (** C8. The trace of a run is one block per document, in order, then
      the completion signal, once, with the full list of results: block
      [k] opens with the progress signal [(k+1, n)], and everything else in
      it, the read of document [k] included, belongs to that document. *)
Theorem run_signal_order (self : ConvertTask) (st : state World) :
    let n := length (files self) in
    exists blocks results,
      snd (run_ self st) = Ok results /\
      length results = n /\
      trace (fst (run_ self st)) = trace st ++ concat blocks ++ [Done results] /\
      length blocks = n /\
      forall k md_path, nth_error (files self) k = Some md_path ->
        exists tl, nth_error blocks k = Some (Progress (S k) n :: tl) /\
                   forallb (doc_event md_path) tl = true /\
                   In (ReadFile md_path) tl.
  Proof.
    intro n. destruct (run_eq self st) as (results & _ & Hsrc & Hrun).
    destruct (run_loop_trace self n (files self) 1 [] st)
      as (blocks & Htr & Hlen & Hnth).
    exists blocks, results. rewrite Hrun. cbn [fst snd trace].
    repeat split; auto.
    - rewrite <- (length_map o_src), Hsrc. apply length_map.
    - fold n. rewrite Htr, <- app_assoc. reflexivity.
  Qed.

Hypothesis read_file_exn :
    forall w p e, read_file w p = Raise e -> exn_ok e = true.
Hypothesis markdown_convert_exn :
    forall t e, markdown_convert t = Raise e -> exn_ok e = true.
Hypothesis mkdir_p_exn :
    forall w d w' e, mkdir_p w d = (w', Raise e) -> exn_ok e = true.
Hypothesis write_pdf_exn :
    forall w h b o w' e, write_pdf w h b o = (w', Raise e) -> exn_ok e = true.

Lemma steps_exn (self : ConvertTask) (md_path : Path) (st : state World) e :
    snd (steps_ self md_path st) = Raise e -> exn_ok e = true.
  Proof.
    unfold convert_and_render, convert_one, load_text, build_markdown_html,
      render_pdf, lift, bind, emit, ret.
    cbn [world trace].
    destruct (read_file (world st) md_path) as [text|e0] eqn:E1;
      [|cbn; intro H; inversion H; subst; eauto].
    destruct (markdown_convert (preprocess_obsidian text)) as [body|e0] eqn:E2;
      [|cbn; intro H; inversion H; subst; eauto].
    unfold wrap_html_document.
    destruct (transform_callouts body) as [b2|e0] eqn:E3; cbn [rbind];
      [|cbn; intro H; inversion H; subst; eapply transform_callouts_exn; eauto].
    cbn [fst snd world trace].
    destruct (mkdir_p (world st) _) as [w1 [[]|e0]] eqn:E4; cbn [fst snd world trace];
      [|intro H; inversion H; subst; eauto].
    destruct (write_pdf w1 _ _ _) as [w2 [[]|e0]] eqn:E5; cbn [fst snd world trace];
      intro H; inversion H; subst; eauto.
  Qed.

  (** C1. A run never raises and records exactly one outcome per
      document, in request order, before it emits the results. When the
      steps of a document raise, its outcome is a failure with an empty
      destination and a non-empty error text, and the loop goes on. *)
Theorem run_one_outcome_per_document (self : ConvertTask) (st : state World) :
    let n := length (files self) in
    exists results,
      snd (run_ self st) = Ok results /\
      map o_src results = map str_of_Path (files self) /\
      (exists t, trace (fst (run_ self st)) = t ++ [Done results]) /\
      forall done md_path rest, files self = done ++ md_path :: rest ->
        let st_i := fst (run_loop_ self n 1 done [] st) in
        let r := snd (steps_ self md_path
                        (announced n (S (length done)) md_path st_i)) in
        (forall output_pdf, r = Ok output_pdf ->
           nth_error results (length done) =
             Some (MkOutcome (str_of_Path md_path) (str_of_Path output_pdf) true [])) /\
        (forall e, r = Raise e ->
           nth_error results (length done) =
             Some (MkOutcome (str_of_Path md_path) [] false (error_text e)) /\
           error_text e <> []).
  Proof.
    intro n. destruct (run_eq self st) as (results & Hres & Hsrc & Hrun).
    exists results. rewrite Hrun.
    split; [reflexivity|]. split; [exact Hsrc|].
    split; [eexists; reflexivity|].
    intros done p rest Hfiles st_i r.
    assert (Hnth : nth_error results (length done) = Some (outcome_of p r)).
    { fold n in Hres. rewrite Hfiles, run_loop_app in Hres.
      destruct (run_loop_ok self n done 1 [] st) as (r1 & Hr1 & Hs1).
      cbn [app] in Hr1.
      destruct (run_loop_ self n 1 done [] st) as [st1 x] eqn:E.
      cbn [fst snd] in *. subst x. subst st_i. cbn [fst] in r.
      rewrite run_loop_cons in Hres.
      destruct (run_loop_ok self n rest (S (1 + length done))
                  (r1 ++ [outcome_of p
                     (snd (steps_ self p (announced n (1 + length done) p st1)))])
                  (fst (run_step_ self n (1 + length done) p r1 st1)))
        as (r2 & Hr2 & _).
      rewrite Hr2 in Hres. injection Hres as Hres. rewrite <- Hres.
      assert (Hl : length done = length r1).
      { rewrite <- (length_map str_of_Path), <- Hs1. apply length_map. }
      subst r. rewrite Hl, <- app_assoc, nth_error_app2, Nat.sub_diag by lia.
      reflexivity. }
    split.
    - intros out Hr. rewrite Hnth, Hr. reflexivity.
    - intros e Hr. rewrite Hnth, Hr. split; [reflexivity|].
      apply error_text_nonempty. eapply steps_exn. exact Hr.
  Qed.
End EngineProps.

Lemma stub_read_exn : forall w p e, stub_read w p = Raise e -> exn_ok e = true.
Proof.
  intros w p e. unfold stub_read. destruct (str_eqb _ _); intro H; inversion H.
  reflexivity.
Qed.

Lemma stub_markdown_exn : forall t e, stub_markdown t = Raise e -> exn_ok e = true.
Proof. discriminate. Qed.

Lemma stub_mkdir_exn :
  forall w d w' e, stub_mkdir w d = (w', Raise e) -> exn_ok e = true.
Proof. discriminate. Qed.

Lemma stub_write_exn :
  forall w h b o w' e, stub_write w h b o = (w', Raise e) -> exn_ok e = true.
Proof. discriminate. Qed.

(** Witness of [run_one_outcome_per_document]: three documents, the second
    of which cannot be read. *)
Lemma run_one_outcome_witness :
  exists results,
    snd (run stub_read stub_markdown stub_css [] [] [] stub_mkdir stub_write
           (MkTask [Path_of_str (lit "/n/a.md"); Path_of_str (lit "/n/missing.md");
                    Path_of_str (lit "/n/c.md")]
              (Path_of_str (lit "/out")) (lit "Light") (lit "Arial") false None)
           (MkState tt [])) = Ok results /\
    nth_error results 1 =
      Some (MkOutcome (lit "/n/missing.md") [] false
              (lit "FileNotFoundError: [Errno 2] No such file or directory")).
Proof.
  destruct (@run_one_outcome_per_document unit stub_read stub_markdown stub_css
              [] [] [] stub_mkdir stub_write stub_read_exn
              stub_markdown_exn stub_mkdir_exn stub_write_exn
              (MkTask [Path_of_str (lit "/n/a.md"); Path_of_str (lit "/n/missing.md");
                       Path_of_str (lit "/n/c.md")]
                 (Path_of_str (lit "/out")) (lit "Light") (lit "Arial") false None)
              (MkState tt []))
    as (results & H1 & _ & _ & H4).
  exists results. split; [exact H1|].
  destruct (H4 [Path_of_str (lit "/n/a.md")] (Path_of_str (lit "/n/missing.md"))
              [Path_of_str (lit "/n/c.md")] eq_refl) as [_ Hfail].
  exact (proj1 (Hfail _ eq_refl)).
Defined.

(** ** The matcher *)

Lemma takewhile_dropwhile (p : char -> bool) (s : str) :
  takewhile p s ++ dropwhile p s = s.
Proof.
  induction s as [|x s IH]; simpl; [reflexivity|].
  destruct (p x); simpl; [rewrite IH|]; reflexivity.
Qed.

Lemma last_char_cons (prev : option char) (x : char) (t : str) :
  last_char prev (x :: t) = last_char (Some x) t.
Proof. reflexivity. Qed.

Lemma last_char_app (prev : option char) (a b : str) :
  last_char prev (a ++ b) = last_char (last_char prev a) b.
Proof. unfold last_char. apply fold_left_app. Qed.

Section MatcherFacts.
Variable R : Type.
  Implicit Types (k : kont R) (p : char -> bool).

  (** A greedy repetition whose continuation cannot start with a character
      of the class commits to the longest run. *)
Lemma m_star_commit p : forall s prev cs k,
    (forall t pv c s' cs', p c = true -> k t pv (c :: s') cs' = None) ->
    m_star p prev s cs k =
      k (takewhile p s) (last_char prev (takewhile p s)) (dropwhile p s) cs.
  Proof.
    induction s as [|x s IH]; intros prev cs k Hk; simpl; [reflexivity|].
    destruct (p x) eqn:Hx; [|reflexivity].
    rewrite IH by (intros; apply Hk; assumption).
    rewrite last_char_cons.
    destruct (k (x :: takewhile p s) _ _ _); [reflexivity|].
    apply Hk, Hx.
  Qed.

  (** A greedy repetition stops at the longest run when the continuation
      accepts there. *)
Lemma m_star_first p : forall s prev cs k r,
    k (takewhile p s) (last_char prev (takewhile p s)) (dropwhile p s) cs = Some r ->
    m_star p prev s cs k = Some r.
  Proof.
    induction s as [|x s IH]; intros prev cs k r H; simpl in *; [exact H|].
    destruct (p x) eqn:Hx; [|exact H].
    rewrite (IH (Some x) cs (fun t => k (x :: t)) r H). reflexivity.
  Qed.

Lemma m_lit_app (l : str) : forall prev s cs k,
    m_lit l prev (l ++ s) cs k = k l (last_char prev l) s cs.
  Proof.
    induction l as [|c l IH]; intros prev s cs k; simpl; [reflexivity|].
    rewrite N.eqb_refl || (unfold char_eqb; rewrite N.eqb_refl). apply IH.
  Qed.

Lemma m_lit_fail (l : str) : forall prev s cs k,
    startswith l s = false -> m_lit l prev s cs k = None.
  Proof.
    induction l as [|c l IH]; intros prev s cs k H; simpl in *; [discriminate|].
    destruct s as [|x s]; [reflexivity|].
    unfold char_eqb in *. rewrite (N.eqb_sym x c).
    destruct (c =? x)%N; [apply IH, H | reflexivity].
  Qed.
End MatcherFacts.

Lemma startswith_split (l s : str) :
  startswith l s = true -> s = l ++ skipn (length l) s.
Proof.
  revert s; induction l as [|c l IH]; intros [|x s] H; simpl in *;
    try reflexivity; try discriminate.
  apply andb_true_iff in H as [H1 H2]. apply N.eqb_eq in H1. subst.
  f_equal. apply IH, H2.
Qed.

Lemma startswith_app (l s : str) : startswith l (l ++ s) = true.
Proof.
  induction l as [|c l IH]; simpl; [reflexivity|].
  unfold char_eqb. rewrite N.eqb_refl. exact IH.
Qed.

(** ** Character classes *)

Lemma is_blank_cases (c : char) : is_blank c = true -> c = SP \/ c = TAB.
Proof.
  unfold is_blank, char_eqb. intro H. apply orb_true_iff in H as [H|H];
    apply N.eqb_eq in H; auto.
Qed.

Lemma is_blank_isspace (c : char) : is_blank c = true -> isspace c = true.
Proof. intro H. destruct (is_blank_cases c H); subst; reflexivity. Qed.

Lemma is_blank_not_newline (c : char) : is_blank c = true -> not_newline c = true.
Proof. intro H. destruct (is_blank_cases c H); subst; reflexivity. Qed.

Lemma is_blank_neq (c d : char) :
  is_blank c = true -> is_blank d = false -> char_eqb c d = false.
Proof.
  intros Hc Hd. apply N.eqb_neq. intro E. subst. congruence.
Qed.

Lemma is_letter_range (c : char) :
  is_letter c = true -> (65 <= c <= 90 \/ 97 <= c <= 122)%N.
Proof.
  unfold is_letter, is_ascii_letter, is_upper_ascii, is_lower_ascii. intro H.
  apply orb_true_iff in H as [H|H]; apply andb_true_iff in H as [H1 H2];
    apply N.leb_le in H1, H2; lia.
Qed.

Lemma is_letter_neq (c d : char) :
  is_letter c = true -> is_letter d = false -> char_eqb c d = false.
Proof.
  intros Hc Hd. apply N.eqb_neq. intro E. subst. congruence.
Qed.

Lemma is_letter_not_newline (c : char) : is_letter c = true -> not_newline c = true.
Proof.
  intro H. apply is_letter_range in H. unfold not_newline, char_eqb, LF.
  apply negb_true_iff, N.eqb_neq. lia.
Qed.

Lemma takewhile_app_all (p : char -> bool) (a b : str) :
  forallb p a = true -> takewhile p (a ++ b) = a ++ takewhile p b.
Proof.
  induction a as [|x a IH]; simpl; intro H; [reflexivity|].
  apply andb_true_iff in H as [H1 H2]. rewrite H1, (IH H2). reflexivity.
Qed.

Lemma dropwhile_app_all (p : char -> bool) (a b : str) :
  forallb p a = true -> dropwhile p (a ++ b) = dropwhile p b.
Proof.
  induction a as [|x a IH]; simpl; intro H; [reflexivity|].
  apply andb_true_iff in H as [H1 H2]. rewrite H1. apply IH, H2.
Qed.

Lemma takewhile_all (p : char -> bool) (s : str) : forallb p (takewhile p s) = true.
Proof.
  induction s as [|x s IH]; simpl; [reflexivity|].
  destruct (p x) eqn:E; simpl; [rewrite E|]; auto.
Qed.

Lemma forallb_weaken (p q : char -> bool) (s : str) :
  (forall c, p c = true -> q c = true) -> forallb p s = true -> forallb q s = true.
Proof.
  intros Hpq. induction s as [|x s IH]; simpl; [reflexivity|]. intro H.
  apply andb_true_iff in H as [H1 H2]. rewrite (Hpq _ H1), (IH H2). reflexivity.
Qed.

Lemma dropwhile_head (p : char -> bool) (s : str) (c : char) (r : str) :
  dropwhile p s = c :: r -> p c = false.
Proof.
  induction s as [|x s IH]; simpl; [discriminate|].
  destruct (p x) eqn:E; [exact IH|]. intro H. inversion H; subst. exact E.
Qed.

Lemma at_eol_dropwhile (s : str) : at_eol true (dropwhile not_newline s) = true.
Proof.
  destruct (dropwhile not_newline s) as [|c r] eqn:E; [reflexivity|].
  apply dropwhile_head in E. unfold not_newline in E.
  apply negb_false_iff in E. simpl. rewrite E. reflexivity.
Qed.

(** ** The header pattern *)

(** At the start of a line the header pattern does what [header_of] says
    and covers the whole line; elsewhere it fails. *)
Lemma header_match (prev : option char) (s : str) :
  match_here callout_header_re prev s =
    if at_bol true prev then
      match header_of s with
      | Some (kind, title) =>
          Some (takewhile not_newline s, [(g_title, title); (g_type, kind)])
      | None => None
      end
    else None.
Proof.
  unfold match_here, callout_header_re, seq. cbn [m].
  destruct (at_bol true prev); [|reflexivity].
  change (lit "[!") with [91%N; 33%N].
  rewrite m_star_commit
    by (intros; unfold m_cls; rewrite is_blank_neq by (assumption || reflexivity);
        reflexivity).
  unfold header_of.
  destruct (dropwhile is_blank s) as [|c1 l1] eqn:E0; [reflexivity|].
  unfold m_cls at 1. destruct (char_eqb c1 GT) eqn:E1; [|reflexivity].
  apply N.eqb_eq in E1. subst c1.
  rewrite m_star_commit
    by (intros ? ? c ? ? Hc; cbn [m_lit]; rewrite is_blank_neq by (assumption || reflexivity);
        reflexivity).
  destruct (dropwhile is_blank l1) as [|c2 l2] eqn:E2; [reflexivity|].
  cbn [m_lit]. destruct (char_eqb c2 91%N) eqn:E3; [|destruct l2; reflexivity].
  destruct l2 as [|c3 l2]; [reflexivity|].
  destruct (char_eqb c3 33%N) eqn:E4; [|reflexivity].
  apply N.eqb_eq in E3, E4. subst c2 c3. cbn [andb].
  destruct l2 as [|c l2]; [reflexivity|]. cbn [takewhile dropwhile].
  unfold m_cls at 1. destruct (is_letter c) eqn:E5; [|reflexivity].
  rewrite m_star_commit
    by (intros ? ? c' ? ? Hc; unfold m_cls; rewrite is_letter_neq by (assumption || reflexivity);
        reflexivity).
  destruct (dropwhile is_letter l2) as [|c4 l3] eqn:E6; [reflexivity|].
  unfold m_cls at 1. destruct (char_eqb c4 93%N) eqn:E7; [|reflexivity].
  apply N.eqb_eq in E7. subst c4.
  apply m_star_first.
  erewrite m_star_first by (rewrite at_eol_dropwhile; reflexivity).
  do 2 f_equal.
  pose proof (takewhile_dropwhile is_blank s) as H0. rewrite E0 in H0.
  pose proof (takewhile_dropwhile is_blank l1) as H1. rewrite E2 in H1.
  pose proof (takewhile_dropwhile is_letter l2) as H2. rewrite E6 in H2.
  pose proof (takewhile_dropwhile is_blank l3) as H3.
  pose proof (forallb_weaken _ _ _ is_blank_not_newline (takewhile_all is_blank s)) as A0.
  pose proof (forallb_weaken _ _ _ is_blank_not_newline (takewhile_all is_blank l1)) as A1.
  pose proof (forallb_weaken _ _ _ is_letter_not_newline (takewhile_all is_letter l2)) as A2.
  pose proof (forallb_weaken _ _ _ is_blank_not_newline (takewhile_all is_blank l3)) as A3.
  apply is_letter_not_newline in E5.
  revert H0 H1 H2 H3 A0 A1 A2 A3.
  generalize (takewhile is_blank s) as ind, (takewhile is_blank l1) as gap,
    (takewhile is_letter l2) as kind, (takewhile is_blank l3) as gap2,
    (dropwhile is_blank l3) as tl.
  intros. subst s l1 l2 l3.
  rewrite (takewhile_app_all _ _ _ A0). cbn [takewhile app].
  change (not_newline GT) with true. cbv iota.
  rewrite (takewhile_app_all _ _ _ A1). cbn [takewhile].
  change (not_newline 91%N) with true. change (not_newline 33%N) with true.
  rewrite E5. cbv iota.
  rewrite (takewhile_app_all _ _ _ A2). cbn [takewhile].
  change (not_newline 93%N) with true. cbv iota.
  rewrite (takewhile_app_all _ _ _ A3).
  rewrite app_nil_r. reflexivity.
Qed.

(** ** Scanning *)

Lemma scan_skip (r : regex) (b : option nat) (t : str) :
  forall s pos prev,
    scan r b (length t) pos prev (t ++ s) =
      scan r b 0 (pos + length t) (last_char prev t) s.
Proof.
  induction t as [|c t IH]; intros s pos prev; cbn [length app].
  - rewrite Nat.add_0_r. reflexivity.
  - cbn [scan]. rewrite IH, Nat.add_succ_r. reflexivity.
Qed.

(** The position recorded in a match does not matter to a replacement
    that only reads the text and the groups. *)
Lemma subst_scan_pos (r : regex) (f : rmatch -> str) :
  ignores_start f ->
  forall s b k pos pos' prev,
    subst_pieces f (scan r b k pos prev s) = subst_pieces f (scan r b k pos' prev s).
Proof.
  intros Hf. induction s as [|c s IH]; intros b k pos pos' prev.
  - destruct k; cbn [scan]; [|reflexivity].
    destruct (budget_open b); [|reflexivity].
    destruct (match_here r prev []) as [[t cs]|]; [|reflexivity].
    cbn [subst_pieces]. rewrite (Hf pos pos'). reflexivity.
  - destruct k; cbn [scan]; [|apply IH].
    destruct (budget_open b); [|reflexivity].
    destruct (match_here r prev (c :: s)) as [[t cs]|].
    + cbn [subst_pieces]. rewrite (Hf pos pos'). f_equal.
      destruct t; cbn [subst_pieces]; [f_equal|]; apply IH.
    + cbn [subst_pieces]. f_equal. apply IH.
Qed.

Lemma takewhile_stop (p : char -> bool) (l : str) (c : char) (r : str) :
  p c = false -> takewhile p (l ++ c :: r) = takewhile p l.
Proof.
  intro H. induction l as [|x l IH]; simpl; [rewrite H; reflexivity|].
  destruct (p x); [rewrite IH|]; reflexivity.
Qed.

Lemma dropwhile_stop (p : char -> bool) (l : str) (c : char) (r : str) :
  p c = false -> dropwhile p (l ++ c :: r) = dropwhile p l ++ c :: r.
Proof.
  intro H. induction l as [|x l IH]; simpl; [rewrite H; reflexivity|].
  destruct (p x); [exact IH | reflexivity].
Qed.

Lemma not_newline_false (c : char) : not_newline c = false -> c = LF.
Proof. unfold not_newline. intro H. apply negb_false_iff, N.eqb_eq in H. exact H. Qed.

(** What follows the end of a line has no part in the reading of a header. *)
Lemma header_of_line_end (l r : str) : header_of (l ++ LF :: r) = header_of l.
Proof.
  unfold header_of.
  rewrite dropwhile_stop by reflexivity.
  destruct (dropwhile is_blank l) as [|c1 l1]; [reflexivity|].
  cbn [app]. destruct (char_eqb c1 GT); [|reflexivity].
  rewrite dropwhile_stop by reflexivity.
  destruct (dropwhile is_blank l1) as [|c2 [|c3 l2]]; cbn [app].
  - destruct r; reflexivity.
  - change (char_eqb LF 33%N) with false. rewrite andb_false_r. reflexivity.
  - destruct (char_eqb c2 91%N && char_eqb c3 33%N); [|reflexivity].
    rewrite takewhile_stop, dropwhile_stop by reflexivity.
    destruct (takewhile is_letter l2) as [|k0 k]; [reflexivity|].
    destruct (dropwhile is_letter l2) as [|c4 l3]; cbn [app]; [reflexivity|].
    destruct (char_eqb c4 93%N); [|reflexivity].
    rewrite dropwhile_stop, takewhile_stop by reflexivity. reflexivity.
Qed.

Lemma header_of_takewhile (s : str) :
  header_of (takewhile not_newline s) = header_of s.
Proof.
  rewrite <- (takewhile_dropwhile not_newline s) at 2.
  destruct (dropwhile not_newline s) as [|c r] eqn:E.
  - rewrite app_nil_r. reflexivity.
  - apply dropwhile_head, not_newline_false in E. subst c.
    rewrite header_of_line_end. reflexivity.
Qed.

Lemma split_line (s : str) :
  split LF s =
    match dropwhile not_newline s with
    | [] => [takewhile not_newline s]
    | _ :: r => takewhile not_newline s :: split LF r
    end.
Proof.
  induction s as [|x s IH]; simpl; [reflexivity|].
  assert (Hn : not_newline x = negb (char_eqb x LF)) by reflexivity.
  rewrite !Hn. destruct (char_eqb x LF); simpl; [reflexivity|].
  rewrite IH. destruct (dropwhile not_newline s); reflexivity.
Qed.

Lemma split_nonempty (c : char) (s : str) : split c s <> [].
Proof.
  destruct s as [|x s]; simpl; [discriminate|].
  destruct (char_eqb x c); [discriminate|]. destruct (split c s); discriminate.
Qed.

Lemma join_cons (sep l : str) (ls : list str) :
  ls <> [] -> join sep (l :: ls) = l ++ sep ++ join sep ls.
Proof. destruct ls; [congruence | reflexivity]. Qed.

Lemma dropwhile_length (p : char -> bool) (s : str) :
  length (dropwhile p s) <= length s.
Proof.
  induction s as [|x s IH]; simpl; [lia|]. destruct (p x); simpl; lia.
Qed.

Lemma repl_callout_ignores_start : ignores_start repl_callout.
Proof. intros pos pos' t cs. reflexivity. Qed.

Section HeaderScan.
Local Abbreviation resume prev s :=
    (subst_pieces repl_callout (scan callout_header_re None 0 0 prev s)).

Lemma resume_pos (pos : nat) (prev : option char) (s : str) :
    subst_pieces repl_callout (scan callout_header_re None 0 pos prev s)
      = resume prev s.
  Proof. apply subst_scan_pos, repl_callout_ignores_start. Qed.

  (** Inside a line nothing matches: the rest of the line is kept. *)
Lemma resume_midline : forall s prev,
    at_bol true prev = false ->
    resume prev s =
      takewhile not_newline s ++
      match dropwhile not_newline s with
      | [] => []
      | d :: r => d :: resume (Some d) r
      end.
  Proof.
    induction s as [|c s IH]; intros prev Hp; cbn [scan budget_open].
    - rewrite header_match, Hp. reflexivity.
    - rewrite header_match, Hp. cbn [subst_pieces]. rewrite resume_pos.
      cbn [takewhile dropwhile]. destruct (not_newline c) eqn:Hc.
      + cbn [app]. f_equal. apply IH. simpl. unfold not_newline in Hc.
        apply negb_true_iff in Hc. exact Hc.
      + reflexivity.
  Qed.

Lemma last_char_midline : forall t c,
    not_newline c = true -> forallb not_newline t = true ->
    at_bol true (last_char (Some c) t) = false.
  Proof.
    induction t as [|x t IH]; intros c Hc Ht.
    - simpl. unfold not_newline in Hc. apply negb_true_iff in Hc. exact Hc.
    - cbn [forallb] in Ht. apply andb_true_iff in Ht as [Hx Ht].
      rewrite last_char_cons. apply IH; assumption.
  Qed.

Lemma dropwhile_idem (p : char -> bool) (s : str) :
    dropwhile p (dropwhile p s) = dropwhile p s.
  Proof.
    induction s as [|x s IH]; simpl; [reflexivity|].
    destruct (p x) eqn:E; [exact IH|]. simpl. rewrite E. reflexivity.
  Qed.

Lemma takewhile_dropwhile_nil (p : char -> bool) (s : str) :
    takewhile p (dropwhile p s) = [].
  Proof.
    induction s as [|x s IH]; simpl; [reflexivity|].
    destruct (p x) eqn:E; [exact IH|]. simpl. rewrite E. reflexivity.
  Qed.

Lemma header_of_first (c : char) (s : str) (h : str * str) :
    header_of (c :: s) = Some h -> not_newline c = true.
  Proof.
    destruct (not_newline c) eqn:E; [reflexivity|].
    apply not_newline_false in E. subst c. discriminate.
  Qed.

Lemma scan_skip_takewhile (r : regex) (b : option nat) (p : char -> bool)
    (s : str) (pos : nat) (prev : option char) :
    scan r b (length (takewhile p s)) pos prev s =
      scan r b 0 (pos + length (takewhile p s)) (last_char prev (takewhile p s))
        (dropwhile p s).
  Proof.
    pose proof (scan_skip r b (takewhile p s) (dropwhile p s) pos prev) as H.
    rewrite takewhile_dropwhile in H. exact H.
  Qed.

  (** At the start of a line the line is rewritten as a whole. *)
Lemma resume_line (s : str) (prev : option char) :
    at_bol true prev = true ->
    resume prev s =
      rewrite_line (takewhile not_newline s) ++
      match dropwhile not_newline s with
      | [] => []
      | d :: r => d :: resume (Some d) r
      end.
  Proof.
    intro Hp. unfold rewrite_line. rewrite header_of_takewhile.
    destruct s as [|c s]; cbn [scan budget_open]; rewrite header_match, Hp.
    - reflexivity.
    - destruct (header_of (c :: s)) as [[kind title]|] eqn:Hh.
      + pose proof (header_of_first _ _ Hh) as Hc.
        cbn [takewhile dropwhile]. rewrite Hc.
        cbn [subst_pieces budget_pred option_map].
        change (repl_callout _) with (marker_line (lower kind) (strip title)).
        f_equal.
        rewrite scan_skip_takewhile, resume_pos, resume_midline
          by (apply last_char_midline; [exact Hc | apply takewhile_all]).
        rewrite takewhile_dropwhile_nil, dropwhile_idem. reflexivity.
      + cbn [subst_pieces]. rewrite resume_pos.
        cbn [takewhile dropwhile]. destruct (not_newline c) eqn:Hc.
        * cbn [app]. f_equal. apply resume_midline. simpl.
          unfold not_newline in Hc. apply negb_true_iff in Hc. exact Hc.
        * reflexivity.
  Qed.

  (** The substitution works line by line. *)
Lemma resume_lines : forall n s prev,
    length s <= n -> at_bol true prev = true ->
    resume prev s = join [LF] (map rewrite_line (split LF s)).
  Proof.
    induction n as [|n IH]; intros s prev Hn Hp;
      rewrite resume_line, split_line by exact Hp.
    - destruct s; [|simpl in Hn; lia]. reflexivity.
    - pose proof (takewhile_dropwhile not_newline s) as Hs.
      destruct (dropwhile not_newline s) as [|d r] eqn:E.
      + cbn [map join]. apply app_nil_r.
      + pose proof E as Hd. apply dropwhile_head, not_newline_false in Hd. subst d.
        cbn [map]. rewrite join_cons
          by (intro H; apply map_eq_nil in H; revert H; apply split_nonempty).
        cbn [app]. do 2 f_equal. apply IH; [|reflexivity].
        apply (f_equal (@length char)) in Hs. rewrite length_app in Hs.
        cbn [length] in Hs. lia.
  Qed.
End HeaderScan.

Lemma re_sub_header_lines (s : str) :
  re_sub callout_header_re repl_callout s 0 =
    join [LF] (map rewrite_line (split LF s)).
Proof. apply (resume_lines (n := length s)); [lia | reflexivity]. Qed.


(** ** Line endings *)

Lemma replace_crlf_hit (s : str) :
  replace_go [CR; LF] [LF] 0 (CR :: LF :: s) = LF :: replace_go [CR; LF] [LF] 0 s.
Proof. reflexivity. Qed.

Lemma replace_crlf_miss (c : char) (s : str) :
  startswith [CR; LF] (c :: s) = false ->
  replace_go [CR; LF] [LF] 0 (c :: s) = c :: replace_go [CR; LF] [LF] 0 s.
Proof. intro H. cbn [replace_go]. rewrite H. reflexivity. Qed.

Lemma replace_cr_step (c : char) (s : str) :
  replace_go [CR] [LF] 0 (c :: s) =
    (if char_eqb c CR then LF else c) :: replace_go [CR] [LF] 0 s.
Proof.
  cbn [replace_go startswith]. unfold char_eqb. rewrite (N.eqb_sym CR c).
  destruct (c =? CR)%N; reflexivity.
Qed.

Lemma replace_newlines : forall n s,
  length s <= n ->
  replace [CR] [LF] (replace [CR; LF] [LF] s) = normalize_newlines s.
Proof.
  unfold replace.
  induction n as [|n IH]; intros [|c s] Hn; try reflexivity;
    cbn [length] in Hn; [lia|].
  cbn [normalize_newlines].
  destruct (char_eqb c CR) eqn:Ec.
  - apply N.eqb_eq in Ec. subst c.
    destruct s as [|d s]; [reflexivity|].
    destruct (char_eqb d LF) eqn:Ed.
    + apply N.eqb_eq in Ed. subst d.
      rewrite replace_crlf_hit, replace_cr_step.
      change (char_eqb LF CR) with false. cbv iota.
      f_equal. apply IH. cbn [length] in Hn. lia.
    + rewrite replace_crlf_miss, replace_cr_step.
      * change (char_eqb CR CR) with true. cbv iota. f_equal. apply IH. lia.
      * cbn [startswith]. unfold char_eqb in *. rewrite (N.eqb_sym LF d), Ed.
        apply andb_false_r.
  - rewrite replace_crlf_miss, replace_cr_step, Ec.
    + f_equal. apply IH. lia.
    + cbn [startswith]. unfold char_eqb in *. rewrite (N.eqb_sym CR c), Ec.
      reflexivity.
Qed.

Lemma normalize_no_cr (s : str) : forallb (fun c => negb (char_eqb c CR)) (normalize_newlines s) = true.
Proof.
  assert (H : forall n s, length s <= n ->
            forallb (fun c => negb (char_eqb c CR)) (normalize_newlines s) = true).
  { induction n as [|n IH]; intros [|c t] Hn; try reflexivity;
      cbn [length] in Hn; [lia|].
    cbn [normalize_newlines]. destruct (char_eqb c CR) eqn:Ec.
    - cbn [forallb]. change (negb (char_eqb LF CR)) with true. cbn [andb].
      destruct t as [|d t]; [reflexivity|].
      destruct (char_eqb d LF); apply IH; cbn [length] in *; lia.
    - cbn [forallb]. rewrite Ec. cbn [negb andb]. apply IH. lia. }
  apply (H (length s)). lia.
Qed.

(** ** Header lines *)

Lemma lstrip_blanks (g t : str) :
  forallb is_blank g = true -> lstrip (g ++ t) = lstrip t.
Proof.
  intro H. unfold lstrip. apply dropwhile_app_all.
  apply forallb_weaken with (1 := is_blank_isspace), H.
Qed.

Lemma dropwhile_weaker (p q : char -> bool) (s : str) :
  (forall c, p c = true -> q c = true) ->
  dropwhile q (dropwhile p s) = dropwhile q s.
Proof.
  intro Hpq. induction s as [|x s IH]; simpl; [reflexivity|].
  destruct (p x) eqn:E; [rewrite (Hpq _ E); exact IH | reflexivity].
Qed.

Lemma strip_dropwhile_blank (t : str) : strip (dropwhile is_blank t) = strip t.
Proof.
  unfold strip, lstrip. rewrite (dropwhile_weaker _ _ _ is_blank_isspace). reflexivity.
Qed.

Lemma takewhile_id (p : char -> bool) (s : str) :
  forallb p s = true -> takewhile p s = s.
Proof.
  induction s as [|x s IH]; simpl; [reflexivity|]. intro H.
  apply andb_true_iff in H as [H1 H2]. rewrite H1, (IH H2). reflexivity.
Qed.

Lemma forallb_dropwhile (p q : char -> bool) (s : str) :
  forallb p s = true -> forallb p (dropwhile q s) = true.
Proof.
  induction s as [|x s IH]; simpl; [reflexivity|]. intro H.
  apply andb_true_iff in H as [H1 H2].
  destruct (q x); [apply IH, H2 | simpl; rewrite H1, H2; reflexivity].
Qed.

(** A line of the header shape is read as a header. *)
Lemma header_of_shape (indent gap1 kind gap2 title : str) :
  forallb is_blank indent = true -> forallb is_blank gap1 = true ->
  forallb is_letter kind = true -> kind <> [] ->
  forallb is_blank gap2 = true -> forallb not_newline title = true ->
  header_of (indent ++ [GT] ++ gap1 ++ lit "[!" ++ kind ++ lit "]" ++ gap2 ++ title)
    = Some (kind, dropwhile is_blank title).
Proof.
  intros Hi Hg1 Hk Hne Hg2 Ht. unfold header_of.
  change (lit "[!") with [91%N; 33%N]. change (lit "]") with [93%N].
  rewrite (dropwhile_app_all _ _ _ Hi). cbn [app dropwhile].
  change (is_blank GT) with false. cbv iota.
  change (char_eqb GT GT) with true. cbv iota.
  rewrite (dropwhile_app_all _ _ _ Hg1). cbn [dropwhile].
  change (is_blank 91%N) with false. cbv iota.
  change (char_eqb 91%N 91%N && char_eqb 33%N 33%N) with true. cbv iota.
  rewrite (takewhile_app_all _ _ _ Hk), (dropwhile_app_all _ _ _ Hk).
  cbn [takewhile dropwhile]. change (is_letter 93%N) with false. cbv iota.
  rewrite app_nil_r. destruct kind as [|k0 kind]; [congruence|].
  change (char_eqb 93%N 93%N) with true. cbv iota.
  rewrite (dropwhile_app_all _ _ _ Hg2).
  rewrite takewhile_id by (apply forallb_dropwhile, Ht). reflexivity.
Qed.

(** Conversely, what is read as a header has the header shape. *)
Lemma header_of_inv (l kind title : str) :
  header_of l = Some (kind, title) ->
  exists indent gap1 gap2 rest,
    l = indent ++ [GT] ++ gap1 ++ lit "[!" ++ kind ++ lit "]" ++ gap2 ++ rest /\
    forallb is_blank indent = true /\ forallb is_blank gap1 = true /\
    forallb is_letter kind = true /\ kind <> [] /\
    forallb is_blank gap2 = true /\ title = takewhile not_newline rest.
Proof.
  unfold header_of. intro H.
  change (lit "[!") with [91%N; 33%N]. change (lit "]") with [93%N].
  pose proof (takewhile_dropwhile is_blank l) as H0.
  destruct (dropwhile is_blank l) as [|c1 l1]; [discriminate|].
  destruct (char_eqb c1 GT) eqn:E1; [|discriminate]. apply N.eqb_eq in E1. subst c1.
  pose proof (takewhile_dropwhile is_blank l1) as H1.
  destruct (dropwhile is_blank l1) as [|c2 [|c3 l2]]; try discriminate.
  destruct (char_eqb c2 91%N) eqn:E2; [|discriminate].
  destruct (char_eqb c3 33%N) eqn:E3; [|discriminate].
  apply N.eqb_eq in E2, E3. subst c2 c3. cbn [andb] in H.
  pose proof (takewhile_dropwhile is_letter l2) as H2.
  pose proof (takewhile_all is_letter l2) as Hk.
  destruct (takewhile is_letter l2) as [|k0 k] eqn:Ek; [discriminate|].
  destruct (dropwhile is_letter l2) as [|c4 l3]; [discriminate|].
  destruct (char_eqb c4 93%N) eqn:E4; [|discriminate]. apply N.eqb_eq in E4. subst c4.
  inversion H; subst kind title.
  exists (takewhile is_blank l), (takewhile is_blank l1), (takewhile is_blank l3),
    (dropwhile is_blank l3).
  repeat split; try apply takewhile_all; try exact Hk; try discriminate.
  symmetry. etransitivity; [|exact H0]. cbn [app]. do 2 f_equal.
  etransitivity; [|exact H1]. do 3 f_equal.
  etransitivity; [|exact H2]. cbn [app]. do 3 f_equal.
  apply takewhile_dropwhile.
Qed.

Lemma forallb_app_r (p : char -> bool) (a b : str) :
  forallb p (a ++ b) = true -> forallb p b = true.
Proof. rewrite forallb_app. intro H. apply andb_true_iff in H. tauto. Qed.

(** The preprocessor normalises the line endings and rewrites line by
    line. *)
Lemma preprocess_lines (text : str) :
  preprocess_obsidian text =
    join [LF] (map rewrite_line (split LF (normalize_newlines text))).
Proof.
  unfold preprocess_obsidian.
  rewrite (replace_newlines (n := length text)) by lia.
  apply re_sub_header_lines.
Qed.

(** C4. The preprocessor normalises the line endings, leaving no carriage
    return, then works line by line: a line of the header shape becomes the
    marker line with the lowercased kind and, when it is not empty, the
    trimmed title; a line that is not of that shape is left as it is. *)
Theorem preprocess_spec :
  (forall text,
      preprocess_obsidian text =
        join [LF] (map rewrite_line (split LF (normalize_newlines text))) /\
      forallb (fun c => negb (char_eqb c CR)) (normalize_newlines text) = true) /\
  (forall indent gap1 kind gap2 title,
      forallb is_blank indent = true -> forallb is_blank gap1 = true ->
      forallb is_letter kind = true -> kind <> [] ->
      forallb is_blank gap2 = true -> forallb not_newline title = true ->
      rewrite_line
        (indent ++ [GT] ++ gap1 ++ lit "[!" ++ kind ++ lit "]" ++ gap2 ++ title) =
        lit "> <!--callout:" ++ lower kind ++
        (if nonempty (strip title)
         then lit " title=" ++ [DQ] ++ strip title ++ [DQ] else []) ++
        lit "-->") /\
  (forall l,
      forallb not_newline l = true ->
      (forall indent gap1 kind gap2 title,
          forallb is_blank indent = true -> forallb is_blank gap1 = true ->
          forallb is_letter kind = true -> kind <> [] ->
          forallb is_blank gap2 = true ->
          l <> indent ++ [GT] ++ gap1 ++ lit "[!" ++ kind ++ lit "]" ++ gap2 ++ title) ->
      rewrite_line l = l).
Proof.
  split; [|split].
  - intro text. split; [apply preprocess_lines | apply normalize_no_cr].
  - intros indent gap1 kind gap2 title Hi Hg1 Hk Hne Hg2 Ht.
    unfold rewrite_line. rewrite header_of_shape by assumption.
    rewrite strip_dropwhile_blank. unfold marker_line.
    destruct (nonempty (strip title)); rewrite <- ?app_assoc; reflexivity.
  - intros l Hl Hno. unfold rewrite_line.
    destruct (header_of l) as [[kind title]|] eqn:E; [|reflexivity].
    destruct (header_of_inv _ E) as (indent & gap1 & gap2 & rest & Heq & Hi & Hg1 & Hk & Hne & Hg2 & _).
    exfalso. exact (Hno indent gap1 kind gap2 rest Hi Hg1 Hk Hne Hg2 Heq).
Qed.

(** ** Idempotence *)

Ltac eval_lit :=
  repeat match goal with
         | |- context [lit ?s] =>
             let v := eval vm_compute in (lit s) in change (lit s) with v
         end.

Lemma normalize_fixed (s : str) :
  forallb (fun c => negb (char_eqb c CR)) s = true -> normalize_newlines s = s.
Proof.
  induction s as [|c s IH]; cbn [forallb normalize_newlines]; [reflexivity|].
  intro H. apply andb_true_iff in H as [H1 H2]. apply negb_true_iff in H1.
  rewrite H1, (IH H2). reflexivity.
Qed.

Lemma join_split (c : char) (s : str) : join [c] (split c s) = s.
Proof.
  induction s as [|x s IH]; [reflexivity|]. cbn [split].
  destruct (char_eqb x c) eqn:E.
  - apply N.eqb_eq in E. subst x.
    rewrite join_cons by apply split_nonempty. rewrite IH. reflexivity.
  - pose proof (split_nonempty c s) as Hne.
    destruct (split c s) as [|l ls]; [congruence|].
    destruct ls as [|l' ls]; cbn [join] in *; rewrite <- IH; reflexivity.
Qed.

Lemma split_line_sep (l r : str) :
  forallb not_newline l = true -> split LF (l ++ LF :: r) = l :: split LF r.
Proof.
  intro H. rewrite split_line.
  rewrite dropwhile_stop, takewhile_stop by reflexivity.
  rewrite (takewhile_id _ _ H).
  replace (dropwhile not_newline l) with (@nil char); [reflexivity|].
  symmetry. rewrite <- (app_nil_r l) at 1. rewrite dropwhile_app_all by exact H.
  reflexivity.
Qed.

Lemma split_line_single (l : str) :
  forallb not_newline l = true -> split LF l = [l].
Proof.
  intro H. rewrite split_line, (takewhile_id _ _ H).
  replace (dropwhile not_newline l) with (@nil char); [reflexivity|].
  symmetry. rewrite <- (app_nil_r l) at 1. rewrite dropwhile_app_all by exact H.
  reflexivity.
Qed.

Lemma split_join (ls : list str) :
  ls <> [] -> Forall (fun l => forallb not_newline l = true) ls ->
  split LF (join [LF] ls) = ls.
Proof.
  induction ls as [|l ls IH]; [congruence|]. intros _ H. inversion H; subst.
  destruct ls as [|l' ls].
  - apply split_line_single. assumption.
  - rewrite join_cons by discriminate. cbn [app].
    rewrite split_line_sep by assumption. f_equal. apply IH; [discriminate|assumption].
Qed.

Lemma no_break_split (s : str) :
  forallb (fun c => negb (char_eqb c CR)) s = true ->
  Forall (fun l => forallb no_break l = true) (split LF s).
Proof.
  induction s as [|x s IH]; cbn [forallb split]; intro H.
  - repeat constructor.
  - apply andb_true_iff in H as [H1 H2]. specialize (IH H2).
    destruct (char_eqb x LF) eqn:E; [constructor; [reflexivity | exact IH]|].
    destruct (split LF s) as [|l ls]; [repeat constructor; cbn; unfold no_break;
      rewrite H1, E; reflexivity|].
    inversion IH; subst. constructor; [|assumption].
    cbn [forallb]. unfold no_break at 1. rewrite H1, E. assumption.
Qed.

Lemma forallb_In (p : char -> bool) (a b : str) :
  (forall c, In c a -> In c b) -> forallb p b = true -> forallb p a = true.
Proof.
  intros Hin Hb. apply forallb_forall. intros c Hc.
  rewrite forallb_forall in Hb. apply Hb, Hin, Hc.
Qed.

Lemma In_dropwhile (p : char -> bool) (s : str) (c : char) :
  In c (dropwhile p s) -> In c s.
Proof.
  induction s as [|x s IH]; simpl; [tauto|].
  destruct (p x); [intro H; right; apply IH, H | tauto].
Qed.

Lemma In_takewhile (p : char -> bool) (s : str) (c : char) :
  In c (takewhile p s) -> In c s.
Proof.
  induction s as [|x s IH]; simpl; [tauto|].
  destruct (p x); simpl; [intros [H|H]; auto | tauto].
Qed.

Lemma In_strip (s : str) (c : char) : In c (strip s) -> In c s.
Proof.
  unfold strip, rstrip, lstrip. intro H.
  apply in_rev, In_dropwhile in H. apply In_dropwhile with (p := isspace).
  apply in_rev. exact H.
Qed.

Lemma no_break_lower (kind : str) :
  forallb is_letter kind = true -> forallb no_break (lower kind) = true.
Proof.
  unfold lower.
  induction kind as [|c k IH]; cbn [forallb map]; [reflexivity|].
  intro H. apply andb_true_iff in H as [H1 H2].
  rewrite (IH H2), andb_true_r. apply is_letter_range in H1.
  unfold lower_char, is_upper_ascii, no_break, char_eqb, CR, LF.
  destruct ((65 <=? c) && (c <=? 90))%N; apply andb_true_iff; split;
    apply negb_true_iff, N.eqb_neq; lia.
Qed.

Lemma no_break_marker (kind title : str) :
  forallb no_break kind = true -> forallb no_break title = true ->
  forallb no_break (marker_line kind title) = true.
Proof.
  intros Hk Ht. unfold marker_line.
  destruct (nonempty title); rewrite !forallb_app, Hk, ?Ht; reflexivity.
Qed.

Lemma no_break_rewrite (l : str) :
  forallb no_break l = true -> forallb no_break (rewrite_line l) = true.
Proof.
  intro Hl. unfold rewrite_line.
  destruct (header_of l) as [[kind title]|] eqn:E; [|exact Hl].
  destruct (header_of_inv _ E) as (i & g1 & g2 & rest & Heq & _ & _ & Hk & _ & _ & Ht).
  apply no_break_marker; [apply no_break_lower, Hk|].
  apply forallb_In with (b := l); [|exact Hl].
  intros c Hc. apply In_strip in Hc. subst title. apply In_takewhile in Hc.
  rewrite Heq. rewrite !in_app_iff. tauto.
Qed.

Lemma header_of_marker (kind title : str) : header_of (marker_line kind title) = None.
Proof. unfold marker_line. destruct (nonempty title); reflexivity. Qed.

Lemma rewrite_line_idem (l : str) : rewrite_line (rewrite_line l) = rewrite_line l.
Proof.
  unfold rewrite_line at 2 3.
  destruct (header_of l) as [[kind title]|] eqn:E.
  - unfold rewrite_line. rewrite header_of_marker. reflexivity.
  - unfold rewrite_line. rewrite E. reflexivity.
Qed.

Lemma no_break_parts (c : char) :
  no_break c = true -> negb (char_eqb c CR) = true /\ not_newline c = true.
Proof. unfold no_break, not_newline. intro H. apply andb_true_iff in H. exact H. Qed.

Lemma no_cr_join (ls : list str) :
  Forall (fun l => forallb no_break l = true) ls ->
  forallb (fun c => negb (char_eqb c CR)) (join [LF] ls) = true.
Proof.
  assert (Hw : forall l, forallb no_break l = true ->
                         forallb (fun c => negb (char_eqb c CR)) l = true).
  { intros l. apply forallb_weaken. intros c Hc. apply no_break_parts, Hc. }
  induction ls as [|l ls IH]; [reflexivity|]. intro H. inversion H; subst.
  destruct ls as [|l' ls]; [apply Hw; assumption|].
  rewrite join_cons by discriminate. rewrite !forallb_app.
  rewrite IH, Hw by assumption. reflexivity.
Qed.

Lemma Forall_no_break_rewrite (ls : list str) :
  Forall (fun l => forallb no_break l = true) ls ->
  Forall (fun l => forallb no_break l = true) (map rewrite_line ls).
Proof.
  induction 1; cbn [map]; constructor; auto using no_break_rewrite.
Qed.

Lemma Forall_no_break_line (ls : list str) :
  Forall (fun l => forallb no_break l = true) ls ->
  Forall (fun l => forallb not_newline l = true) ls.
Proof.
  apply Forall_impl. intros l. apply forallb_weaken.
  intros c Hc. apply no_break_parts, Hc.
Qed.

(** C7. Preprocessing twice is preprocessing once; in particular a text
    without carriage returns and without header lines is left as it is. *)
Theorem preprocess_idempotent :
  (forall x, preprocess_obsidian (preprocess_obsidian x) = preprocess_obsidian x) /\
  (forall t,
      forallb (fun c => negb (char_eqb c CR)) t = true ->
      (forall l, In l (split LF t) -> header_of l = None) ->
      preprocess_obsidian t = t).
Proof.
  pose proof preprocess_lines as Hpp. split.
  - intro x. rewrite (Hpp (preprocess_obsidian x)), (Hpp x).
    pose proof (no_break_split _ (normalize_no_cr x)) as Hls.
    pose proof (Forall_no_break_rewrite Hls) as Hrw.
    rewrite normalize_fixed by (apply no_cr_join, Hrw).
    rewrite split_join.
    + rewrite map_map. f_equal. apply map_ext. intro l. apply rewrite_line_idem.
    + intro H. apply map_eq_nil in H. revert H. apply split_nonempty.
    + apply Forall_no_break_line, Hrw.
  - intros t Hcr Hno. rewrite Hpp, normalize_fixed by exact Hcr.
    rewrite <- (join_split LF t) at 2. f_equal.
    rewrite <- (map_id (split LF t)) at 2. apply map_ext_in.
    intros l Hl. unfold rewrite_line. rewrite (Hno l Hl). reflexivity.
Qed.

(** ** More on the matcher *)

Section MatcherExt.
Variable R : Type.
  Implicit Types (k : kont R) (p : char -> bool).

Lemma m_lit_ext (l : str) : forall prev s cs k k',
    (forall t pv s' c, k t pv s' c = k' t pv s' c) ->
    m_lit l prev s cs k = m_lit l prev s cs k'.
  Proof.
    induction l as [|x l IH]; intros prev s cs k k' H; cbn [m_lit]; [apply H|].
    destruct s as [|y s]; [reflexivity|].
    destruct (char_eqb y x); [|reflexivity]. apply IH. intros. apply H.
  Qed.

Lemma m_star_ext p : forall s prev cs k k',
    (forall t pv s' c, k t pv s' c = k' t pv s' c) ->
    m_star p prev s cs k = m_star p prev s cs k'.
  Proof.
    induction s as [|x s IH]; intros prev cs k k' H; cbn [m_star]; [apply H|].
    destruct (p x); [|apply H].
    rewrite (IH (Some x) cs (fun t => k (x :: t)) (fun t => k' (x :: t)))
      by (intros; apply H).
    rewrite H. reflexivity.
  Qed.

Lemma m_lazy_ext p : forall s prev cs k k',
    (forall t pv s' c, k t pv s' c = k' t pv s' c) ->
    m_lazy p prev s cs k = m_lazy p prev s cs k'.
  Proof.
    induction s as [|x s IH]; intros prev cs k k' H; cbn [m_lazy]; rewrite H;
      [reflexivity|].
    destruct (k' [] prev (x :: s) cs); [reflexivity|].
    destruct (p x); [|reflexivity]. apply IH. intros. apply H.
  Qed.

Lemma m_cls_ext p : forall s cs k k',
    (forall t pv s' c, k t pv s' c = k' t pv s' c) ->
    m_cls p s cs k = m_cls p s cs k'.
  Proof.
    intros [|x s] cs k k' H; cbn [m_cls]; [reflexivity|].
    destruct (p x); [apply H | reflexivity].
  Qed.

  (** The matcher only sees what a continuation returns. *)
Lemma m_ext (r : regex) : forall prev s cs k k',
    (forall t pv s' c, k t pv s' c = k' t pv s' c) ->
    m r prev s cs k = m r prev s cs k'.
  Proof.
    induction r; intros prev s cs k k' H; cbn [m].
    - apply m_cls_ext, H.
    - apply m_lit_ext, H.
    - apply m_cls_ext, H.
    - apply m_star_ext, H.
    - apply m_cls_ext. intros. apply m_star_ext. intros. apply H.
    - apply m_lazy_ext, H.
    - apply IHr1. intros. apply IHr2. intros. apply H.
    - rewrite (IHr prev s cs k k' H), H. reflexivity.
    - apply IHr. intros. apply H.
    - destruct (at_bol multiline prev); [apply H | reflexivity].
    - destruct (at_eol multiline s); [apply H | reflexivity].
  Qed.
End MatcherExt.

Section MatcherMap.
Variables (R R' : Type) (f : R -> R').
  Implicit Types (k : kont R) (p : char -> bool).

Local Abbreviation lift_k k :=
    (fun (t : str) (pv : option char) (s' : str) (c : caps) =>
       option_map f (k t pv s' c)).

Lemma m_lit_map (l : str) : forall prev s cs k,
    option_map f (m_lit l prev s cs k) = m_lit l prev s cs (lift_k k).
  Proof.
    induction l as [|x l IH]; intros prev s cs k; cbn [m_lit]; [reflexivity|].
    destruct s as [|y s]; [reflexivity|].
    destruct (char_eqb y x); [|reflexivity]. apply IH.
  Qed.

Lemma m_star_map p : forall s prev cs k,
    option_map f (m_star p prev s cs k) = m_star p prev s cs (lift_k k).
  Proof.
    induction s as [|x s IH]; intros prev cs k; cbn [m_star]; [reflexivity|].
    destruct (p x); [|reflexivity].
    rewrite <- (IH (Some x) cs (fun t => k (x :: t))).
    destruct (m_star p (Some x) s cs (fun t => k (x :: t))); reflexivity.
  Qed.

Lemma m_lazy_map p : forall s prev cs k,
    option_map f (m_lazy p prev s cs k) = m_lazy p prev s cs (lift_k k).
  Proof.
    induction s as [|x s IH]; intros prev cs k; cbn [m_lazy].
    - destruct (k [] prev [] cs); reflexivity.
    - destruct (k [] prev (x :: s) cs); [reflexivity|]. cbn [option_map].
      destruct (p x); [|reflexivity]. apply IH.
  Qed.

Lemma m_cls_map p : forall s cs k,
    option_map f (m_cls p s cs k) = m_cls p s cs (lift_k k).
  Proof.
    intros [|x s] cs k; cbn [m_cls]; [reflexivity|]. destruct (p x); reflexivity.
  Qed.

  (** A function applied to the result can be applied by the continuation. *)
Lemma m_map (r : regex) : forall prev s cs k,
    option_map f (m r prev s cs k) = m r prev s cs (lift_k k).
  Proof.
    induction r; intros prev s cs k; cbn [m].
    - apply m_cls_map.
    - apply m_lit_map.
    - apply m_cls_map.
    - apply m_star_map.
    - rewrite m_cls_map. apply m_cls_ext. intros. apply m_star_map.
    - apply m_lazy_map.
    - rewrite IHr1. apply m_ext. intros. apply IHr2.
    - rewrite <- IHr. destruct (m r prev s cs k); reflexivity.
    - apply IHr.
    - destruct (at_bol multiline prev); reflexivity.
    - destruct (at_eol multiline s); reflexivity.
  Qed.
End MatcherMap.

(** The groups of an attempt, its text left out. *)
Lemma match_here_caps (r : regex) (prev : option char) (s : str) :
  option_map snd (match_here r prev s) = m r prev s [] (fun _ _ _ cs => Some cs).
Proof. unfold match_here. rewrite m_map. reflexivity. Qed.

Lemma m_lit_eq (R : Type) (l : str) (prev : option char) (s : str) (cs : caps)
  (k : kont R) :
  m_lit l prev s cs k =
    if startswith l s then k l (last_char prev l) (skipn (length l) s) cs else None.
Proof.
  destruct (startswith l s) eqn:E.
  - rewrite (startswith_split _ _ E) at 1. apply m_lit_app.
  - apply m_lit_fail, E.
Qed.

(** A literal cannot start at a character other than its first. *)
Lemma m_lit_reject (R : Type) (d : char) (l : str) (prev : option char) (c : char)
  (s : str) (cs : caps) (k : kont R) :
  char_eqb c d = false -> m_lit (d :: l) prev (c :: s) cs k = None.
Proof. intro H. cbn [m_lit]. rewrite H. reflexivity. Qed.

Lemma class_neq (p : char -> bool) (c d : char) :
  p c = true -> p d = false -> char_eqb c d = false.
Proof. intros Hc Hd. apply N.eqb_neq. intro E. subst. congruence. Qed.

Lemma is_lower_range (c : char) : is_lower_ascii c = true -> (97 <= c <= 122)%N.
Proof.
  unfold is_lower_ascii. intro H. apply andb_true_iff in H as [H1 H2].
  apply N.leb_le in H1, H2. lia.
Qed.

Lemma isspace_range (c : char) : isspace c = true -> (c <= 32 \/ 133 <= c)%N.
Proof.
  unfold isspace. intro H.
  repeat (apply orb_true_iff in H; destruct H as [H|H]);
    repeat (let H' := fresh in apply andb_true_iff in H; destruct H as [H H']);
    repeat match goal with
           | X : (_ <=? _)%N = true |- _ => apply N.leb_le in X
           | X : (_ =? _)%N = true |- _ => apply N.eqb_eq in X
           end; lia.
Qed.

Lemma is_lower_not_space (c : char) : is_lower_ascii c = true -> isspace c = false.
Proof.
  intro H. apply is_lower_range in H.
  destruct (isspace c) eqn:E; [|reflexivity].
  apply isspace_range in E. lia.
Qed.

Lemma startswith_app_split (a b s : str) :
  startswith (a ++ b) s = startswith a s && startswith b (skipn (length a) s).
Proof.
  revert s; induction a as [|x a IH]; intros s; [reflexivity|].
  destruct s as [|y s]; [reflexivity|]. cbn [app startswith length skipn].
  rewrite IH, andb_assoc. reflexivity.
Qed.

(** Optional white space and the end of the comment. *)
Lemma comment_end_match (R : Type) (prev : option char) (s : str) (cs : caps)
  (k : caps -> option R) :
  m_star isspace prev s cs
    (fun _ p2 s3 cs3 => m_lit (lit "-->") p2 s3 cs3 (fun _ _ _ c => k c)) =
  if comment_end_at s then k cs else None.
Proof.
  rewrite m_star_commit.
  - rewrite m_lit_eq. reflexivity.
  - intros. apply m_lit_reject. apply class_neq with (p := isspace); auto.
Qed.

(** The title attribute, then the end of the comment. *)
Lemma title_match (R : Type) (s : str) (cs : caps) (k : caps -> option R) :
  m_cls isspace s cs
    (fun _ p2 s3 cs3 =>
       m_star isspace p2 s3 cs3
         (fun _ p3 s4 cs4 =>
            m_lit (lit "title=") p3 s4 cs4
              (fun _ _ s5 cs5 =>
                 m_cls (fun x => char_eqb x DQ) s5 cs5
                   (fun _ p4 s6 cs6 =>
                      m_star not_dq p4 s6 cs6
                        (fun t _ s7 cs7 =>
                           m_cls (fun x => char_eqb x DQ) s7 ((2, t) :: cs7)
                             (fun _ p5 s8 cs8 =>
                                m_star isspace p5 s8 cs8
                                  (fun _ p6 s9 cs9 =>
                                     m_lit (lit "-->") p6 s9 cs9
                                       (fun _ _ _ c => k c)))))))) =
  match title_at s with
  | Some (title, s6) => if comment_end_at s6 then k ((2, title) :: cs) else None
  | None => None
  end.
Proof.
  unfold title_at. destruct s as [|x s]; [reflexivity|].
  cbn [m_cls takewhile dropwhile]. destruct (isspace x); [|reflexivity].
  rewrite m_star_commit
    by (intros; apply m_lit_reject; apply class_neq with (p := isspace); auto).
  rewrite m_lit_eq, startswith_app_split.
  destruct (startswith (lit "title=") (dropwhile isspace s)); [|reflexivity].
  change (length (lit "title=")) with 6.
  change 7 with (1 + 6). rewrite <- skipn_skipn.
  generalize (skipn 6 (dropwhile isspace s)) as s5. intro s5.
  destruct s5 as [|c s5]; [reflexivity|].
  cbn [m_cls startswith skipn andb].
  replace (char_eqb DQ c) with (char_eqb c DQ) by apply N.eqb_sym.
  destruct (char_eqb c DQ); [|reflexivity].
  cbn [andb].
  rewrite m_star_commit.
  - destruct (dropwhile not_dq s5) as [|d s6]; [reflexivity|].
    cbn [m_cls]. destruct (char_eqb d DQ); [|reflexivity].
    apply comment_end_match.
  - intros t pv d s' cs' Hd. cbn [m_cls]. unfold not_dq in Hd.
    apply negb_true_iff in Hd. rewrite Hd. reflexivity.
Qed.

Lemma comment_match (prev : option char) (s : str) :
  option_map snd (match_here callout_comment_re prev s) =
    option_map comment_caps (comment_at s).
Proof.
  rewrite match_here_caps. unfold callout_comment_re, seq. cbn [m].
  rewrite m_lit_eq. unfold comment_at.
  destruct (startswith (lit "<!--") s); [|reflexivity].
  change (length (lit "<!--")) with 4.
  rewrite m_star_commit
    by (intros; apply m_lit_reject; apply class_neq with (p := isspace); auto).
  rewrite m_lit_eq.
  destruct (startswith (lit "callout:") (dropwhile isspace (skipn 4 s)));
    [|reflexivity].
  change (length (lit "callout:")) with 8.
  generalize (skipn 8 (dropwhile isspace (skipn 4 s))) as s3. intro s3.
  destruct s3 as [|c s3]; [reflexivity|].
  cbn [m_cls takewhile dropwhile]. destruct (is_lower_ascii c) eqn:Hc; [|reflexivity].
  rewrite m_star_commit.
  - rewrite title_match, comment_end_match.
    destruct (title_at (dropwhile is_lower_ascii s3)) as [[title s6]|].
    + destruct (comment_end_at s6); [reflexivity|].
      destruct (comment_end_at (dropwhile is_lower_ascii s3)); reflexivity.
    + destruct (comment_end_at (dropwhile is_lower_ascii s3)); reflexivity.
  - intros t pv d s' cs' Hd. cbn [m_cls m_star].
    rewrite (is_lower_not_space _ Hd).
    apply (@m_lit_reject _ 45%N [45%N; 62%N]). apply is_lower_range in Hd.
    apply N.eqb_neq. lia.
Qed.

Lemma search_comment : forall s pos prev,
  option_map m_caps (search_from callout_comment_re pos prev s) =
    option_map comment_caps (first_comment s).
Proof.
  induction s as [|c s IH]; intros pos prev; cbn [search_from first_comment];
    pose proof (comment_match prev) as H.
  - specialize (H []). destruct (match_here callout_comment_re prev []) as [[t cs]|];
      destruct (comment_at []); cbn in *; congruence.
  - specialize (H (c :: s)).
    destruct (match_here callout_comment_re prev (c :: s)) as [[t cs]|];
      destruct (comment_at (c :: s)); cbn [option_map snd] in H;
      try discriminate; [cbn; congruence | apply IH].
Qed.

(** ** Greedy repetition with a single way through *)

Section StarUnique.
Variable R : Type.
Variable p : char -> bool.

Lemma m_star_stop (after : str) (prev : option char) (cs : caps) (k : kont R) :
    stops p after -> m_star p prev after cs k = k [] prev after cs.
  Proof.
    destruct after as [|c r]; cbn [m_star stops]; [reflexivity|].
    intro H. rewrite H. reflexivity.
  Qed.

Lemma m_star_none : forall rn prev after cs (k : kont R),
    forallb p rn = true -> stops p after ->
    (forall t u, t ++ u = rn -> t <> [] ->
                 k t (last_char prev t) (u ++ after) cs = None) ->
    m_star p prev (rn ++ after) cs k = k [] prev (rn ++ after) cs.
  Proof.
    induction rn as [|x rn IH]; intros prev after cs k Hrn Hst Hk.
    - apply m_star_stop, Hst.
    - cbn [forallb] in Hrn. apply andb_true_iff in Hrn as [Hx Hrn].
      cbn [app m_star]. rewrite Hx.
      rewrite IH; [|exact Hrn|exact Hst|].
      + pose proof (Hk [x] rn eq_refl ltac:(discriminate)) as Hx'.
        unfold last_char in Hx'. cbn [fold_left app] in Hx'.
        cbv beta. rewrite Hx'. reflexivity.
      + intros t u Htu Hne. apply (Hk (x :: t) u); [cbn; congruence | discriminate].
  Qed.

Lemma m_star_unique : forall t0 u0 prev after cs (k : kont R),
    forallb p t0 = true -> forallb p u0 = true -> stops p after ->
    (forall t u, t ++ u = t0 ++ u0 -> t <> t0 ->
                 k t (last_char prev t) (u ++ after) cs = None) ->
    m_star p prev (t0 ++ u0 ++ after) cs k =
      k t0 (last_char prev t0) (u0 ++ after) cs.
  Proof.
    induction t0 as [|x t0 IH]; intros u0 prev after cs k Ht Hu Hst Hk.
    - cbn [app]. apply m_star_none; assumption.
    - cbn [forallb] in Ht. apply andb_true_iff in Ht as [Hx Ht].
      cbn [app m_star]. rewrite Hx.
      rewrite IH; try assumption.
      + rewrite last_char_cons.
        destruct (k (x :: t0) _ _ _); [reflexivity|].
        pose proof (Hk [] (x :: t0 ++ u0) eq_refl ltac:(discriminate)) as H0.
        cbn [app] in H0. rewrite <- app_assoc in H0. exact H0.
      + intros t u Htu Hne. apply (Hk (x :: t) u); [cbn; congruence|congruence].
  Qed.
End StarUnique.

(** ** The removal pattern at a marker *)

Lemma arrow_only_at_end (body t u rest : str) :
  forallb not_gt body = true ->
  t ++ u = body ++ lit "--" -> t <> body ->
  startswith (lit "-->") (u ++ GT :: rest) = false.
Proof.
  intros Hb Htu Hne.
  assert (Hu : forallb not_gt u = true).
  { assert (H : forallb not_gt (t ++ u) = true)
      by (rewrite Htu, forallb_app, Hb; reflexivity).
    rewrite forallb_app in H. apply andb_true_iff in H. tauto. }
  change (lit "-->") with [45%N; 45%N; GT]. change (lit "--") with [45%N; 45%N] in Htu.
  destruct u as [|a [|b [|c u]]]; cbn [app startswith].
  - reflexivity.
  - change (char_eqb 45%N GT) with false. rewrite andb_false_r. reflexivity.
  - destruct (char_eqb 45%N a) eqn:Ea; [|reflexivity].
    destruct (char_eqb 45%N b) eqn:Eb; [|reflexivity].
    apply N.eqb_eq in Ea, Eb. subst a b.
    apply app_inv_tail in Htu. contradiction.
  - cbn [forallb] in Hu. apply andb_true_iff in Hu as [_ Hu].
    apply andb_true_iff in Hu as [_ Hu]. apply andb_true_iff in Hu as [Hc _].
    unfold not_gt in Hc. apply negb_true_iff in Hc.
    replace (char_eqb GT c) with (char_eqb c GT) by apply N.eqb_sym.
    rewrite Hc, !andb_false_r. reflexivity.
Qed.

(** On a comment whose body holds no [>], the removal pattern covers the
    comment and the white space after it. *)
Lemma strip_match_marker (prev : option char) (body rest : str) :
  forallb not_gt body = true ->
  match_here callout_strip_re prev (lit "<!--callout:" ++ body ++ lit "-->" ++ rest) =
    Some (lit "<!--callout:" ++ body ++ lit "-->" ++ takewhile isspace rest, []).
Proof.
  intro Hb. unfold match_here, callout_strip_re, seq. cbn [m].
  change (lit "<!--callout:") with (lit "<!--" ++ lit "callout:").
  rewrite <- app_assoc, m_lit_app.
  rewrite m_star_commit
    by (intros; apply m_lit_reject; apply class_neq with (p := isspace); auto).
  change (takewhile isspace (lit "callout:" ++ body ++ lit "-->" ++ rest))
    with (@nil char).
  change (dropwhile isspace (lit "callout:" ++ body ++ lit "-->" ++ rest))
    with (lit "callout:" ++ body ++ lit "-->" ++ rest).
  rewrite m_lit_app.
  change (lit "-->" ++ rest) with (lit "--" ++ GT :: rest).
  rewrite m_star_unique.
  - change (lit "--" ++ GT :: rest) with (lit "-->" ++ rest).
    rewrite m_lit_app. erewrite m_star_first by reflexivity.
    rewrite <- !app_assoc. reflexivity.
  - exact Hb.
  - reflexivity.
  - reflexivity.
  - intros t u Htu Hne. apply m_lit_fail. apply arrow_only_at_end with (body := body) (t := t); assumption.
Qed.

(** ** The first-paragraph pattern *)

Lemma p_tag_match (prev : option char) (s : str) :
  match_here first_p_re prev s =
    match prev with
    | None =>
        match p_tag_at s with
        | Some (tag, _) => Some (tag, [(1, tag)])
        | None => None
        end
    | Some _ => None
    end.
Proof.
  unfold match_here, first_p_re, seq. cbn [m]. destruct prev as [c|]; [reflexivity|].
  cbn [at_bol]. rewrite m_lit_eq. unfold p_tag_at.
  destruct (startswith (lit "<p") s); [|reflexivity].
  change (length (lit "<p")) with 2.
  rewrite m_star_commit.
  - destruct (dropwhile not_gt (skipn 2 s)) as [|c rest] eqn:E; [reflexivity|].
    apply dropwhile_head in E. unfold not_gt in E. apply negb_false_iff in E.
    cbn [m_cls]. rewrite E. reflexivity.
  - intros t pv d s' cs' Hd. cbn [m_cls]. unfold not_gt in Hd.
    apply negb_true_iff in Hd. rewrite Hd. reflexivity.
Qed.

(** ** The block pattern *)

Lemma m_lazy_find (R : Type) (l : str) : forall s prev cs (k : kont R),
  (forall t pv s' cs', startswith l s' = false -> k t pv s' cs' = None) ->
  (forall t pv s' cs', startswith l s' = true -> k t pv s' cs' <> None) ->
  m_lazy any_char prev s cs k =
    match find l s with
    | Some j => k (firstn j s) (last_char prev (firstn j s)) (skipn j s) cs
    | None => None
    end.
Proof.
  induction s as [|x s IH]; intros prev cs k Hno Hyes; cbn [m_lazy find].
  - destruct (startswith l []) eqn:E.
    + specialize (Hyes [] prev [] cs E). cbn [firstn skipn]. unfold last_char.
      cbn [fold_left].
      destruct (k [] prev [] cs); [reflexivity|congruence].
    + rewrite Hno by exact E. reflexivity.
  - destruct (startswith l (x :: s)) eqn:E.
    + specialize (Hyes [] prev (x :: s) cs E). cbn [firstn skipn].
      unfold last_char. cbn [fold_left].
      destruct (k [] prev (x :: s) cs); [reflexivity|congruence].
    + rewrite Hno by exact E. cbn [any_char].
      rewrite IH by (intros; auto).
      destruct (find l s); reflexivity.
Qed.

Lemma blockquote_match (prev : option char) (s : str) :
  match_here blockquote_re prev s =
    if startswith OPEN s then
      match find CLOSE (skipn 12 s) with
      | Some j => Some (OPEN ++ firstn j (skipn 12 s) ++ CLOSE,
                        [(1, firstn j (skipn 12 s))])
      | None => None
      end
    else None.
Proof.
  unfold match_here, blockquote_re, seq. cbn [m]. fold OPEN CLOSE.
  rewrite m_lit_eq. destruct (startswith OPEN s); [|reflexivity].
  change (length OPEN) with 12.
  rewrite (m_lazy_find CLOSE).
  - destruct (find CLOSE (skipn 12 s)) as [j|] eqn:E; [|reflexivity].
    rewrite m_lit_eq.
    assert (H : startswith CLOSE (skipn j (skipn 12 s)) = true).
    { clear - E. revert j E. generalize (skipn 12 s) as u.
      induction u as [|x u IH]; intros j E; cbn [find] in E.
      - destruct (startswith CLOSE []) eqn:E0; [|discriminate].
        inversion E; subst. exact E0.
      - destruct (startswith CLOSE (x :: u)) eqn:E0.
        + inversion E; subst. exact E0.
        + destruct (find CLOSE u) as [j'|]; [|discriminate].
          inversion E; subst. cbn [skipn]. apply IH. reflexivity. }
    rewrite H. reflexivity.
  - intros. apply m_lit_fail. assumption.
  - intros t pv s' cs' H. rewrite m_lit_eq, H. discriminate.
Qed.

(** ** Occurrences of a tag *)

Lemma contains_suffix (l : str) : forall s1 s2,
  startswith l s2 = true -> contains l (s1 ++ s2) = true.
Proof.
  induction s1 as [|x s1 IH]; intros s2 H; cbn [app].
  - destruct s2; cbn [contains]; rewrite H; reflexivity.
  - cbn [contains]. rewrite (IH _ H). apply orb_true_r.
Qed.

Lemma startswith_prefix (l : str) : forall a x,
  startswith l a = true -> startswith l (a ++ x) = true.
Proof.
  induction l as [|y l IH]; intros [|z a] x H; cbn [startswith app] in *;
    try reflexivity; try discriminate.
  apply andb_true_iff in H as [H1 H2]. rewrite H1. cbn [andb]. apply IH, H2.
Qed.

(** A text without [<] that starts inside [a] and is followed by [<] or by
    nothing lies within [a]. *)
Lemma startswith_within (l : str) : forall a x,
  forallb not_lt l = true -> stops not_lt x ->
  startswith l (a ++ x) = true -> startswith l a = true.
Proof.
  induction l as [|y l IH]; intros a x Hl Hx H; [reflexivity|].
  cbn [forallb] in Hl. apply andb_true_iff in Hl as [Hy Hl].
  destruct a as [|z a]; cbn [app] in H.
  - exfalso. destruct x as [|c x]; [discriminate|].
    cbn [startswith stops] in *. apply andb_true_iff in H as [H _].
    apply N.eqb_eq in H. subst c. congruence.
  - cbn [startswith] in *. apply andb_true_iff in H as [H1 H2].
    rewrite H1. cbn [andb]. apply (IH a x); assumption.
Qed.

(** A tag that starts with [<], holds no other [<] and does not occur in
    [a] starts nowhere in [a], whatever follows. *)
Lemma tag_not_in (l a x : str) :
  forallb not_lt l = true -> stops not_lt x ->
  contains (LT :: l) a = false ->
  forall a1 c a2, a = a1 ++ c :: a2 -> startswith (LT :: l) (c :: a2 ++ x) = false.
Proof.
  intros Hl Hx Hno a1 c a2 Ha.
  destruct (startswith (LT :: l) (c :: a2 ++ x)) eqn:E; [|reflexivity].
  exfalso. cbn [startswith] in E. apply andb_true_iff in E as [E1 E2].
  apply startswith_within in E2; [|assumption..].
  assert (H : startswith (LT :: l) (c :: a2) = true)
    by (cbn [startswith]; rewrite E1, E2; reflexivity).
  apply (contains_suffix _ a1) in H. rewrite <- Ha in H. congruence.
Qed.

(** ** Scanning past a stretch without match *)

Lemma scan_closed (r : regex) (s : str) (pos : nat) (prev : option char) :
  scan r (Some 0) 0 pos prev s = map Keep s.
Proof. destruct s; reflexivity. Qed.

Lemma scan_keep (r : regex) (b : option nat) (x : str) : forall a pos prev,
  (forall a1 c a2, a = a1 ++ c :: a2 ->
                   match_here r (last_char prev a1) (c :: a2 ++ x) = None) ->
  scan r b 0 pos prev (a ++ x) =
    map Keep a ++ scan r b 0 (pos + length a) (last_char prev a) x.
Proof.
  induction a as [|c a IH]; intros pos prev H; cbn [app length map].
  - rewrite Nat.add_0_r. reflexivity.
  - cbn [scan]. destruct (budget_open b) eqn:Eb.
    + pose proof (H [] c a eq_refl) as H0. change (last_char prev []) with prev in H0.
      rewrite H0, IH.
      * rewrite Nat.add_succ_r. reflexivity.
      * intros a1 d a2 Ha. apply (H (c :: a1) d a2). cbn. congruence.
    + destruct b as [[|n]|]; try discriminate.
      cbn [map]. rewrite map_app, scan_closed. reflexivity.
Qed.

Lemma search_keep (r : regex) (x : str) : forall a pos prev,
  (forall a1 c a2, a = a1 ++ c :: a2 ->
                   match_here r (last_char prev a1) (c :: a2 ++ x) = None) ->
  search_from r pos prev (a ++ x) =
    search_from r (pos + length a) (last_char prev a) x.
Proof.
  induction a as [|c a IH]; intros pos prev H; cbn [app length].
  - rewrite Nat.add_0_r. reflexivity.
  - cbn [search_from]. pose proof (H [] c a eq_refl) as H0.
    change (last_char prev []) with prev in H0. rewrite H0, IH.
    + rewrite Nat.add_succ_r. reflexivity.
    + intros a1 d a2 Ha. apply (H (c :: a1) d a2). cbn. congruence.
Qed.

Lemma first_comment_keep (x : str) : forall a,
  (forall a1 c a2, a = a1 ++ c :: a2 -> comment_at (c :: a2 ++ x) = None) ->
  first_comment (a ++ x) = first_comment x.
Proof.
  induction a as [|c a IH]; intros H; [reflexivity|].
  cbn [app first_comment]. rewrite (H [] c a eq_refl). apply IH.
  intros a1 d a2 Ha. apply (H (c :: a1) d a2). cbn. congruence.
Qed.

Lemma subst_keep (f : rmatch -> str) (a : str) (ps : list piece) :
  subst_pieces f (map Keep a ++ ps) = a ++ subst_pieces f ps.
Proof. induction a as [|c a IH]; cbn; [|rewrite IH]; reflexivity. Qed.

Lemma subst_keep_all (f : rmatch -> str) (a : str) :
  subst_pieces f (map Keep a) = a.
Proof. induction a as [|c a IH]; cbn; [|rewrite IH]; reflexivity. Qed.

Lemma subst_exn_keep (f : rmatch -> result str) (a : str) (ps : list piece) :
  subst_pieces_exn f (map Keep a ++ ps) =
    rbind (subst_pieces_exn f ps) (fun t => Ok (a ++ t)).
Proof.
  induction a as [|c a IH]; cbn [map app subst_pieces_exn].
  - destruct (subst_pieces_exn f ps); reflexivity.
  - rewrite IH. destruct (subst_pieces_exn f ps); reflexivity.
Qed.


(** For a pattern without anchors neither the position nor the character
    before matters to the substitution. *)
Lemma subst_exn_scan_indep (r : regex) (f : rmatch -> result str) :
  ignores_start f ->
  (forall prev prev' s, match_here r prev s = match_here r prev' s) ->
  forall s b k pos pos' prev prev',
    subst_pieces_exn f (scan r b k pos prev s) =
      subst_pieces_exn f (scan r b k pos' prev' s).
Proof.
  intros Hf Hr. induction s as [|c s IH]; intros b k pos pos' prev prev'.
  - destruct k; cbn [scan]; [|reflexivity].
    destruct (budget_open b); [|reflexivity].
    rewrite (Hr prev prev').
    destruct (match_here r prev' []) as [[t cs]|]; [|reflexivity].
    cbn [subst_pieces_exn]. rewrite (Hf pos pos'). reflexivity.
  - destruct k; cbn [scan]; [|apply IH].
    destruct (budget_open b); [|reflexivity].
    rewrite (Hr prev prev').
    destruct (match_here r prev' (c :: s)) as [[t cs]|].
    + cbn [subst_pieces_exn]. rewrite (Hf pos pos').
      destruct t; cbn [subst_pieces_exn];
        rewrite (IH _ _ (S pos) (S pos') (Some c) (Some c)); reflexivity.
    + cbn [subst_pieces_exn]. rewrite (IH _ _ (S pos) (S pos') (Some c) (Some c)).
      reflexivity.
Qed.

(** ** One block of a rendered document *)

Lemma scan_hit (r : regex) (b : option nat) (t rest : str) (cs : caps)
  (pos : nat) (prev : option char) :
  match_here r prev (t ++ rest) = Some (t, cs) -> t <> [] ->
  budget_open b = true ->
  scan r b 0 pos prev (t ++ rest) =
    Hit (Match pos t cs) ::
    scan r (budget_pred b) 0 (pos + length t) (last_char prev t) rest.
Proof.
  intros H Hne Hb. destruct t as [|c t]; [congruence|].
  cbn [app scan]. cbn [app] in H. rewrite Hb, H. f_equal.
  rewrite scan_skip. cbn [length]. rewrite Nat.add_succ_r. reflexivity.
Qed.

Lemma last_char_some (c : char) (t : str) : exists d, last_char (Some c) t = Some d.
Proof.
  revert c; induction t as [|x t IH]; intro c; [exists c; reflexivity|].
  rewrite last_char_cons. apply IH.
Qed.

(** *** Finding the marker *)

Lemma comment_at_no_start (s : str) :
  startswith (lit "<!--") s = false -> comment_at s = None.
Proof. intro H. unfold comment_at. rewrite H. reflexivity. Qed.

Lemma first_comment_here (s : str) (c : str * option str) :
  comment_at s = Some c -> first_comment s = Some c.
Proof. intro H. destruct s; cbn [first_comment]; rewrite H; reflexivity. Qed.

Lemma is_lower_not_gt (c : char) : is_lower_ascii c = true -> not_gt c = true.
Proof.
  intro H. apply is_lower_range in H. unfold not_gt, char_eqb, GT.
  apply negb_true_iff, N.eqb_neq. lia.
Qed.

Lemma is_lower_not_bsl (c : char) :
  is_lower_ascii c = true -> negb (char_eqb c BSL) = true.
Proof.
  intro H. apply is_lower_range in H. unfold char_eqb, BSL.
  apply negb_true_iff, N.eqb_neq. lia.
Qed.

Lemma comment_at_marker (kind title b : str) :
  forallb is_lower_ascii kind = true -> kind <> [] ->
  forallb not_dq title = true ->
  comment_at (marker kind title ++ b) =
    Some (kind, if nonempty title then Some title else None).
Proof.
  intros Hk Hne Ht. unfold marker, comment_at.
  destruct (nonempty title) eqn:En.
  - rewrite <- !app_assoc.
    change (lit "<!--callout:") with (lit "<!--" ++ lit "callout:").
    rewrite <- !app_assoc.
    rewrite startswith_app.
    replace (skipn 4 (lit "<!--" ++ lit "callout:" ++ kind ++ lit " title=" ++ [DQ] ++ title ++ [DQ] ++ lit "-->" ++ b))
      with (lit "callout:" ++ kind ++ lit " title=" ++ [DQ] ++ title ++ [DQ] ++ lit "-->" ++ b)
      by reflexivity.
    change (dropwhile isspace (lit "callout:" ++ ?x)) with (lit "callout:" ++ x).
    rewrite startswith_app.
    replace (skipn 8 (lit "callout:" ++ kind ++ lit " title=" ++ [DQ] ++ title ++ [DQ] ++ lit "-->" ++ b))
      with (kind ++ lit " title=" ++ [DQ] ++ title ++ [DQ] ++ lit "-->" ++ b)
      by reflexivity.
    rewrite (takewhile_app_all _ _ _ Hk), (dropwhile_app_all _ _ _ Hk).
    change (takewhile is_lower_ascii (lit " title=" ++ ?x)) with (@nil char).
    change (dropwhile is_lower_ascii (lit " title=" ++ ?x)) with (lit " title=" ++ x).
    rewrite app_nil_r. destruct kind as [|k0 kind]; [congruence|].
    unfold title_at.
    change (takewhile isspace (lit " title=" ++ ?x)) with [SP].
    change (dropwhile isspace (lit " title=" ++ [DQ] ++ ?x))
      with ((lit "title=" ++ [DQ]) ++ x).
    rewrite startswith_app.
    replace (skipn 7 ((lit "title=" ++ [DQ]) ++ title ++ [DQ] ++ lit "-->" ++ b))
      with (title ++ [DQ] ++ lit "-->" ++ b) by reflexivity.
    rewrite (takewhile_app_all _ _ _ Ht), (dropwhile_app_all _ _ _ Ht).
    cbn [app dropwhile takewhile]. change (not_dq DQ) with false. cbv iota.
    change (char_eqb DQ DQ) with true. cbv iota.
    rewrite app_nil_r. reflexivity.
  - rewrite <- !app_assoc.
    change (lit "<!--callout:") with (lit "<!--" ++ lit "callout:").
    rewrite <- !app_assoc.
    rewrite startswith_app.
    replace (skipn 4 (lit "<!--" ++ lit "callout:" ++ kind ++ lit "-->" ++ b))
      with (lit "callout:" ++ kind ++ lit "-->" ++ b) by reflexivity.
    change (dropwhile isspace (lit "callout:" ++ ?x)) with (lit "callout:" ++ x).
    rewrite startswith_app.
    replace (skipn 8 (lit "callout:" ++ kind ++ lit "-->" ++ b))
      with (kind ++ lit "-->" ++ b) by reflexivity.
    rewrite (takewhile_app_all _ _ _ Hk), (dropwhile_app_all _ _ _ Hk).
    change (takewhile is_lower_ascii (lit "-->" ++ ?x)) with (@nil char).
    change (dropwhile is_lower_ascii (lit "-->" ++ ?x)) with (lit "-->" ++ x).
    rewrite app_nil_r. destruct kind as [|k0 kind]; [congruence|].
    reflexivity.
Qed.

Lemma stops_marker (kind title b : str) : stops not_lt (marker kind title ++ b).
Proof. unfold marker. destruct (nonempty title); reflexivity. Qed.

Lemma comment_tag_not_in (a x : str) :
  contains (lit "<!--") a = false -> stops not_lt x ->
  forall a1 c a2, a = a1 ++ c :: a2 -> startswith (lit "<!--") (c :: a2 ++ x) = false.
Proof.
  intros Ha Hx. apply (@tag_not_in [33%N; 45%N; 45%N] a x); auto.
Qed.

Lemma first_comment_marker (a kind title b : str) :
  contains (lit "<!--") a = false ->
  forallb is_lower_ascii kind = true -> kind <> [] ->
  forallb not_dq title = true ->
  first_comment (a ++ marker kind title ++ b) =
    Some (kind, if nonempty title then Some title else None).
Proof.
  intros Ha Hk Hne Ht. rewrite first_comment_keep.
  - apply first_comment_here, comment_at_marker; assumption.
  - intros a1 c a2 Heq. apply comment_at_no_start.
    apply (@comment_tag_not_in a _ Ha (stops_marker kind title b) _ _ _ Heq).
Qed.

(** *** Removing the marker *)

Lemma strip_no_start (prev : option char) (s : str) :
  startswith (lit "<!--") s = false -> match_here callout_strip_re prev s = None.
Proof.
  intro H. unfold match_here, callout_strip_re, seq. cbn [m].
  apply m_lit_fail, H.
Qed.

Lemma marker_body (kind title : str) :
  forallb is_lower_ascii kind = true -> forallb not_gt title = true ->
  exists body,
    marker kind title = lit "<!--callout:" ++ body ++ lit "-->" /\
    forallb not_gt body = true.
Proof.
  intros Hk Ht. unfold marker.
  pose proof (forallb_weaken _ _ _ is_lower_not_gt Hk) as Hk'.
  destruct (nonempty title).
  - exists (kind ++ lit " title=" ++ [DQ] ++ title ++ [DQ]). split.
    + rewrite <- !app_assoc. reflexivity.
    + rewrite !forallb_app, Hk', Ht. reflexivity.
  - exists kind. split; [reflexivity | exact Hk'].
Qed.

Lemma strip_sub (a kind title b : str) :
  contains (lit "<!--") a = false ->
  forallb is_lower_ascii kind = true -> forallb not_gt title = true ->
  re_sub callout_strip_re (fun _ => []) (a ++ marker kind title ++ b) 1 =
    a ++ lstrip b.
Proof.
  intros Ha Hk Ht. unfold re_sub, pieces. cbn [budget_of_count].
  rewrite scan_keep.
  2:{ intros a1 c a2 Heq. apply strip_no_start.
      apply (@comment_tag_not_in a _ Ha (stops_marker kind title b) _ _ _ Heq). }
  rewrite subst_keep. f_equal.
  destruct (marker_body kind title Hk Ht) as (body & Hm & Hb). rewrite Hm.
  rewrite <- (takewhile_dropwhile isspace b) at 1.
  replace ((lit "<!--callout:" ++ body ++ lit "-->") ++
           takewhile isspace b ++ dropwhile isspace b)
    with ((lit "<!--callout:" ++ body ++ lit "-->" ++ takewhile isspace b) ++
          dropwhile isspace b)
    by (rewrite <- !app_assoc; reflexivity).
  rewrite scan_hit with (cs := @nil (nat * str)).
  - cbn [budget_pred option_map Nat.pred]. rewrite scan_closed.
    cbn [subst_pieces]. apply subst_keep_all.
  - rewrite <- !app_assoc. rewrite takewhile_dropwhile.
    apply strip_match_marker, Hb.
  - discriminate.
  - reflexivity.
Qed.

(** *** Placing the badge *)

Lemma p_tag_at_split (s tag rest : str) : p_tag_at s = Some (tag, rest) -> s = tag ++ rest.
Proof.
  unfold p_tag_at. destruct (startswith (lit "<p") s) eqn:E; [|discriminate].
  apply startswith_split in E. change (length (lit "<p")) with 2 in E.
  remember (skipn 2 s) as u eqn:Hu. clear Hu.
  pose proof (takewhile_dropwhile not_gt u) as H.
  destruct (dropwhile not_gt u) as [|c r]; [discriminate|].
  intro H0. inversion H0; subst tag rest.
  cbn [app]. rewrite <- app_assoc. cbn [app]. rewrite H. exact E.
Qed.

Lemma first_p_sub (f : rmatch -> str) (s : str) :
  re_sub first_p_re f s 1 =
    match p_tag_at s with
    | Some (tag, rest) => f (Match 0 tag [(1, tag)]) ++ rest
    | None => s
    end.
Proof.
  unfold re_sub, pieces. cbn [budget_of_count].
  destruct (p_tag_at s) as [[tag rest]|] eqn:E.
  - pose proof (p_tag_at_split _ E) as Hs. subst s.
    rewrite scan_hit with (cs := [(1, tag)]).
    + cbn [budget_pred option_map Nat.pred]. rewrite scan_closed.
      cbn [subst_pieces]. rewrite subst_keep_all. reflexivity.
    + rewrite p_tag_match, E. reflexivity.
    + intro Hn. subst tag. unfold p_tag_at in E.
      destruct (startswith (lit "<p") ([] ++ rest)); [|discriminate].
      destruct (dropwhile not_gt _); discriminate.
    + reflexivity.
  - destruct s as [|c s]; cbn [scan budget_open]; rewrite p_tag_match, E;
      [reflexivity|].
    cbn [subst_pieces]. f_equal.
    rewrite <- (app_nil_r s) at 1. rewrite scan_keep.
    + rewrite subst_keep. cbn [scan budget_open]. rewrite p_tag_match.
      destruct (last_char_some c s) as [d Hd]. rewrite Hd. cbn. apply app_nil_r.
    + intros a1 d a2 _. rewrite p_tag_match.
      destruct (last_char_some c a1) as [e He]. rewrite He. reflexivity.
Qed.

Lemma parse_plain (n : nat) (s : str) :
  forallb (fun c => negb (char_eqb c BSL)) s = true ->
  parse_template_from n TS_text s = Ok (map TChar s).
Proof.
  induction s as [|c s IH]; cbn [forallb parse_template_from tmpl_end map];
    [reflexivity|].
  intro H. apply andb_true_iff in H as [H1 H2]. apply negb_true_iff in H1.
  cbn [tmpl_step]. unfold text_step. rewrite H1. cbn [rbind].
  rewrite (IH H2). reflexivity.
Qed.

Lemma expand_plain (x : str) (mt : rmatch) :
  expand_template (map TChar x) mt = x.
Proof. induction x as [|c x IH]; cbn; [|rewrite IH]; reflexivity. Qed.

Lemma make_badge_shape (kind title : str) :
  forallb is_lower_ascii kind = true ->
  forallb (fun c => negb (char_eqb c BSL)) title = true ->
  make_badge kind title = LT :: tl (make_badge kind title) /\
  forallb (fun c => negb (char_eqb c BSL)) (tl (make_badge kind title)) = true.
Proof.
  intros Hk Ht. unfold make_badge.
  pose proof (forallb_weaken _ _ _ is_lower_not_bsl Hk) as Hk'.
  assert (E : lit "<span data-callout=" = LT :: tl (lit "<span data-callout="))
    by (vm_compute; reflexivity).
  destruct (nonempty title); rewrite E; cbn [app tl]; (split; [reflexivity|]);
    repeat (rewrite forallb_app || cbn [forallb]); rewrite Hk', ?Ht; reflexivity.
Qed.

Lemma parse_badge_template (r : str) :
  forallb (fun c => negb (char_eqb c BSL)) r = true ->
  parse_template 1 (BSL :: 49%N :: LT :: r) = Ok (TRef 1 :: TChar LT :: map TChar r).
Proof.
  intro Hr. unfold parse_template. cbn [parse_template_from].
  change (tmpl_step 1 TS_text BSL) with (Ok (@nil tok, TS_esc)). cbn [rbind].
  change (tmpl_step 1 TS_esc 49%N) with (Ok (@nil tok, TS_d1 1%N)). cbn [rbind].
  change (tmpl_step 1 (TS_d1 1%N) LT) with (Ok ([TRef 1; TChar LT], TS_text)).
  cbn [rbind]. rewrite (parse_plain 1 _ Hr). reflexivity.
Qed.

(** The template of the source: group 1, the badge, one space. *)
Lemma badge_template_sub (kind title s : str) :
  forallb is_lower_ascii kind = true ->
  forallb (fun c => negb (char_eqb c BSL)) title = true ->
  re_sub_template first_p_re 1 ([BSL; 49%N] ++ make_badge kind title ++ [SP]) s 1 =
    Ok (match p_tag_at s with
        | Some (tag, rest) => tag ++ make_badge kind title ++ [SP] ++ rest
        | None => s
        end).
Proof.
  intros Hk Ht. unfold re_sub_template.
  destruct (make_badge_shape kind title Hk Ht) as (Hr & Hn). rewrite Hr.
  generalize dependent (tl (make_badge kind title)). intros r _ Hn.
  cbn [app]. rewrite parse_badge_template
    by (rewrite forallb_app, Hn; reflexivity).
  cbn [rbind]. f_equal. rewrite first_p_sub.
  destruct (p_tag_at s) as [[tag rest]|]; [|reflexivity].
  cbn [expand_template]. unfold group_or_empty, group. cbn [m_caps lookup Nat.eqb].
  rewrite expand_plain, <- app_assoc. cbn [app]. rewrite <- app_assoc.
  reflexivity.
Qed.

Lemma plain_title_parts (title : str) :
  forallb plain_title_char title = true ->
  forallb not_dq title = true /\ forallb not_gt title = true /\
  forallb (fun c => negb (char_eqb c BSL)) title = true.
Proof.
  intro H. repeat split; revert H; apply forallb_weaken; intros c Hc;
    unfold plain_title_char in Hc; apply andb_true_iff in Hc as [Hc H3];
    apply andb_true_iff in Hc as [H1 H2]; assumption.
Qed.

Lemma str_eqb_longer (a b c : str) : b <> [] -> str_eqb (a ++ b ++ c) (a ++ c) = false.
Proof.
  intro Hb. apply str_eqb_neq. intro H. apply app_inv_head in H.
  apply (f_equal (@length char)) in H. rewrite length_app in H.
  destruct b; [congruence | cbn in H; lia].
Qed.

(** A block that holds a well-formed marker: the marker goes, the white
    space after it goes, and the badge is placed. *)
Lemma repl_block (pos : nat) (outer a kind title b : str) :
  contains (lit "<!--") a = false ->
  forallb is_lower_ascii kind = true -> kind <> [] ->
  forallb plain_title_char title = true ->
  repl (Match pos outer [(1, a ++ marker kind title ++ b)]) =
    Ok (OPEN ++ place_badge (make_badge kind title) (a ++ lstrip b) ++ CLOSE).
Proof.
  intros Ha Hk Hne Ht. destruct (plain_title_parts _ Ht) as (Hdq & Hgt & Hbs).
  unfold repl. change (group_or_empty (Match pos outer ?cs) 1)
    with (a ++ marker kind title ++ b).
  pose proof (search_comment (a ++ marker kind title ++ b) 0 None) as Hs.
  rewrite first_comment_marker in Hs by assumption.
  unfold re_search.
  destruct (search_from callout_comment_re 0 None (a ++ marker kind title ++ b))
    as [cm|]; [|discriminate].
  cbn [option_map] in Hs. injection Hs as Hc.
  assert (H1 : group_or_empty cm 1 = kind).
  { unfold group_or_empty, group. rewrite Hc. destruct (nonempty title); reflexivity. }
  assert (H2 : group_or_empty cm 2 = title).
  { unfold group_or_empty, group. rewrite Hc. destruct title; reflexivity. }
  rewrite H1, H2, strip_sub, badge_template_sub by assumption.
  cbn [rbind]. fold OPEN CLOSE. do 3 f_equal. unfold place_badge.
  destruct (p_tag_at (a ++ lstrip b)) as [[tag rest]|] eqn:E.
  - rewrite (p_tag_at_split _ E).
    replace (tag ++ make_badge kind title ++ [SP] ++ rest)
      with (tag ++ (make_badge kind title ++ [SP]) ++ rest)
      by (rewrite <- app_assoc; reflexivity).
    rewrite str_eqb_longer; [reflexivity|].
    intro Hn. apply app_eq_nil in Hn. destruct Hn as [_ Hn]. discriminate.
  - rewrite str_eqb_refl. reflexivity.
Qed.

(** *** A block inside a document *)

Lemma repl_ignores_start : ignores_start repl.
Proof. intros pos pos' t cs. reflexivity. Qed.

Lemma blockquote_prev (prev prev' : option char) (s : str) :
  match_here blockquote_re prev s = match_here blockquote_re prev' s.
Proof. rewrite !blockquote_match. reflexivity. Qed.

Lemma find_at (l inner post : str) :
  forallb not_lt l = true ->
  contains (LT :: l) inner = false ->
  find (LT :: l) (inner ++ (LT :: l) ++ post) = Some (length inner).
Proof.
  intros Hl.
  assert (Hx : stops not_lt ((LT :: l) ++ post)) by reflexivity.
  assert (H0 : startswith (LT :: l) ((LT :: l) ++ post) = true)
    by apply startswith_app.
  remember ((LT :: l) ++ post) as x eqn:Ex. clear Ex.
  induction inner as [|c inner IH]; intro Hno.
  - cbn [app length]. destruct x; cbn [find]; rewrite H0; reflexivity.
  - cbn [app find length].
    rewrite (@tag_not_in l (c :: inner) x Hl Hx Hno [] c inner eq_refl).
    rewrite IH; [reflexivity|].
    cbn [contains] in Hno. apply orb_false_iff in Hno. tauto.
Qed.

Lemma open_tag_not_in (a x : str) :
  contains OPEN a = false -> stops not_lt x ->
  forall a1 c a2, a = a1 ++ c :: a2 -> startswith OPEN (c :: a2 ++ x) = false.
Proof. intros Ha Hx. apply (@tag_not_in (lit "blockquote>") a x); auto. Qed.

Lemma find_close (inner post : str) :
  contains CLOSE inner = false ->
  find CLOSE (inner ++ CLOSE ++ post) = Some (length inner).
Proof. intro H. apply (@find_at (lit "/blockquote>") inner post); auto. Qed.

Lemma transform_block (pre inner post : str) :
  contains OPEN pre = false -> contains CLOSE inner = false ->
  transform_callouts (pre ++ OPEN ++ inner ++ CLOSE ++ post) =
    rbind (repl (Match 0 (OPEN ++ inner ++ CLOSE) [(1, inner)])) (fun x =>
    rbind (transform_callouts post) (fun y => Ok (pre ++ x ++ y))).
Proof.
  intros Hpre Hin. unfold transform_callouts, re_sub_exn, pieces.
  cbn [budget_of_count].
  rewrite scan_keep.
  2:{ intros a1 c a2 Heq. rewrite blockquote_match.
      rewrite (@open_tag_not_in pre (OPEN ++ inner ++ CLOSE ++ post) Hpre eq_refl
                 a1 c a2 Heq).
      reflexivity. }
  rewrite subst_exn_keep.
  replace (OPEN ++ inner ++ CLOSE ++ post) with ((OPEN ++ inner ++ CLOSE) ++ post)
    by (rewrite <- !app_assoc; reflexivity).
  rewrite scan_hit with (cs := [(1, inner)]).
  - cbn [subst_pieces_exn budget_pred option_map].
    rewrite (repl_ignores_start _ 0).
    destruct (repl (Match 0 (OPEN ++ inner ++ CLOSE) [(1, inner)])) as [x|e];
      [|reflexivity].
    cbn [rbind].
    rewrite (@subst_exn_scan_indep blockquote_re repl repl_ignores_start
               blockquote_prev post None 0 _ 0 _ None).
    destruct (subst_pieces_exn repl (scan blockquote_re None 0 0 None post));
      reflexivity.
  - rewrite blockquote_match, <- !app_assoc, startswith_app.
    replace (skipn 12 (OPEN ++ inner ++ CLOSE ++ post)) with (inner ++ CLOSE ++ post)
      by reflexivity.
    rewrite (find_close inner post Hin).
    rewrite firstn_app, Nat.sub_diag, firstn_all. cbn [firstn]. rewrite app_nil_r.
    reflexivity.
  - discriminate.
  - reflexivity.
Qed.

(** ** From a header line to a badge *)

Lemma lower_is_lower (kind : str) :
  forallb is_letter kind = true -> forallb is_lower_ascii (lower kind) = true.
Proof.
  unfold lower. induction kind as [|c k IH]; cbn [forallb map]; [reflexivity|].
  intro H. apply andb_true_iff in H as [H1 H2]. rewrite (IH H2), andb_true_r.
  apply is_letter_range in H1.
  unfold lower_char, is_upper_ascii, is_lower_ascii.
  destruct ((65 <=? c) && (c <=? 90))%N eqn:E.
  - apply andb_true_iff in E as [E1 E2]. apply N.leb_le in E1, E2.
    apply andb_true_iff; split; apply N.leb_le; lia.
  - apply andb_true_iff; split; apply N.leb_le;
      destruct (N.leb_spec 65 c), (N.leb_spec c 90); cbn in E; try discriminate; lia.
Qed.

Lemma lower_nonempty (kind : str) : kind <> [] -> lower kind <> [].
Proof. destruct kind; [congruence | discriminate]. Qed.

Lemma marker_line_marker (kind title : str) :
  marker_line kind title = lit "> " ++ marker kind title.
Proof. unfold marker_line, marker. destruct (nonempty title); reflexivity. Qed.

Lemma no_break_blank (g : str) : forallb is_blank g = true -> forallb no_break g = true.
Proof.
  apply forallb_weaken. intros c Hc. destruct (is_blank_cases c Hc); subst; reflexivity.
Qed.

Lemma no_break_letter (k : str) : forallb is_letter k = true -> forallb no_break k = true.
Proof.
  apply forallb_weaken. intros c Hc. apply is_letter_range in Hc.
  unfold no_break, char_eqb, CR, LF.
  apply andb_true_iff; split; apply negb_true_iff, N.eqb_neq; lia.
Qed.

(** The preprocessor on a text that is one line. *)
Lemma preprocess_one_line (l : str) :
  forallb no_break l = true -> preprocess_obsidian l = rewrite_line l.
Proof.
  intro H. rewrite preprocess_lines.
  rewrite normalize_fixed
    by (revert H; apply forallb_weaken; intros c Hc; apply no_break_parts, Hc).
  rewrite split_line_single
    by (revert H; apply forallb_weaken; intros c Hc; apply no_break_parts, Hc).
  reflexivity.
Qed.

(** The preprocessor on one header line. *)
Lemma preprocess_header (indent gap1 kind gap2 title : str) :
  forallb is_blank indent = true -> forallb is_blank gap1 = true ->
  forallb is_letter kind = true -> kind <> [] ->
  forallb is_blank gap2 = true -> forallb no_break title = true ->
  preprocess_obsidian
    (indent ++ [GT] ++ gap1 ++ lit "[!" ++ kind ++ lit "]" ++ gap2 ++ title) =
    lit "> " ++ marker (lower kind) (strip title).
Proof.
  intros Hi Hg1 Hk Hne Hg2 Ht.
  rewrite preprocess_one_line.
  - unfold rewrite_line. rewrite header_of_shape; try assumption.
    + rewrite strip_dropwhile_blank. apply marker_line_marker.
    + revert Ht. apply forallb_weaken. intros c Hc. apply no_break_parts, Hc.
  - rewrite !forallb_app, (no_break_blank _ Hi), (no_break_blank _ Hg1),
      (no_break_letter _ Hk), (no_break_blank _ Hg2), Ht. reflexivity.
Qed.

Lemma transform_nil : transform_callouts [] = Ok [].
Proof. reflexivity. Qed.

(** A document that is one block with a well-formed marker. *)
Lemma transform_marked_block (a kind title b : str) :
  contains (lit "<!--") a = false ->
  forallb is_lower_ascii kind = true -> kind <> [] ->
  forallb plain_title_char title = true ->
  contains CLOSE (a ++ marker kind title ++ b) = false ->
  forall post,
  transform_callouts (OPEN ++ (a ++ marker kind title ++ b) ++ CLOSE ++ post) =
    rbind (transform_callouts post) (fun y =>
      Ok (OPEN ++ place_badge (make_badge kind title) (a ++ lstrip b) ++ CLOSE ++ y)).
Proof.
  intros Ha Hk Hne Ht Hin post.
  pose proof (transform_block [] _ post eq_refl Hin) as H.
  cbn [app] in H. rewrite H.
  rewrite repl_block by assumption. cbn [rbind app].
  destruct (transform_callouts post); cbn [rbind]; [|reflexivity].
  rewrite <- !app_assoc. reflexivity.
Qed.

Lemma make_badge_eq (kind title : str) :
  make_badge kind title =
    lit "<span data-callout=" ++ [DQ] ++ kind ++ [DQ] ++ lit ">" ++ title ++ lit "</span>".
Proof. unfold make_badge. destruct title; reflexivity. Qed.

(** X1. From a header line to a badge. A header line whose title, once
    trimmed, holds no double quote, no [>] and no backslash is rewritten
    into the blockquote sign and the marker with the lowercased kind and
    the trimmed title; in a block that holds that marker, with no comment
    before it, the marker and the white space after it are removed and a
    badge with that kind and that title is placed: after the opening [<p]
    tag when the content starts with one, in front of the content
    otherwise. *)
Theorem callout_header_to_badge
  (indent gap1 kind gap2 title : str) :
  forallb is_blank indent = true -> forallb is_blank gap1 = true ->
  forallb is_letter kind = true -> kind <> [] ->
  forallb is_blank gap2 = true -> forallb no_break title = true ->
  forallb plain_title_char (strip title) = true ->
  preprocess_obsidian
    (indent ++ [GT] ++ gap1 ++ lit "[!" ++ kind ++ lit "]" ++ gap2 ++ title) =
    lit "> " ++ marker (lower kind) (strip title) /\
  make_badge (lower kind) (strip title) =
    lit "<span data-callout=" ++ [DQ] ++ lower kind ++ [DQ] ++ lit ">" ++
    strip title ++ lit "</span>" /\
  forall a b,
    contains (lit "<!--") a = false ->
    contains CLOSE (a ++ marker (lower kind) (strip title) ++ b) = false ->
    transform_callouts
      (OPEN ++ (a ++ marker (lower kind) (strip title) ++ b) ++ CLOSE) =
      Ok (OPEN ++
          place_badge (make_badge (lower kind) (strip title)) (a ++ lstrip b) ++
          CLOSE).
Proof.
  intros Hi Hg1 Hk Hne Hg2 Ht Hplain. split; [|split].
  - apply preprocess_header; assumption.
  - apply make_badge_eq.
  - intros a b Ha Hin.
    pose proof (@transform_marked_block a (lower kind) (strip title) b Ha
                  (lower_is_lower _ Hk) (lower_nonempty Hne) Hplain Hin []) as H.
    rewrite app_nil_r in H. rewrite H, transform_nil. cbn [rbind].
    rewrite app_nil_r. reflexivity.
Qed.

Lemma callout_header_to_badge_witness :
  preprocess_obsidian (lit "  > [!TIP]  Read me ") =
    lit "> " ++ marker (lit "tip") (lit "Read me") /\
  transform_callouts
    (OPEN ++ (lit "<p>" ++ marker (lit "tip") (lit "Read me") ++ lit " body</p>")
          ++ CLOSE) =
    Ok (OPEN ++ lit "<p>" ++ make_badge (lit "tip") (lit "Read me") ++ lit " body</p>"
             ++ CLOSE).
Proof.
  destruct (@callout_header_to_badge (lit "  ") [SP] (lit "TIP") (lit "  ")
              (lit "Read me ") eq_refl eq_refl eq_refl ltac:(discriminate)
              eq_refl eq_refl eq_refl) as (H1 & _ & H3).
  split; [exact H1|].
  exact (H3 (lit "<p>") (lit " body</p>") eq_refl eq_refl).
Defined.

(** ** Documents without block, nested blocks *)

Lemma blockquote_no_start (prev : option char) (s : str) :
  startswith OPEN s = false -> match_here blockquote_re prev s = None.
Proof. intro H. rewrite blockquote_match, H. reflexivity. Qed.

Lemma contains_false_suffix (l : str) : forall a1 a2,
  contains l (a1 ++ a2) = false -> startswith l a2 = false.
Proof.
  intros a1 a2 H. destruct (startswith l a2) eqn:E; [|reflexivity].
  rewrite (contains_suffix l a1 a2 E) in H. discriminate.
Qed.

Lemma transform_no_block (s : str) :
  contains OPEN s = false -> transform_callouts s = Ok s.
Proof.
  intro H. unfold transform_callouts, re_sub_exn, pieces. cbn [budget_of_count].
  rewrite <- (app_nil_r s) at 1. rewrite scan_keep.
  - rewrite subst_exn_keep. cbn [scan budget_open].
    rewrite blockquote_no_start by reflexivity. cbn. rewrite app_nil_r. reflexivity.
  - intros a1 c a2 Heq. apply blockquote_no_start. rewrite app_nil_r.
    apply (contains_false_suffix OPEN a1). rewrite <- Heq. exact H.
Qed.

(** A tag absent from [a] and from [x] is absent from [a ++ x] when [x]
    starts with [<]. *)
Lemma contains_app_tag (l a x : str) :
  forallb not_lt l = true -> stops not_lt x ->
  contains (LT :: l) a = false -> contains (LT :: l) x = false ->
  contains (LT :: l) (a ++ x) = false.
Proof.
  intros Hl Hx Ha Hxx. induction a as [|c a IH]; [exact Hxx|].
  cbn [app contains].
  rewrite (@tag_not_in l (c :: a) x Hl Hx Ha [] c a eq_refl). cbn [orb].
  apply IH. cbn [contains] in Ha. apply orb_false_iff in Ha. tauto.
Qed.

Lemma dropwhile_app_open (p : char -> bool) (u y : str) (c : char) (r : str) :
  dropwhile p u = c :: r ->
  dropwhile p (u ++ y) = c :: r ++ y /\ takewhile p (u ++ y) = takewhile p u.
Proof.
  induction u as [|x u IH]; cbn [dropwhile takewhile app]; [discriminate|].
  destruct (p x).
  - intro H. destruct (IH H) as [H1 H2]. rewrite H1, H2. split; reflexivity.
  - intro H. inversion H; subst. split; reflexivity.
Qed.

Lemma p_tag_at_app (x y tag r : str) :
  p_tag_at x = Some (tag, r) -> p_tag_at (x ++ y) = Some (tag, r ++ y).
Proof.
  unfold p_tag_at. destruct (startswith (lit "<p") x) eqn:E; [|discriminate].
  rewrite (startswith_prefix _ _ y E).
  apply startswith_split in E. change (length (lit "<p")) with 2 in E.
  remember (skipn 2 x) as u eqn:Hu.
  assert (Hs : skipn 2 (x ++ y) = u ++ y).
  { rewrite E. cbn [app skipn]. reflexivity. }
  rewrite Hs.
  destruct (dropwhile not_gt u) as [|c rest] eqn:Ed; [discriminate|].
  intro H. inversion H; subst tag r.
  destruct (dropwhile_app_open _ _ y Ed) as [H1 H2]. rewrite H1, H2. reflexivity.
Qed.

Lemma no_p_tag_before_open (x y : str) :
  startswith (lit "<p") x = false -> startswith (lit "<p") (x ++ OPEN ++ y) = false.
Proof.
  intro H. destruct x as [|c1 [|c2 x]]; try reflexivity.
  - cbn [app]. change (lit "<p") with [LT; 112%N]. cbn [startswith].
    change (OPEN ++ y) with (LT :: lit "blockquote>" ++ y). cbn [startswith].
    change (char_eqb 112%N LT) with false. cbn [andb]. apply andb_false_r.
  - change (lit "<p") with [LT; 112%N] in *. cbn [app startswith] in *. exact H.
Qed.

Lemma place_badge_before_open (badge x y : str) :
  p_tag_closed x = true ->
  place_badge badge (x ++ OPEN ++ y) = place_badge badge x ++ OPEN ++ y.
Proof.
  unfold p_tag_closed, place_badge. intro H.
  destruct (p_tag_at x) as [[tag r]|] eqn:E.
  - rewrite (p_tag_at_app x (OPEN ++ y) E). rewrite <- !app_assoc. reflexivity.
  - apply negb_true_iff in H.
    unfold p_tag_at at 1. rewrite (no_p_tag_before_open x y H).
    rewrite <- app_assoc. reflexivity.
Qed.

Lemma lstrip_before_open (b y : str) :
  lstrip (b ++ OPEN ++ y) = lstrip b ++ OPEN ++ y.
Proof.
  unfold lstrip. change (OPEN ++ y) with (LT :: lit "blockquote>" ++ y).
  apply dropwhile_stop. reflexivity.
Qed.

(** X2. A block ends at the first closing tag. When a block with a marker
    holds a nested quote after the marker, the replacement sees the text up
    to the closing tag of the nested quote: the badge is placed there, and
    what follows, the closing tag of the outer quote included, is left as
    it is. *)
Theorem nested_quote_after_marker (a kind title b1 nested rest : str) :
  contains (lit "<!--") a = false ->
  forallb is_lower_ascii kind = true -> kind <> [] ->
  forallb plain_title_char title = true ->
  contains CLOSE (a ++ marker kind title ++ b1 ++ OPEN ++ nested) = false ->
  contains OPEN rest = false ->
  p_tag_closed (a ++ lstrip b1) = true ->
  transform_callouts
    (OPEN ++ (a ++ marker kind title ++ b1 ++ OPEN ++ nested) ++ CLOSE ++
     rest ++ CLOSE) =
    Ok (OPEN ++ place_badge (make_badge kind title) (a ++ lstrip b1) ++
        OPEN ++ nested ++ CLOSE ++ rest ++ CLOSE).
Proof.
  intros Ha Hk Hne Ht Hin Hrest Hp.
  rewrite transform_marked_block by assumption.
  rewrite transform_no_block.
  - cbn [rbind]. rewrite lstrip_before_open.
    replace (a ++ lstrip b1 ++ OPEN ++ nested)
      with ((a ++ lstrip b1) ++ OPEN ++ nested) by (rewrite <- app_assoc; reflexivity).
    rewrite place_badge_before_open by exact Hp.
    rewrite <- !app_assoc. reflexivity.
  - apply (@contains_app_tag (lit "blockquote>") rest CLOSE);
      [reflexivity | reflexivity | exact Hrest | reflexivity].
Qed.

Lemma nested_quote_after_marker_witness :
  transform_callouts
    (OPEN ++ (lit "<p>" ++ marker (lit "tip") (lit "T") ++ lit " x</p>" ++ OPEN
                ++ lit "<p>q</p>") ++ CLOSE ++ lit "<p>z</p>" ++ CLOSE) =
    Ok (OPEN ++ place_badge (make_badge (lit "tip") (lit "T")) (lit "<p>" ++ lit "x</p>")
          ++ OPEN ++ lit "<p>q</p>" ++ CLOSE ++ lit "<p>z</p>" ++ CLOSE).
Proof.
  exact (@nested_quote_after_marker (lit "<p>") (lit "tip") (lit "T") (lit " x</p>")
           (lit "<p>q</p>") (lit "<p>z</p>")
           eq_refl eq_refl ltac:(discriminate) eq_refl eq_refl eq_refl eq_refl).
Defined.

(** ** Paths and their text *)

Lemma parts_eqb_eq (a b : list str) : parts_eqb a b = true <-> a = b.
Proof.
  revert b; induction a as [|x a IH]; intros [|y b]; cbn [parts_eqb];
    try (split; [discriminate | congruence]); [tauto|].
  rewrite andb_true_iff, str_eqb_eq, IH. split.
  - intros [-> ->]. reflexivity.
  - intro H. inversion H. auto.
Qed.

Lemma Path_eqb_eq (p q : Path) : Path_eqb p q = true <-> p = q.
Proof.
  unfold Path_eqb. rewrite andb_true_iff, parts_eqb_eq, Bool.eqb_true_iff.
  destruct p, q; cbn. split.
  - intros [-> ->]. reflexivity.
  - intro H. inversion H. auto.
Qed.

Lemma split_sep (c : char) (l r : str) :
  existsb (fun x => char_eqb x c) l = false ->
  split c (l ++ c :: r) = l :: split c r.
Proof.
  induction l as [|x l IH]; cbn [existsb app split]; intro H.
  - rewrite char_eqb_refl. reflexivity.
  - apply orb_false_iff in H as [H1 H2]. rewrite H1, (IH H2). reflexivity.
Qed.

Lemma split_join_sep (c : char) (ls : list str) :
  ls <> [] ->
  forallb (fun l => negb (existsb (fun x => char_eqb x c) l)) ls = true ->
  split c (join [c] ls) = ls.
Proof.
  induction ls as [|l ls IH]; [congruence|]. intros _ H.
  cbn [forallb] in H. apply andb_true_iff in H as [H1 H2].
  apply negb_true_iff in H1.
  destruct ls as [|l' ls].
  - apply split_no_sep, H1.
  - rewrite join_cons by discriminate. cbn [app].
    rewrite split_sep by exact H1. f_equal. apply IH; [discriminate | exact H2].
Qed.

Lemma forallb_imp (A : Type) (p q : A -> bool) (l : list A) :
  (forall x, p x = true -> q x = true) -> forallb p l = true -> forallb q l = true.
Proof.
  intro H. induction l as [|x l IH]; cbn [forallb]; [reflexivity|].
  intro H0. apply andb_true_iff in H0 as [H1 H2]. rewrite (H _ H1), (IH H2).
  reflexivity.
Qed.

Lemma wf_component_parts (c : str) :
  wf_component c = true ->
  c <> [] /\ c <> [DOT] /\ existsb (fun x => char_eqb x SLASH) c = false.
Proof.
  unfold wf_component, is_component, has_slash. intro H.
  apply andb_true_iff in H as [H1 H3]. apply andb_true_iff in H1 as [H1 H2].
  apply negb_true_iff in H2, H3. repeat split; [| |exact H3].
  - intro E. subst c. discriminate.
  - intro E. subst c. discriminate.
Qed.

Lemma wf_no_slash (ls : list str) :
  forallb wf_component ls = true ->
  forallb (fun l => negb (existsb (fun x => char_eqb x SLASH) l)) ls = true.
Proof.
  apply forallb_imp. intros c H. apply wf_component_parts in H as (_ & _ & H).
  rewrite H. reflexivity.
Qed.

Lemma filter_wf (ls : list str) :
  forallb wf_component ls = true -> filter is_component ls = ls.
Proof.
  induction ls as [|c ls IH]; cbn [forallb filter]; [reflexivity|].
  intro H. apply andb_true_iff in H as [H1 H2].
  unfold wf_component in H1. apply andb_true_iff in H1 as [H1 _].
  rewrite H1, (IH H2). reflexivity.
Qed.

Lemma components_join (ls : list str) :
  forallb wf_component ls = true ->
  filter is_component (split SLASH (join [SLASH] ls)) = ls.
Proof.
  intro H. destruct ls as [|c ls]; [reflexivity|].
  rewrite split_join_sep; [apply filter_wf, H | discriminate | apply wf_no_slash, H].
Qed.

(** The components of [str(p)] are those of [p]. *)
Lemma components_of_str (p : Path) :
  path_wf p = true ->
  filter is_component (split SLASH (str_of_Path p)) = p_parts p.
Proof.
  unfold path_wf, str_of_Path. intro H. destruct (p_abs p).
  - cbn [split]. rewrite char_eqb_refl. cbn [filter].
    change (is_component []) with false. cbv iota. apply components_join, H.
  - destruct (p_parts p) as [|c ls] eqn:E; [reflexivity|].
    apply components_join, H.
Qed.

Lemma startswith_slash_join (ls : list str) :
  forallb wf_component ls = true -> startswith [SLASH] (join [SLASH] ls) = false.
Proof.
  destruct ls as [|c ls]; [reflexivity|]. cbn [forallb]. intro H.
  apply andb_true_iff in H as [H _].
  apply wf_component_parts in H as (Hne & _ & Hs).
  destruct c as [|x c]; [congruence|]. cbn [existsb] in Hs.
  apply orb_false_iff in Hs as [Hs _].
  destruct ls; cbn [join app startswith];
    rewrite andb_true_r; unfold char_eqb in *; rewrite N.eqb_sym; exact Hs.
Qed.

Lemma abs_of_str (p : Path) :
  path_wf p = true -> startswith [SLASH] (str_of_Path p) = p_abs p.
Proof.
  unfold path_wf, str_of_Path. intro H. destruct (p_abs p).
  - cbn [startswith]. rewrite char_eqb_refl. reflexivity.
  - destruct (p_parts p) as [|c ls] eqn:E; [reflexivity|].
    apply startswith_slash_join, H.
Qed.

Lemma Path_of_str_of_Path (p : Path) :
  path_wf p = true -> Path_of_str (str_of_Path p) = p.
Proof.
  intro H. unfold Path_of_str. rewrite components_of_str, abs_of_str by exact H.
  destruct p; reflexivity.
Qed.

(** ** Where the destination lies *)

Lemma strip_prefix_self (pre rest : list str) :
  strip_prefix pre (pre ++ rest) = Some rest.
Proof.
  induction pre as [|x pre IH]; cbn [app strip_prefix]; [reflexivity|].
  rewrite str_eqb_refl. exact IH.
Qed.

Lemma path_wf_ok (p : Path) : path_wf p = true -> path_ok p = true.
Proof.
  unfold path_wf, path_ok. apply forallb_imp. intros c H.
  unfold wf_component in H. apply andb_true_iff in H as [_ H]. exact H.
Qed.

(** The destination in its two shapes. *)
Lemma compute_out_path_parts (self : ConvertTask) (md_path : Path) :
  path_ok md_path = true ->
  exists rel,
    _compute_out_path self md_path =
      MkPath (p_abs (out_dir self))
        (p_parts (out_dir self) ++ rel ++ [stem md_path ++ lit ".pdf"]) /\
    (rel = [] \/
     exists base, preserve_structure self = true /\ base_root self = Some base /\
                  p_abs (parent md_path) = p_abs base /\
                  p_parts (parent md_path) = p_parts base ++ rel).
Proof.
  intro Hok. unfold _compute_out_path.
  rewrite (Path_of_safe_name _ (stem_no_slash _ Hok)).
  destruct (preserve_structure self) eqn:Hp;
    [|exists []; split; [reflexivity | left; reflexivity]].
  destruct (base_root self) as [base|] eqn:Hb;
    [|exists []; split; [reflexivity | left; reflexivity]].
  destruct (is_relative_to (parent md_path) base) eqn:Hrel.
  - destruct (relative_to_ok _ _ Hrel) as (rel & Hr & Habs & Hparts).
    rewrite Hr. exists (p_parts rel). split.
    + unfold joinpath. rewrite Habs. cbn. rewrite <- app_assoc. reflexivity.
    + right. exists base. repeat split.
      * unfold is_relative_to in Hrel. apply andb_true_iff in Hrel as [Hrel _].
        apply Bool.eqb_prop, Hrel.
      * apply strip_prefix_app, Hparts.
  - destruct (relative_to_raise _ _ Hrel) as (e & Hr). rewrite Hr.
    exists []. split; [|left; reflexivity].
    unfold joinpath, Path_empty. cbn. rewrite app_nil_r. reflexivity.
Qed.

Lemma is_relative_to_parts (a b : Path) :
  is_relative_to a b = true <->
  p_abs a = p_abs b /\ exists rest, p_parts a = p_parts b ++ rest.
Proof.
  unfold is_relative_to. rewrite andb_true_iff, Bool.eqb_true_iff. split.
  - intros [H1 H2]. split; [exact H1|].
    destruct (strip_prefix (p_parts b) (p_parts a)) as [rest|] eqn:E; [|discriminate].
    exists rest. apply strip_prefix_app, E.
  - intros [H1 [rest H2]]. split; [exact H1|].
    rewrite H2, strip_prefix_self. reflexivity.
Qed.

Lemma parent_parts (p : Path) :
  p_parts p <> [] -> p_parts p = p_parts (parent p) ++ [name p].
Proof. intro H. unfold parent, name. cbn. apply app_removelast_last, H. Qed.

(** ** The order of [min] and [max] *)


Lemma str_ltb_irrefl (a : str) : str_ltb a a = false.
Proof.
  induction a as [|x a IH]; [reflexivity|]. cbn [str_ltb].
  rewrite N.ltb_irrefl, char_eqb_refl, IH. reflexivity.
Qed.

Lemma str_trichotomy (a b : str) :
  str_ltb a b = true \/ a = b \/ str_ltb b a = true.
Proof.
  revert b; induction a as [|x a IH]; intros [|y b]; cbn [str_ltb]; auto.
  destruct (N.ltb_spec x y) as [H|H]; [left; reflexivity|].
  destruct (N.ltb_spec y x) as [H'|H']; [right; right; reflexivity|].
  assert (x = y) by lia. subst y. rewrite char_eqb_refl. cbn [orb andb].
  destruct (IH b) as [H1|[H1|H1]]; [left; exact H1 | right; left; congruence
                                    | right; right; exact H1].
Qed.

Lemma str_ltb_asym (a b : str) : str_ltb a b = true -> str_ltb b a = false.
Proof.
  revert b; induction a as [|x a IH]; intros [|y b]; cbn [str_ltb]; try discriminate;
    [reflexivity|].
  intro H. apply orb_true_iff in H as [H|H].
  - apply N.ltb_lt in H. apply orb_false_iff. split.
    + apply N.ltb_ge. lia.
    + replace (char_eqb y x) with false; [reflexivity|].
      symmetry. apply N.eqb_neq. lia.
  - apply andb_true_iff in H as [H1 H2]. apply N.eqb_eq in H1. subst y.
    rewrite N.ltb_irrefl, char_eqb_refl, (IH _ H2). reflexivity.
Qed.

Lemma str_ltb_trans (a b c : str) :
  str_ltb a b = true -> str_ltb b c = true -> str_ltb a c = true.
Proof.
  revert b c; induction a as [|x a IH]; intros [|y b] [|z c]; cbn [str_ltb];
    try discriminate; try reflexivity.
  intros H1 H2. apply orb_true_iff in H1, H2. apply orb_true_iff.
  destruct H1 as [H1|H1], H2 as [H2|H2].
  - left. apply N.ltb_lt in H1, H2. apply N.ltb_lt. lia.
  - apply andb_true_iff in H2 as [H2 _]. apply N.eqb_eq in H2. subst z. auto.
  - apply andb_true_iff in H1 as [H1 _]. apply N.eqb_eq in H1. subst y. auto.
  - apply andb_true_iff in H1 as [H1 H1'], H2 as [H2 H2'].
    apply N.eqb_eq in H1, H2. subst y z. right.
    rewrite char_eqb_refl. cbn [andb]. eapply IH; eauto.
Qed.

Lemma parts_ltb_irrefl (a : list str) : parts_ltb a a = false.
Proof.
  induction a as [|x a IH]; [reflexivity|]. cbn [parts_ltb].
  rewrite str_ltb_irrefl, str_eqb_refl, IH. reflexivity.
Qed.


Lemma parts_trichotomy (a b : list str) :
  parts_ltb a b = true \/ a = b \/ parts_ltb b a = true.
Proof.
  revert b; induction a as [|x a IH]; intros [|y b]; cbn [parts_ltb]; auto.
  destruct (str_trichotomy x y) as [H|[H|H]].
  - left. rewrite H. reflexivity.
  - subst y. rewrite str_ltb_irrefl, str_eqb_refl. cbn [orb andb].
    destruct (IH b) as [H1|[H1|H1]]; [left; exact H1 | right; left; congruence
                                      | right; right; exact H1].
  - right; right. rewrite H. reflexivity.
Qed.

Lemma parts_ltb_asym (a b : list str) : parts_ltb a b = true -> parts_ltb b a = false.
Proof.
  revert b; induction a as [|x a IH]; intros [|y b]; cbn [parts_ltb]; try discriminate;
    [reflexivity|].
  intro H. apply orb_true_iff in H as [H|H].
  - rewrite (str_ltb_asym _ _ H). cbn [orb].
    destruct (str_eqb y x) eqn:E; [|reflexivity].
    apply str_eqb_eq in E. subst y. rewrite str_ltb_irrefl in H. discriminate.
  - apply andb_true_iff in H as [H1 H2]. apply str_eqb_eq in H1. subst y.
    rewrite str_ltb_irrefl, str_eqb_refl, (IH _ H2). reflexivity.
Qed.

Lemma parts_ltb_trans (a b c : list str) :
  parts_ltb a b = true -> parts_ltb b c = true -> parts_ltb a c = true.
Proof.
  revert b c; induction a as [|x a IH]; intros [|y b] [|z c]; cbn [parts_ltb];
    try discriminate; try reflexivity.
  intros H1 H2. apply orb_true_iff in H1, H2. apply orb_true_iff.
  destruct H1 as [H1|H1], H2 as [H2|H2].
  - left. eapply str_ltb_trans; eauto.
  - apply andb_true_iff in H2 as [H2 _]. apply str_eqb_eq in H2. subst z. auto.
  - apply andb_true_iff in H1 as [H1 _]. apply str_eqb_eq in H1. subst y. auto.
  - apply andb_true_iff in H1 as [H1 H1'], H2 as [H2 H2'].
    apply str_eqb_eq in H1, H2. subst y z. right.
    rewrite str_eqb_refl. cbn [andb]. eapply IH; eauto.
Qed.

Lemma parts_leb_refl (a : list str) : parts_leb a a = true.
Proof. unfold parts_leb. rewrite parts_ltb_irrefl. reflexivity. Qed.

Lemma parts_leb_cases (a b : list str) :
  parts_leb a b = true <-> parts_ltb a b = true \/ a = b.
Proof.
  unfold parts_leb. rewrite negb_true_iff. split.
  - intro H. destruct (parts_trichotomy a b) as [H1|[H1|H1]]; auto. congruence.
  - intros [H| ->]; [apply parts_ltb_asym, H | apply parts_ltb_irrefl].
Qed.

Lemma parts_leb_trans (a b c : list str) :
  parts_leb a b = true -> parts_leb b c = true -> parts_leb a c = true.
Proof.
  rewrite !parts_leb_cases. intros [H1| ->] [H2| ->]; auto.
  left. eapply parts_ltb_trans; eauto.
Qed.

Lemma parts_ltb_leb (a b : list str) : parts_ltb a b = true -> parts_leb a b = true.
Proof. intro H. apply parts_leb_cases. auto. Qed.

Lemma min_parts_spec (l : list (list str)) : forall x,
  In (min_parts x l) (x :: l) /\
  forall y, In y (x :: l) -> parts_leb (min_parts x l) y = true.
Proof.
  unfold min_parts. induction l as [|z l IH]; intro x; cbn [fold_left].
  - split; [left; reflexivity|]. intros y [<-|[]]. apply parts_leb_refl.
  - destruct (parts_ltb z x) eqn:E.
    + destruct (IH z) as [Hin Hle]. split.
      * destruct Hin as [Hin|Hin]; [right; left; exact Hin | right; right; exact Hin].
      * intros y [<-|Hy]; [|apply Hle, Hy].
        eapply parts_leb_trans; [apply Hle; left; reflexivity|].
        apply parts_ltb_leb, E.
    + destruct (IH x) as [Hin Hle]. split.
      * destruct Hin as [Hin|Hin]; [left; exact Hin | right; right; exact Hin].
      * intros y [<-|[<-|Hy]].
        -- apply Hle. left. reflexivity.
        -- eapply parts_leb_trans; [apply Hle; left; reflexivity|].
           unfold parts_leb. rewrite E. reflexivity.
        -- apply Hle. right. exact Hy.
Qed.

Lemma max_parts_spec (l : list (list str)) : forall x,
  In (max_parts x l) (x :: l) /\
  forall y, In y (x :: l) -> parts_leb y (max_parts x l) = true.
Proof.
  unfold max_parts. induction l as [|z l IH]; intro x; cbn [fold_left].
  - split; [left; reflexivity|]. intros y [<-|[]]. apply parts_leb_refl.
  - destruct (parts_ltb x z) eqn:E.
    + destruct (IH z) as [Hin Hle]. split.
      * destruct Hin as [Hin|Hin]; [right; left; exact Hin | right; right; exact Hin].
      * intros y [<-|Hy]; [|apply Hle, Hy].
        eapply parts_leb_trans; [|apply Hle; left; reflexivity].
        apply parts_ltb_leb, E.
    + destruct (IH x) as [Hin Hle]. split.
      * destruct Hin as [Hin|Hin]; [left; exact Hin | right; right; exact Hin].
      * intros y [<-|[<-|Hy]].
        -- apply Hle. left. reflexivity.
        -- eapply parts_leb_trans; [|apply Hle; left; reflexivity].
           unfold parts_leb. rewrite E. reflexivity.
        -- apply Hle. right. exact Hy.
Qed.

(** What lies between two lists in that order starts with their common
    prefix. *)
Lemma common_prefix_between : forall s1 s2 y,
  parts_leb s1 y = true -> parts_leb y s2 = true ->
  is_prefix (common_prefix s1 s2) y = true.
Proof.
  unfold is_prefix, parts_leb.
  induction s1 as [|x s1 IH]; intros s2 y H1 H2; [reflexivity|].
  destruct s2 as [|z s2]; [reflexivity|]. cbn [common_prefix].
  destruct (str_eqb x z) eqn:E; [|reflexivity].
  apply str_eqb_eq in E. subst z.
  apply negb_true_iff in H1, H2.
  destruct y as [|w y]; [discriminate H1|].
  cbn [parts_ltb] in H1, H2.
  apply orb_false_iff in H1 as [H1 H1'], H2 as [H2 H2'].
  destruct (str_trichotomy x w) as [H|[H|H]]; try congruence.
  subst w. rewrite str_eqb_refl in *. cbn [andb] in *.
  cbn [strip_prefix]. rewrite str_eqb_refl.
  apply IH; apply negb_true_iff; assumption.
Qed.

Lemma is_prefix_common : forall c s1 s2,
  is_prefix c s1 = true -> is_prefix c s2 = true ->
  is_prefix c (common_prefix s1 s2) = true.
Proof.
  unfold is_prefix. induction c as [|x c IH]; intros s1 s2 H1 H2; [reflexivity|].
  destruct s1 as [|y s1]; [discriminate|]. destruct s2 as [|z s2]; [discriminate|].
  cbn [strip_prefix] in *.
  destruct (str_eqb x y) eqn:E1; [|discriminate].
  destruct (str_eqb x z) eqn:E2; [|discriminate].
  apply str_eqb_eq in E1, E2. subst y z.
  cbn [common_prefix]. rewrite str_eqb_refl. cbn [strip_prefix].
  rewrite str_eqb_refl. apply IH; assumption.
Qed.

Lemma is_prefix_iff (pre l : list str) :
  is_prefix pre l = true <-> exists rest, l = pre ++ rest.
Proof.
  unfold is_prefix. split.
  - destruct (strip_prefix pre l) as [rest|] eqn:E; [|discriminate].
    intros _. exists rest. apply strip_prefix_app, E.
  - intros [rest ->]. rewrite strip_prefix_self. reflexivity.
Qed.

Lemma common_prefix_is_prefix (s1 s2 : list str) :
  is_prefix (common_prefix s1 s2) s1 = true.
Proof.
  unfold is_prefix. revert s2; induction s1 as [|x s1 IH]; intros [|z s2];
    try reflexivity.
  cbn [common_prefix]. destruct (str_eqb x z); [|reflexivity].
  cbn [strip_prefix]. rewrite str_eqb_refl. apply IH.
Qed.

Lemma forallb_prefix (A : Type) (f : A -> bool) (pre rest : list A) :
  forallb f (pre ++ rest) = true -> forallb f pre = true.
Proof. rewrite forallb_app. intro H. apply andb_true_iff in H. tauto. Qed.

(** ** The common base of a batch *)

Lemma commonpath_abs (p0 : Path) (ps : list Path) :
  (forall p, In p (p0 :: ps) -> p_abs p = true /\ path_wf p = true) ->
  commonpath (map str_of_Path (p0 :: ps)) =
    Ok (SLASH :: join [SLASH]
          (common_prefix (min_parts (p_parts p0) (map p_parts ps))
                         (max_parts (p_parts p0) (map p_parts ps)))).
Proof.
  intro H. unfold commonpath. cbn [map].
  destruct (H p0 (or_introl eq_refl)) as [Ha0 Hw0].
  rewrite (abs_of_str _ Hw0), Ha0.
  assert (Hall : forallb (fun p => Bool.eqb (startswith [SLASH] p) true)
                   (map str_of_Path ps) = true).
  { apply forallb_forall. intros s Hs. apply in_map_iff in Hs as (p & <- & Hp).
    destruct (H p (or_intror Hp)) as [Ha Hw]. rewrite (abs_of_str _ Hw), Ha.
    reflexivity. }
  rewrite Hall. rewrite (components_of_str _ Hw0).
  assert (Hmap : map (fun p => filter is_component (split SLASH p)) (map str_of_Path ps)
                 = map p_parts ps).
  { rewrite map_map. apply map_ext_in. intros p Hp.
    apply components_of_str. apply (H p (or_intror Hp)). }
  rewrite Hmap. reflexivity.
Qed.

Lemma wf_prefix (pre l : list str) :
  is_prefix pre l = true -> forallb wf_component l = true ->
  forallb wf_component pre = true.
Proof.
  intros H Hl. apply is_prefix_iff in H as [rest ->].
  apply (forallb_prefix _ _ _ Hl).
Qed.

(** The base of a non-empty batch of anchored paths, by its components. *)
Lemma common_base_parts (resolve : Path -> Path) (p0 : Path) (ps : list Path) :
  (forall p, In p (p0 :: ps) -> p_abs (resolve p) = true /\ path_wf (resolve p) = true) ->
  _common_base resolve (p0 :: ps) =
    Some (MkPath true
            (common_prefix
               (min_parts (p_parts (resolve p0)) (map p_parts (map resolve ps)))
               (max_parts (p_parts (resolve p0)) (map p_parts (map resolve ps))))).
Proof.
  intro H. unfold _common_base.
  replace (map (fun p => str_of_Path (resolve p)) (p0 :: ps))
    with (map str_of_Path (resolve p0 :: map resolve ps))
    by (cbn [map]; rewrite map_map; reflexivity).
  rewrite commonpath_abs.
  - f_equal.
    set (s1 := min_parts _ _). set (s2 := max_parts _ _).
    apply (Path_of_str_of_Path (MkPath true (common_prefix s1 s2))).
    unfold path_wf. cbn [p_parts].
    apply (wf_prefix (common_prefix s1 s2) s1 (common_prefix_is_prefix s1 s2)).
    destruct (min_parts_spec (map p_parts (map resolve ps)) (p_parts (resolve p0)))
      as [Hin _]. fold s1 in Hin.
    destruct Hin as [Hin|Hin].
    + rewrite <- Hin. apply (H p0). left. reflexivity.
    + apply in_map_iff in Hin as (q & <- & Hq).
      apply in_map_iff in Hq as (p & <- & Hp). apply (H p). right. exact Hp.
  - intros p [<-|Hp]; [apply (H p0); left; reflexivity|].
    apply in_map_iff in Hp as (q & <- & Hq). apply (H q). right. exact Hq.
Qed.

Lemma in_parts_list (resolve : Path -> Path) (p0 p : Path) (ps : list Path) :
  In p (p0 :: ps) ->
  In (p_parts (resolve p)) (p_parts (resolve p0) :: map p_parts (map resolve ps)).
Proof.
  intros [<-|Hp]; [left; reflexivity|]. right.
  apply in_map, in_map, Hp.
Qed.

Lemma common_base_ancestor (resolve : Path -> Path) (paths : list Path) :
  paths <> [] ->
  (forall p, In p paths -> p_abs (resolve p) = true /\ path_wf (resolve p) = true) ->
  exists base,
    _common_base resolve paths = Some base /\
    (forall p, In p paths -> is_relative_to (resolve p) base = true) /\
    (forall c, p_abs c = true ->
               (forall p, In p paths -> is_relative_to (resolve p) c = true) ->
               is_relative_to base c = true).
Proof.
  intros Hne H. destruct paths as [|p0 ps]; [congruence|].
  rewrite (@common_base_parts resolve p0 ps H).
  set (l := map p_parts (map resolve ps)). set (x := p_parts (resolve p0)).
  destruct (min_parts_spec l x) as [Hmin_in Hmin].
  destruct (max_parts_spec l x) as [Hmax_in Hmax].
  eexists. split; [reflexivity|]. split.
  - intros p Hp. unfold is_relative_to. cbn [p_abs p_parts].
    destruct (H p Hp) as [Ha _]. rewrite Ha. cbn [Bool.eqb andb].
    pose proof (@in_parts_list resolve p0 p ps Hp) as Hin. fold l x in Hin.
    apply (common_prefix_between _ _ _ (Hmin _ Hin) (Hmax _ Hin)).
  - intros c Hc Hall. unfold is_relative_to. cbn [p_abs p_parts].
    rewrite Hc. cbn [Bool.eqb andb].
    assert (Hpre : forall y, In y (x :: l) -> is_prefix (p_parts c) y = true).
    { intros y [<-|Hy].
      - specialize (Hall p0 (or_introl eq_refl)). unfold is_relative_to in Hall.
        apply andb_true_iff in Hall as [_ Hall]. exact Hall.
      - unfold l in Hy. apply in_map_iff in Hy as (q & <- & Hq).
        apply in_map_iff in Hq as (p & <- & Hp).
        specialize (Hall p (or_intror Hp)). unfold is_relative_to in Hall.
        apply andb_true_iff in Hall as [_ Hall]. exact Hall. }
    apply (is_prefix_common _ _ _ (Hpre _ Hmin_in) (Hpre _ Hmax_in)).
Qed.

(** X8. The base computed for a non-empty batch of anchored paths is their
    deepest common ancestor: every path of the batch lies under it, and it
    lies under every other anchored path that all of them lie under. *)
Theorem common_base_deepest_ancestor (resolve : Path -> Path) (paths : list Path) :
  paths <> [] ->
  (forall p, In p paths -> p_abs (resolve p) = true /\ path_wf (resolve p) = true) ->
  exists base,
    _common_base resolve paths = Some base /\
    (forall p, In p paths -> is_relative_to (resolve p) base = true) /\
    (forall c, p_abs c = true ->
               (forall p, In p paths -> is_relative_to (resolve p) c = true) ->
               is_relative_to base c = true).
Proof. apply common_base_ancestor. Qed.

Lemma common_base_deepest_ancestor_witness :
  exists base,
    _common_base (fun p => p)
      [Path_of_str (lit "/a/b/x.md"); Path_of_str (lit "/a/c/y.md")] = Some base /\
    is_relative_to (Path_of_str (lit "/a/c/y.md")) base = true.
Proof.
  destruct (@common_base_deepest_ancestor (fun p => p)
              [Path_of_str (lit "/a/b/x.md"); Path_of_str (lit "/a/c/y.md")])
    as (base & Hb & Hall & _).
  - discriminate.
  - intros p [<-|[<-|[]]]; split; reflexivity.
  - exists base. split; [exact Hb|]. apply Hall. right. left. reflexivity.
Defined.

Lemma strip_prefix_length (pre l rest : list str) :
  strip_prefix pre l = Some rest -> length l = length pre + length rest.
Proof.
  intro H. apply strip_prefix_app in H. subst l. apply length_app.
Qed.

Lemma parent_not_under_self (p : Path) :
  p_parts p <> [] -> is_relative_to (parent p) p = false.
Proof.
  intro H. unfold is_relative_to.
  destruct (strip_prefix (p_parts p) (p_parts (parent p))) as [rest|] eqn:E;
    [|apply andb_false_r].
  apply strip_prefix_length in E.
  pose proof (parent_parts p H) as Hp. apply (f_equal (@length str)) in Hp.
  rewrite length_app in Hp. cbn [length] in Hp. lia.
Qed.

Lemma common_prefix_refl (l : list str) : common_prefix l l = l.
Proof.
  induction l as [|c l IH]; [reflexivity|].
  cbn [common_prefix]. rewrite str_eqb_refl, IH. reflexivity.
Qed.

Lemma single_abs (p : Path) :
  p_abs p = true -> MkPath true (p_parts p) = p.
Proof. destruct p. cbn. intros ->. reflexivity. Qed.

Lemma common_base_single (resolve : Path -> Path) (p : Path) :
  p_abs (resolve p) = true -> path_wf (resolve p) = true ->
  _common_base resolve [p] = Some (resolve p).
Proof.
  intros Ha Hw. rewrite common_base_parts.
  - cbn [map min_parts max_parts fold_left]. f_equal.
    rewrite common_prefix_refl. apply single_abs, Ha.
  - intros q [<-|[]]. split; assumption.
Qed.

Lemma common_base_some (resolve : Path -> Path) (p0 : Path) (ps : list Path) :
  (forall x, p_abs (resolve x) = true) ->
  exists base, _common_base resolve (p0 :: ps) = Some base.
Proof.
  intro H. unfold _common_base, commonpath. cbn [map].
  assert (Hs : forall x, startswith [SLASH] (str_of_Path (resolve x)) = true).
  { intro x. unfold str_of_Path. rewrite (H x). cbn [startswith].
    rewrite char_eqb_refl. reflexivity. }
  rewrite Hs.
  assert (Hall : forallb (fun p => Bool.eqb (startswith [SLASH] p) true)
                   (map (fun p => str_of_Path (resolve p)) ps) = true).
  { apply forallb_forall. intros s Hin. apply in_map_iff in Hin as (x & <- & _).
    rewrite Hs. reflexivity. }
  rewrite Hall. eexists. reflexivity.
Qed.

(** X9. For a batch of one anchored file the computed base is the file
    itself, and with that base the destination of the file lies directly
    under the output root. *)
Theorem single_file_base_is_the_file
  (resolve : Path -> Path) (self : ConvertTask) (p : Path) :
  p_abs (resolve p) = true -> path_wf (resolve p) = true ->
  p_parts (resolve p) <> [] ->
  _common_base resolve [p] = Some (resolve p) /\
  (base_root self = _common_base resolve [p] ->
   _compute_out_path self (resolve p) =
     joinpath (out_dir self) (MkPath false [stem (resolve p) ++ lit ".pdf"])).
Proof.
  intros Ha Hw Hne.
  pose proof (common_base_single resolve p Ha Hw) as Hb.
  split; [exact Hb|]. intro Hbase. rewrite Hb in Hbase.
  pose proof (path_wf_ok _ Hw) as Hok.
  unfold _compute_out_path.
  rewrite (Path_of_safe_name _ (stem_no_slash _ Hok)), Hbase.
  destruct (preserve_structure self); [|reflexivity].
  destruct (relative_to_raise _ _ (parent_not_under_self _ Hne)) as (e & ->).
  unfold joinpath, Path_empty. cbn. rewrite app_nil_r. reflexivity.
Qed.

Lemma single_file_base_is_the_file_witness :
  _common_base (fun p => p) [Path_of_str (lit "/v/notes/x.md")]
    = Some (Path_of_str (lit "/v/notes/x.md")).
Proof.
  exact (proj1 (@single_file_base_is_the_file (fun p => p)
                  (MkTask [] (Path_of_str (lit "/out")) [] [] true None)
                  (Path_of_str (lit "/v/notes/x.md"))
                  eq_refl eq_refl ltac:(discriminate))).
Defined.

(** X10. With a base computed from a batch in which some file does not lie
    under [p], the directory of [p] lies under the base, and the destination
    of [p] mirrors it under the output root. *)
Theorem autodetected_base_mirrors
  (resolve : Path -> Path) (self : ConvertTask) (p q : Path) :
  (forall x, In x (files self) ->
             resolve x = x /\ p_abs x = true /\ path_wf x = true) ->
  In p (files self) -> In q (files self) ->
  is_relative_to q p = false ->
  preserve_structure self = true ->
  base_root self = _common_base resolve (files self) ->
  exists base rel,
    base_root self = Some base /\
    p_parts (parent p) = p_parts base ++ rel /\
    _compute_out_path self p =
      joinpath (joinpath (out_dir self) (MkPath false rel))
               (MkPath false [stem p ++ lit ".pdf"]).
Proof.
  intros Hfiles Hp Hq Hnot Hpres Hbase.
  assert (Hres : forall x, In x (files self) ->
                   p_abs (resolve x) = true /\ path_wf (resolve x) = true).
  { intros x Hx. destruct (Hfiles x Hx) as (-> & Ha & Hw). auto. }
  assert (Hne : files self <> []).
  { intro E. rewrite E in Hp. exact Hp. }
  destruct (common_base_ancestor resolve Hne Hres) as (base & Hb & Hall & _).
  rewrite Hb in Hbase.
  pose proof (Hall p Hp) as Hpb. pose proof (Hall q Hq) as Hqb.
  destruct (Hfiles p Hp) as (Hrp & Hap & Hwp).
  destruct (Hfiles q Hq) as (Hrq & Haq & Hwq).
  rewrite Hrp in Hpb. rewrite Hrq in Hqb.
  apply is_relative_to_parts in Hpb as [Habs [rest Hrest]].
  apply is_relative_to_parts in Hqb as [Habsq [restq Hrestq]].
  assert (Hrne : rest <> []).
  { intro E. subst rest. rewrite app_nil_r in Hrest.
    assert (is_relative_to q p = true); [|congruence].
    apply is_relative_to_parts. split; [congruence|].
    exists restq. rewrite Hrest. exact Hrestq. }
  assert (Hpne : p_parts p <> []).
  { rewrite Hrest. intro E. apply app_eq_nil in E. tauto. }
  assert (Hpar : p_parts (parent p) = p_parts base ++ removelast rest).
  { unfold parent. cbn [p_parts]. rewrite Hrest. apply removelast_app, Hrne. }
  exists base, (removelast rest). split; [exact Hbase|]. split; [exact Hpar|].
  pose proof (path_wf_ok _ Hwp) as Hok.
  unfold _compute_out_path.
  rewrite (Path_of_safe_name _ (stem_no_slash _ Hok)), Hbase, Hpres.
  unfold relative_to. unfold parent at 1. cbn [p_abs]. rewrite Habs, Bool.eqb_reflx.
  rewrite Hpar, strip_prefix_self. reflexivity.
Qed.

Lemma autodetected_base_mirrors_witness :
  exists base rel,
    Some base = Some (Path_of_str (lit "/v")) /\
    p_parts (parent (Path_of_str (lit "/v/a/x.md"))) = p_parts base ++ rel /\
    _compute_out_path
      (MkTask [Path_of_str (lit "/v/a/x.md"); Path_of_str (lit "/v/b/y.md")]
         (Path_of_str (lit "/out")) [] [] true (Some (Path_of_str (lit "/v"))))
      (Path_of_str (lit "/v/a/x.md")) =
      joinpath (joinpath (Path_of_str (lit "/out")) (MkPath false rel))
               (MkPath false [stem (Path_of_str (lit "/v/a/x.md")) ++ lit ".pdf"]).
Proof.
  destruct (@autodetected_base_mirrors (fun p => p)
              (MkTask [Path_of_str (lit "/v/a/x.md"); Path_of_str (lit "/v/b/y.md")]
                 (Path_of_str (lit "/out")) [] [] true (Some (Path_of_str (lit "/v"))))
              (Path_of_str (lit "/v/a/x.md")) (Path_of_str (lit "/v/b/y.md")))
    as (base & rel & H1 & H2 & H3).
  - intros x [<-|[<-|[]]]; repeat split; reflexivity.
  - left. reflexivity.
  - right. left. reflexivity.
  - reflexivity.
  - reflexivity.
  - reflexivity.
  - exists base, rel. cbn [base_root out_dir] in *. repeat split; auto.
Defined.

(** ** Destinations *)

(** X6. Whatever the settings, the destination of a source lies under the
    output root. *)
Theorem destination_under_output_root (self : ConvertTask) (md_path : Path) :
  path_ok md_path = true ->
  is_relative_to (_compute_out_path self md_path) (out_dir self) = true.
Proof.
  intro Hok. destruct (@compute_out_path_parts self md_path Hok) as (rel & -> & _).
  apply is_relative_to_parts. cbn [p_abs p_parts]. split; [reflexivity|].
  eexists. reflexivity.
Qed.

Lemma destination_under_output_root_witness :
  is_relative_to
    (_compute_out_path
       (MkTask [] (Path_of_str (lit "/out")) [] [] true (Some (Path_of_str (lit "/v"))))
       (Path_of_str (lit "/v/a/x.md")))
    (Path_of_str (lit "/out")) = true.
Proof.
  exact (@destination_under_output_root
           (MkTask [] (Path_of_str (lit "/out")) [] [] true (Some (Path_of_str (lit "/v"))))
           (Path_of_str (lit "/v/a/x.md")) eq_refl).
Defined.

Lemma app_pdf_inj (a b : str) : a ++ lit ".pdf" = b ++ lit ".pdf" -> a = b.
Proof. apply app_inv_tail. Qed.

(** X7. When the structure is preserved, two different sources that lie
    under the base root and have the same suffix never share a
    destination. *)
Theorem destinations_distinct_under_base (self : ConvertTask) (base a b : Path) :
  preserve_structure self = true -> base_root self = Some base ->
  path_ok a = true -> path_ok b = true ->
  p_parts a <> [] -> p_parts b <> [] ->
  is_relative_to (parent a) base = true ->
  is_relative_to (parent b) base = true ->
  suffix a = suffix b ->
  a <> b ->
  _compute_out_path self a <> _compute_out_path self b.
Proof.
  intros Hp Hb Hoka Hokb Hna Hnb Hra Hrb Hsuf Hab Heq. apply Hab. clear Hab.
  unfold _compute_out_path in Heq. rewrite Hp, Hb in Heq.
  rewrite (Path_of_safe_name _ (stem_no_slash _ Hoka)),
          (Path_of_safe_name _ (stem_no_slash _ Hokb)) in Heq.
  destruct (relative_to_ok _ _ Hra) as (ra & Hra' & Haa & Hpa).
  destruct (relative_to_ok _ _ Hrb) as (rb & Hrb' & Hab & Hpb).
  rewrite Hra', Hrb' in Heq. unfold joinpath in Heq.
  rewrite Haa, Hab in Heq. cbn in Heq.
  injection Heq as Heq. rewrite <- !app_assoc in Heq.
  apply app_inv_head in Heq. apply app_inj_tail in Heq as [Hrel Hstem].
  apply app_pdf_inj in Hstem.
  apply strip_prefix_app in Hpa, Hpb.
  assert (Hname : name a = name b).
  { rewrite (name_stem_suffix a), (name_stem_suffix b). congruence. }
  assert (Hparts : p_parts a = p_parts b).
  { rewrite (parent_parts a Hna), (parent_parts b Hnb). congruence. }
  apply is_relative_to_parts in Hra as [Ha1 _], Hrb as [Hb1 _].
  cbn [parent p_abs] in Ha1, Hb1.
  destruct a, b. cbn in *. congruence.
Qed.

Lemma destinations_distinct_under_base_witness :
  Path_eqb
    (_compute_out_path
       (MkTask [] (Path_of_str (lit "/out")) [] [] true (Some (Path_of_str (lit "/v"))))
       (Path_of_str (lit "/v/a/x.md")))
    (_compute_out_path
       (MkTask [] (Path_of_str (lit "/out")) [] [] true (Some (Path_of_str (lit "/v"))))
       (Path_of_str (lit "/v/b/x.md"))) = false.
Proof.
  apply not_true_is_false. intro E. apply Path_eqb_eq in E. revert E.
  exact (@destinations_distinct_under_base
           (MkTask [] (Path_of_str (lit "/out")) [] [] true (Some (Path_of_str (lit "/v"))))
           (Path_of_str (lit "/v")) (Path_of_str (lit "/v/a/x.md"))
           (Path_of_str (lit "/v/b/x.md"))
           eq_refl eq_refl eq_refl eq_refl ltac:(discriminate) ltac:(discriminate)
           eq_refl eq_refl eq_refl ltac:(discriminate)).
Defined.

(** ** Blocks without a marker *)

Lemma first_comment_none (s : str) :
  contains (lit "<!--") s = false -> first_comment s = None.
Proof.
  induction s as [|c s IH]; intro H.
  - reflexivity.
  - cbn [contains] in H. apply orb_false_iff in H as [H1 H2].
    cbn [first_comment]. rewrite (comment_at_no_start _ H1). apply IH, H2.
Qed.

Lemma search_none (s : str) :
  contains (lit "<!--") s = false -> re_search callout_comment_re s = None.
Proof.
  intro H. pose proof (search_comment s 0 None) as Hs.
  rewrite (first_comment_none _ H) in Hs. unfold re_search.
  destruct (search_from callout_comment_re 0 None s); [discriminate | reflexivity].
Qed.

Lemma repl_plain (pos : nat) (outer inner : str) :
  contains (lit "<!--") inner = false ->
  repl (Match pos outer [(1, inner)]) = Ok outer.
Proof.
  intro H. unfold repl.
  change (group_or_empty (Match pos outer [(1, inner)]) 1) with inner.
  rewrite (search_none _ H). reflexivity.
Qed.

(** X3. A document without [<blockquote>] is returned as it is. A block
    that holds no comment is left as it is, together with the text before
    it, and the transformation goes on after its closing tag. *)
Theorem plain_blocks_untouched :
  (forall s, contains OPEN s = false -> transform_callouts s = Ok s) /\
  (forall pre inner post,
      contains OPEN pre = false -> contains CLOSE inner = false ->
      contains (lit "<!--") inner = false ->
      transform_callouts (pre ++ OPEN ++ inner ++ CLOSE ++ post) =
        rbind (transform_callouts post)
              (fun y => Ok (pre ++ OPEN ++ inner ++ CLOSE ++ y))).
Proof.
  split; [apply transform_no_block|].
  intros pre inner post Hpre Hin Hc.
  rewrite transform_block by assumption.
  rewrite repl_plain by exact Hc. cbn [rbind].
  destruct (transform_callouts post); cbn [rbind]; [|reflexivity].
  rewrite <- !app_assoc. reflexivity.
Qed.

(** ** The marker, written and read back *)

Lemma group_of_comment (cm : rmatch) (kind : str) (ot : option str) :
  m_caps cm = comment_caps (kind, ot) ->
  group_or_empty cm 1 = kind /\
  group_or_empty cm 2 = match ot with Some t => t | None => [] end.
Proof.
  intro H. unfold group_or_empty, group. rewrite H.
  destruct ot; split; reflexivity.
Qed.

(** X4. The marker that the preprocessor writes is read back by the search
    of [transform_callouts] with the same kind and the same title, whatever
    follows it, when no comment starts before it and the title holds no
    double quote. *)
Theorem marker_read_back (a kind title b : str) :
  contains (lit "<!--") a = false ->
  forallb is_lower_ascii kind = true -> kind <> [] ->
  forallb not_dq title = true ->
  exists cm,
    re_search callout_comment_re (a ++ marker kind title ++ b) = Some cm /\
    group_or_empty cm 1 = kind /\ group_or_empty cm 2 = title.
Proof.
  intros Ha Hk Hne Ht.
  pose proof (search_comment (a ++ marker kind title ++ b) 0 None) as Hs.
  rewrite first_comment_marker in Hs by assumption.
  unfold re_search.
  destruct (search_from callout_comment_re 0 None (a ++ marker kind title ++ b))
    as [cm|]; [|discriminate].
  exists cm. split; [reflexivity|].
  cbn [option_map] in Hs. injection Hs as Hc.
  destruct (group_of_comment cm _ _ Hc) as [H1 H2]. split; [exact H1|].
  rewrite H2. destruct title; reflexivity.
Qed.

Lemma marker_read_back_witness :
  exists cm,
    re_search callout_comment_re
      (lit "<p>" ++ marker (lit "tip") (lit "Read me") ++ lit " body</p>") = Some cm /\
    group_or_empty cm 1 = lit "tip" /\ group_or_empty cm 2 = lit "Read me".
Proof.
  exact (@marker_read_back (lit "<p>") (lit "tip") (lit "Read me") (lit " body</p>")
           eq_refl eq_refl ltac:(discriminate) eq_refl).
Defined.

(** ** Documents on which the transformation returns *)











(** ** What a run touches *)

Section RunEvents.
Variable World : Type.
Variable read_file : World -> Path -> result str.
Variable markdown_convert : str -> result str.
Variable pdf_css_base : str -> str.
Variable pdf_css_theme_light : str.
Variable pdf_css_theme_dark : str.
Variable pygments_css : str.
Variable mkdir_p : World -> Path -> World * result unit.
Variable write_pdf : World -> str -> str -> str -> World * result unit.

Local Abbreviation run_ :=
    (run read_file markdown_convert pdf_css_base pdf_css_theme_light
       pdf_css_theme_dark pygments_css mkdir_p write_pdf).
Local Abbreviation run_loop_ :=
    (run_loop read_file markdown_convert pdf_css_base pdf_css_theme_light
       pdf_css_theme_dark pygments_css mkdir_p write_pdf).
Local Abbreviation run_step_ :=
    (run_step read_file markdown_convert pdf_css_base pdf_css_theme_light
       pdf_css_theme_dark pygments_css mkdir_p write_pdf).
Local Abbreviation steps_ :=
    (convert_and_render read_file markdown_convert pdf_css_base
       pdf_css_theme_light pdf_css_theme_dark pygments_css mkdir_p write_pdf).
Local Abbreviation convert_one_ :=
    (convert_one read_file markdown_convert pdf_css_base pdf_css_theme_light
       pdf_css_theme_dark pygments_css).






End RunEvents.


(** ** Collecting the files of a folder *)

Section CollectProps.
Variable rglob_md : Path -> list Path.
Variable str_lower : str -> str.
  (** Lowercasing neither makes nor removes a leading dot. *)
Hypothesis lower_dot : forall s, startswith [DOT] (str_lower s) = startswith [DOT] s.

Lemma obsidian_is_hidden (ps : list str) :
    existsb (str_eqb (lit ".obsidian")) (map str_lower ps) = true ->
    existsb (startswith [DOT]) ps = true.
  Proof.
    induction ps as [|c ps IH]; cbn [map existsb]; [discriminate|].
    intro H. apply orb_true_iff in H as [H|H].
    - apply str_eqb_eq in H. rewrite <- lower_dot, <- H. reflexivity.
    - rewrite (IH H). apply orb_true_r.
  Qed.

Lemma collect_loop_filter (ps : list Path) : forall res,
    collect_loop str_lower ps res = res ++ filter (fun p => negb (hidden p)) ps.
  Proof.
    induction ps as [|p ps IH]; intro res; cbn [collect_loop filter].
    - symmetry. apply app_nil_r.
    - unfold hidden at 1.
      destruct (existsb (str_eqb (lit ".obsidian")) (map str_lower (parts p))) eqn:E.
      + rewrite (obsidian_is_hidden _ E). cbn [negb]. apply IH.
      + destruct (existsb (startswith [DOT]) (parts p)); cbn [negb]; [apply IH|].
        rewrite IH, <- app_assoc. reflexivity.
  Qed.

  (** X13. The files collected under a folder are the files found whose path
      has no part that starts with a dot, in the order found; the test for
      [.obsidian] rejects nothing that the test for hidden parts would
      keep. *)
Theorem collect_keeps_visible_files (root : Path) :
    collect_md_in_dir rglob_md str_lower root =
      filter (fun p => negb (hidden p)) (rglob_md root).
  Proof. unfold collect_md_in_dir. apply collect_loop_filter. Qed.

Lemma existsb_prefix (f : str -> bool) (pre l : list str) :
    is_prefix pre l = true -> existsb f pre = true -> existsb f l = true.
  Proof.
    intros H Hf. apply is_prefix_iff in H as [rest ->].
    rewrite existsb_app, Hf. reflexivity.
  Qed.

  (** X14. Under a folder whose own path has a part that starts with a dot
      nothing is collected, since every file found carries the parts of the
      folder. *)
Theorem collect_under_hidden_root_is_empty (root : Path) :
    hidden root = true ->
    (forall p, In p (rglob_md root) -> is_prefix (parts root) (parts p) = true) ->
    collect_md_in_dir rglob_md str_lower root = [].
  Proof.
    intros Hroot Hfound. unfold collect_md_in_dir. rewrite collect_loop_filter.
    cbn [app]. induction (rglob_md root) as [|p ps IH]; [reflexivity|].
    cbn [filter]. unfold hidden at 1.
    rewrite (existsb_prefix _ _ _ (Hfound p (or_introl eq_refl)) Hroot).
    cbn [negb]. apply IH. intros q Hq. apply Hfound. right. exact Hq.
  Qed.
End CollectProps.

Lemma lower_keeps_dot (s : str) : startswith [DOT] (lower s) = startswith [DOT] s.
Proof.
  destruct s as [|c s]; [reflexivity|]. cbn [lower map startswith].
  rewrite !andb_true_r. unfold lower_char, is_upper_ascii, char_eqb, DOT.
  destruct ((65 <=? c) && (c <=? 90))%N eqn:E; [|reflexivity].
  apply andb_true_iff in E as [E1 E2]. apply N.leb_le in E1, E2.
  transitivity false; [|symmetry]; apply N.eqb_neq; lia.
Qed.

Lemma collect_keeps_visible_files_witness :
  collect_md_in_dir
    (fun root => [joinpath root (Path_of_str (lit "a.md"));
                  joinpath root (Path_of_str (lit ".Obsidian/b.md"));
                  joinpath root (Path_of_str (lit "c/.trash/d.md"))])
    lower (Path_of_str (lit "/v")) = [Path_of_str (lit "/v/a.md")].
Proof.
  exact (@collect_keeps_visible_files
           (fun root => [joinpath root (Path_of_str (lit "a.md"));
                         joinpath root (Path_of_str (lit ".Obsidian/b.md"));
                         joinpath root (Path_of_str (lit "c/.trash/d.md"))])
           lower lower_keeps_dot (Path_of_str (lit "/v"))).
Defined.

Lemma collect_under_hidden_root_is_empty_witness :
  collect_md_in_dir
    (fun root => [joinpath root (Path_of_str (lit "a.md"))])
    lower (Path_of_str (lit "/home/u/.notes")) = [].
Proof.
  apply (@collect_under_hidden_root_is_empty
           (fun root => [joinpath root (Path_of_str (lit "a.md"))])
           lower lower_keeps_dot (Path_of_str (lit "/home/u/.notes")) eq_refl).
  intros p [<-|[]]. reflexivity.
Defined.

(** ** The file list of the window *)

Section WindowProps.
  Import MainWindow.
Variable resolve : Path -> Path.
Variable exists_ : Path -> bool.
Variable str_lower : str -> str.

Local Abbreviation add_file_ := (add_file resolve exists_ str_lower).
Local Abbreviation _add_files_ := (_add_files resolve exists_ str_lower).
Local Abbreviation accepted p :=
    (exists_ p = true /\ str_lower (suffix p) = lit ".md").

Lemma set_files_same (self : t) : set_files self (files self) (list_files self) = self.
  Proof. destruct self. reflexivity. Qed.

Lemma existsb_Path_eqb (p : Path) (l : list Path) :
    existsb (Path_eqb p) l = true <-> In p l.
  Proof.
    rewrite existsb_exists. split.
    - intros (q & Hq & E). apply Path_eqb_eq in E. subst q. exact Hq.
    - intro H. exists p. split; [exact H | apply Path_eqb_eq; reflexivity].
  Qed.

  (** One turn of the loop: nothing, or one more file and one more item. *)
Lemma add_file_cases (self : t) (n : nat) (p : Path) :
    (add_file_ (self, n) p = (self, n) /\
     (accepted (resolve p) -> In (resolve p) (files self))) \/
    (add_file_ (self, n) p =
       (set_files self (files self ++ [resolve p])
          (list_files self ++ [str_of_Path (resolve p)]), S n) /\
     accepted (resolve p) /\ ~ In (resolve p) (files self)).
  Proof.
    unfold add_file.
    destruct (exists_ (resolve p)) eqn:E1; cbn [negb orb];
      [|left; split; [reflexivity | intros [H _]; discriminate]].
    destruct (str_eqb (str_lower (suffix (resolve p))) (lit ".md")) eqn:E2;
      cbn [negb].
    - apply str_eqb_eq in E2.
      destruct (existsb (Path_eqb (resolve p)) (files self)) eqn:E3.
      + left. split; [reflexivity|]. intros _. apply existsb_Path_eqb, E3.
      + right. split; [reflexivity|]. split; [split; [reflexivity | exact E2]|].
        intro H. apply existsb_Path_eqb in H. congruence.
    - left. split; [reflexivity|]. intros [_ H]. rewrite H, str_eqb_refl in E2.
      discriminate.
  Qed.

  (** The loop: the files added, in order. *)
Lemma fold_add_spec (paths : list Path) : forall self n,
    exists added,
      fold_left add_file_ paths (self, n) =
        (set_files self (files self ++ added)
           (list_files self ++ map str_of_Path added), n + length added) /\
      (NoDup (files self) -> NoDup (files self ++ added)) /\
      (forall p, In p added ->
                 exists q, In q paths /\ p = resolve q /\ accepted p) /\
      (forall q, In q paths -> accepted (resolve q) ->
                 In (resolve q) (files self ++ added)).
  Proof.
    induction paths as [|p paths IH]; intros self n.
    - exists []. cbn [fold_left map length]. rewrite !app_nil_r, Nat.add_0_r.
      rewrite set_files_same. split; [reflexivity|]. split; [auto|].
      split; [intros q []|intros q []].
    - cbn [fold_left].
      destruct (add_file_cases self n p) as [[-> Hin]|(-> & Hacc & Hnin)].
      + destruct (IH self n) as (added & Hf & Hnd & Hadd & Hall).
        exists added. split; [exact Hf|]. split; [exact Hnd|]. split.
        * intros x Hx. destruct (Hadd x Hx) as (q & Hq & H).
          exists q. split; [right; exact Hq | exact H].
        * intros q [<-|Hq] Ha; [apply in_or_app; left; apply Hin, Ha|].
          apply Hall; assumption.
      + destruct (IH (set_files self (files self ++ [resolve p])
                        (list_files self ++ [str_of_Path (resolve p)])) (S n))
          as (added & Hf & Hnd & Hadd & Hall).
        exists (resolve p :: added). rewrite Hf.
        cbn [files list_files set_files] in *.
        rewrite <- !app_assoc in *. cbn [app map length] in *.
        rewrite Nat.add_succ_r. split; [reflexivity|]. split; [|split].
        * intro H. apply Hnd.
          apply NoDup_app; [exact H | repeat constructor; intros [] | ].
          intros x Hx [<-|[]]. exact (Hnin Hx).
        * intros x [<-|Hx]; [exists p; split; [left; reflexivity | auto]|].
          destruct (Hadd x Hx) as (q & Hq & H).
          exists q. split; [right; exact Hq | exact H].
        * intros q [<-|Hq] Ha.
          -- apply in_or_app. right. left. reflexivity.
          -- exact (Hall q Hq Ha).
  Qed.

  (** When every acceptable path is listed already, the loop adds
      nothing. *)
Lemma fold_add_nothing (paths : list Path) (self : t) (n : nat) :
    (forall q, In q paths -> accepted (resolve q) -> In (resolve q) (files self)) ->
    fold_left add_file_ paths (self, n) = (self, n).
  Proof.
    induction paths as [|p paths IH]; intro H; [reflexivity|].
    cbn [fold_left].
    destruct (add_file_cases self n p) as [[-> _]|(_ & Hacc & Hnin)].
    - apply IH. intros q Hq. apply H. right. exact Hq.
    - exfalso. apply Hnin, H; [left; reflexivity | exact Hacc].
  Qed.

Lemma files_autodetect (self : t) :
    files (_update_base_root_autodetect resolve self) = files self /\
    list_files (_update_base_root_autodetect resolve self) = list_files self.
  Proof.
    unfold _update_base_root_autodetect.
    destruct (files self) as [|f fs] eqn:E; [auto|].
    destruct (_common_base resolve (f :: fs));
      cbn [_set_base_root files list_files]; auto.
  Qed.

  (** The files and the items after [_add_files]. *)
Lemma add_files_spec (self : t) (paths : list Path) :
    exists added,
      files (_add_files_ self paths) = files self ++ added /\
      list_files (_add_files_ self paths) =
        list_files self ++ map str_of_Path added /\
      (NoDup (files self) -> NoDup (files self ++ added)) /\
      (forall p, In p added ->
                 exists q, In q paths /\ p = resolve q /\ accepted p) /\
      (forall q, In q paths -> accepted (resolve q) ->
                 In (resolve q) (files self ++ added)).
  Proof.
    unfold _add_files.
    destruct (fold_add_spec paths self 0) as (added & -> & Hnd & Hadd & Hall).
    exists added. cbn [Nat.add].
    destruct (length added) as [|k].
    - cbn [files list_files set_files]. auto.
    - match goal with
      | |- context [if ?c then _ else _] => destruct c
      end.
      + set (s1 := _log _ _).
        destruct (files_autodetect s1) as [-> ->].
        cbn [files list_files set_files _log s1]. auto.
      + cbn [files list_files set_files _log]. auto.
  Qed.

  (** X15. [_add_files] only appends: the files listed before stay, in
      place; what is added are resolved paths of the request that exist and
      whose suffix is [.md] up to case; a list without repetition stays
      without repetition, and a list of items that mirrors the files keeps
      mirroring them. *)
Theorem add_files_keeps_the_list_sound (self : t) (paths : list Path) :
    NoDup (files self) ->
    list_files self = map str_of_Path (files self) ->
    NoDup (files (_add_files_ self paths)) /\
    list_files (_add_files_ self paths) =
      map str_of_Path (files (_add_files_ self paths)) /\
    exists added,
      files (_add_files_ self paths) = files self ++ added /\
      forall p, In p added ->
        exists q, In q paths /\ p = resolve q /\
                  exists_ p = true /\ str_lower (suffix p) = lit ".md".
  Proof.
    intros Hnd Hitems.
    destruct (add_files_spec self paths) as (added & Hf & Hi & Hn & Hadd & _).
    rewrite Hf, Hi, Hitems, map_app. split; [apply Hn, Hnd|].
    split; [reflexivity|]. exists added. split; [reflexivity | exact Hadd].
  Qed.

  (** X16. Adding the same paths a second time changes nothing: no file, no
      item, no line of the log, no base. *)
Theorem add_files_twice (self : t) (paths : list Path) :
    _add_files_ (_add_files_ self paths) paths = _add_files_ self paths.
  Proof.
    destruct (add_files_spec self paths) as (added & Hf & _ & _ & _ & Hall).
    set (s1 := _add_files_ self paths) in *.
    unfold _add_files at 1.
    rewrite fold_add_nothing; [reflexivity|].
    intros q Hq Ha. rewrite Hf. apply Hall; assumption.
  Qed.
End WindowProps.

(** ** The base folder of the window *)

Lemma abs_text_not_blank (p : Path) :
  p_abs p = true -> nonempty (strip (str_of_Path p)) = true.
Proof.
  intro H. unfold str_of_Path. rewrite H.
  pose proof (@strip_nonempty SLASH (join [SLASH] (p_parts p)) eq_refl) as Hne.
  destruct (strip (SLASH :: join [SLASH] (p_parts p))); [congruence | reflexivity].
Qed.

Section BaseProps.
Variable resolve : Path -> Path.
Variable exists_ : Path -> bool.
Variable str_lower : str -> str.

Local Abbreviation add_file_ := (MainWindow.add_file resolve exists_ str_lower).
Local Abbreviation _add_files_ := (MainWindow._add_files resolve exists_ str_lower).

  (** The loop of [_add_files] leaves the base and the check box alone. *)
Lemma fold_add_base (paths : list Path) (self : MainWindow.t) (n : nat) :
    let s1 := fst (fold_left add_file_ paths (self, n)) in
    MainWindow.base_root s1 = MainWindow.base_root self /\
    MainWindow.ed_base s1 = MainWindow.ed_base self /\
    MainWindow.chk_preserve s1 = MainWindow.chk_preserve self.
  Proof.
    destruct (fold_add_spec resolve exists_ str_lower paths self n)
      as (added & -> & _).
    cbn. auto.
  Qed.

Lemma add_files_base_kept (self : MainWindow.t) (paths : list Path) :
    MainWindow.base_blank self = false ->
    MainWindow.base_root (_add_files_ self paths) = MainWindow.base_root self /\
    MainWindow.ed_base (_add_files_ self paths) = MainWindow.ed_base self.
  Proof.
    intro Hb. unfold MainWindow._add_files.
    destruct (fold_add_base paths self 0) as (H1 & H2 & H3).
    destruct (fold_left add_file_ paths (self, 0)) as [s1 added].
    cbn [fst] in *. destruct added as [|k]; [auto|].
    set (s2 := MainWindow._log s1 _).
    assert (Hblank : MainWindow.base_blank s2 = false).
    { unfold MainWindow.base_blank in *. cbn [s2 MainWindow._log MainWindow.ed_base].
      rewrite H2. exact Hb. }
    rewrite Hblank, andb_false_r. cbn [s2 MainWindow._log MainWindow.base_root
                                         MainWindow.ed_base]. auto.
  Qed.

  (** X17. Once the base field holds text, adding files changes neither the
      field nor the base root, whatever the files are. *)
Theorem filled_base_is_never_updated (self : MainWindow.t) (paths : list Path) :
    MainWindow.base_blank self = false ->
    MainWindow.base_root (_add_files_ self paths) = MainWindow.base_root self /\
    MainWindow.ed_base (_add_files_ self paths) = MainWindow.ed_base self.
  Proof. apply add_files_base_kept. Qed.

  (** The first file added to an empty list, with the structure preserved
      and no base given. *)
Lemma add_first_file (self : MainWindow.t) (p : Path) :
    MainWindow.files self = [] ->
    MainWindow.chk_preserve self = true -> MainWindow.base_blank self = true ->
    exists_ (resolve p) = true -> str_lower (suffix (resolve p)) = lit ".md" ->
    resolve (resolve p) = resolve p ->
    p_abs (resolve p) = true -> path_wf (resolve p) = true ->
    MainWindow.files (_add_files_ self [p]) = [resolve p] /\
    MainWindow.base_root (_add_files_ self [p]) = Some (resolve p) /\
    MainWindow.ed_base (_add_files_ self [p]) = str_of_Path (resolve p).
  Proof.
    intros Hf Hchk Hblank Hex Hsuf Hres Ha Hw.
    unfold MainWindow._add_files. cbn [fold_left]. unfold MainWindow.add_file.
    rewrite Hex, Hsuf, str_eqb_refl, Hf. cbn [negb orb existsb app].
    set (s2 := MainWindow._log _ _).
    assert (H1 : MainWindow.chk_preserve s2 = true) by exact Hchk.
    assert (H2 : MainWindow.base_blank s2 = true) by exact Hblank.
    assert (H3 : MainWindow.files s2 = [resolve p]) by reflexivity.
    rewrite H1, H2. cbn [andb].
    unfold MainWindow._update_base_root_autodetect. rewrite H3.
    rewrite common_base_single by (rewrite Hres; assumption).
    unfold MainWindow._set_base_root. rewrite !Hres.
    cbn [MainWindow.files MainWindow.base_root MainWindow.ed_base]. auto.
  Qed.

  (** X18. In a window with an empty list, the structure preserved and no
      base given, the first file added becomes the base root itself, not
      its folder; and it stays the base root whatever is added later. *)
Theorem first_file_becomes_the_base (self : MainWindow.t) (p : Path) :
    MainWindow.files self = [] ->
    MainWindow.chk_preserve self = true -> MainWindow.base_blank self = true ->
    exists_ (resolve p) = true -> str_lower (suffix (resolve p)) = lit ".md" ->
    resolve (resolve p) = resolve p ->
    p_abs (resolve p) = true -> path_wf (resolve p) = true ->
    MainWindow.base_root (_add_files_ self [p]) = Some (resolve p) /\
    MainWindow.ed_base (_add_files_ self [p]) = str_of_Path (resolve p) /\
    forall later,
      MainWindow.base_root (_add_files_ (_add_files_ self [p]) later)
        = Some (resolve p).
  Proof.
    intros Hf Hchk Hblank Hex Hsuf Hres Ha Hw.
    destruct (@add_first_file self p Hf Hchk Hblank Hex Hsuf Hres Ha Hw)
      as (_ & Hb & He).
    split; [exact Hb|]. split; [exact He|]. intro later.
    destruct (add_files_base_kept (_add_files_ self [p]) later) as [H _];
      [|rewrite H; exact Hb].
    unfold MainWindow.base_blank. rewrite He, (abs_text_not_blank _ Ha).
    reflexivity.
  Qed.
End BaseProps.

Section FolderProps.
Variable resolve : Path -> Path.
Variable exists_ : Path -> bool.
Variable str_lower : str -> str.
Variable mkdir_p : Path -> result unit.
Variable rglob_md : Path -> list Path.

Local Abbreviation _add_files_ := (MainWindow._add_files resolve exists_ str_lower).
Local Abbreviation on_add_folder_ :=
    (MainWindow.on_add_folder resolve exists_ str_lower rglob_md).
Local Abbreviation on_convert_ := (MainWindow.on_convert resolve mkdir_p).

Lemma autodetect_fills_base (self : MainWindow.t) :
    (forall x, p_abs (resolve x) = true) ->
    MainWindow.files self <> [] ->
    MainWindow.base_blank (MainWindow._update_base_root_autodetect resolve self)
      = false.
  Proof.
    intros Habs Hne. unfold MainWindow._update_base_root_autodetect.
    destruct (MainWindow.files self) as [|f fs]; [congruence|].
    destruct (common_base_some resolve f fs Habs) as [base ->].
    unfold MainWindow._set_base_root, MainWindow.base_blank.
    cbn [MainWindow.ed_base]. rewrite (abs_text_not_blank _ (Habs base)).
    reflexivity.
  Qed.

Lemma add_files_fills_base (self : MainWindow.t) (paths : list Path) :
    (forall x, p_abs (resolve x) = true) ->
    MainWindow.files (_add_files_ self paths) <> MainWindow.files self ->
    MainWindow.chk_preserve (_add_files_ self paths) &&
    MainWindow.base_blank (_add_files_ self paths) = false.
  Proof.
    intros Habs Hnew. unfold MainWindow._add_files in *.
    destruct (fold_add_spec resolve exists_ str_lower paths self 0)
      as (added & Hfold & _).
    rewrite Hfold in *. cbn [Nat.add] in *.
    destruct added as [|a added].
    - exfalso. apply Hnew. cbn. apply app_nil_r.
    - cbn [length] in *. set (s2 := MainWindow._log _ _) in *.
      destruct (MainWindow.chk_preserve s2 && MainWindow.base_blank s2) eqn:E;
        [|exact E].
      rewrite autodetect_fills_base; [apply andb_false_r | exact Habs |].
      cbn. intro H. apply app_eq_nil in H as [_ H]. discriminate.
  Qed.

  (** X19. When adding a folder adds at least one file, the folder chosen is
      not made the base: the window is left as [_add_files] leaves it, with
      the base that was there or the one computed from the files. *)
Theorem added_folder_is_not_the_base (self : MainWindow.t) (d : Path) :
    (forall x, p_abs (resolve x) = true) ->
    MainWindow.files
      (_add_files_ self (collect_md_in_dir rglob_md str_lower d))
      <> MainWindow.files self ->
    on_add_folder_ self (Some d) =
      _add_files_ self (collect_md_in_dir rglob_md str_lower d).
  Proof.
    intros Habs Hnew. unfold MainWindow.on_add_folder.
    rewrite add_files_fills_base by assumption. reflexivity.
  Qed.

  (** X20. A base root set through [_set_base_root] reaches the task of
      [on_convert] by way of the text of the base field: the task gets the
      path read from the stripped text, which is the base root itself when
      its text has no white space at its end. *)
Theorem picked_base_reaches_the_task (self : MainWindow.t) (d : Path) :
    MainWindow.files self <> [] ->
    MainWindow.chk_preserve self = true ->
    p_abs (resolve d) = true ->
    mkdir_p (Path_of_str (strip (MainWindow.ed_out self))) = Ok tt ->
    exists self' task,
      on_convert_ (MainWindow._set_base_root resolve self d) = Ok (self', Some task) /\
      files task = MainWindow.files self /\
      preserve_structure task = true /\
      out_dir task = Path_of_str (strip (MainWindow.ed_out self)) /\
      base_root task = Some (Path_of_str (strip (str_of_Path (resolve d)))) /\
      (path_wf (resolve d) = true ->
       strip (str_of_Path (resolve d)) = str_of_Path (resolve d) ->
       base_root task = MainWindow.base_root (MainWindow._set_base_root resolve self d)).
  Proof.
    intros Hne Hchk Ha Hmk.
    set (s0 := MainWindow._set_base_root resolve self d).
    assert (H1 : MainWindow.chk_preserve s0 = true) by exact Hchk.
    assert (H2 : MainWindow.ed_base s0 = str_of_Path (resolve d)) by reflexivity.
    assert (H3 : MainWindow.files s0 = MainWindow.files self) by reflexivity.
    assert (H4 : MainWindow.ed_out s0 = MainWindow.ed_out self) by reflexivity.
    assert (H5 : MainWindow.base_root s0 = Some (resolve d)) by reflexivity.
    unfold MainWindow.on_convert. rewrite H3, H4.
    destruct (MainWindow.files self) as [|f fs] eqn:Hf; [congruence|].
    rewrite Hmk. cbn [rbind].
    cbn [MainWindow.set_out_dir MainWindow.chk_preserve MainWindow.ed_base
           MainWindow.files].
    rewrite H1, H2, (abs_text_not_blank _ Ha).
    eexists. eexists. split; [reflexivity|].
    cbn [files preserve_structure out_dir base_root MainWindow.files
           MainWindow._log MainWindow._set_busy MainWindow.set_progress
           MainWindow.set_out_dir MainWindow.out_dir MainWindow.chk_preserve
           MainWindow.base_root].
    rewrite H1, H3, H5. repeat split; auto.
    intros Hw Hs. rewrite Hs, Path_of_str_of_Path by exact Hw. reflexivity.
  Qed.
End FolderProps.

Lemma stub_resolve_abs (x : Path) : p_abs (stub_resolve x) = true.
Proof. reflexivity. Qed.

Lemma added_folder_is_not_the_base_witness :
  MainWindow.base_root
    (MainWindow.on_add_folder stub_resolve stub_exists lower
       (fun root => [joinpath root (Path_of_str (lit "a/x.md"));
                     joinpath root (Path_of_str (lit "a/y.md"))])
       stub_window (Some (Path_of_str (lit "/v"))))
    = Some (Path_of_str (lit "/v/a")).
Proof.
  rewrite (@added_folder_is_not_the_base stub_resolve stub_exists lower
             (fun root => [joinpath root (Path_of_str (lit "a/x.md"));
                           joinpath root (Path_of_str (lit "a/y.md"))])
             stub_window (Path_of_str (lit "/v")) stub_resolve_abs
             ltac:(discriminate)).
  reflexivity.
Defined.

Lemma picked_base_reaches_the_task_witness :
  exists self' task,
    MainWindow.on_convert stub_resolve (fun _ => Ok tt)
      (MainWindow._set_base_root stub_resolve
         (MainWindow._add_files stub_resolve stub_exists lower stub_window
            [Path_of_str (lit "/v/a/x.md")])
         (Path_of_str (lit "/v"))) = Ok (self', Some task) /\
    base_root task = Some (Path_of_str (lit "/v")).
Proof.
  destruct (@picked_base_reaches_the_task stub_resolve (fun _ => Ok tt)
              (MainWindow._add_files stub_resolve stub_exists lower stub_window
                 [Path_of_str (lit "/v/a/x.md")])
              (Path_of_str (lit "/v"))
              ltac:(discriminate) eq_refl eq_refl eq_refl)
    as (self' & task & H1 & _ & _ & _ & H2 & _).
  exists self', task. split; [exact H1 | exact H2].
Defined.

Lemma filled_base_is_never_updated_witness :
  MainWindow.base_root
    (MainWindow._add_files stub_resolve stub_exists lower
       (MainWindow._add_files stub_resolve stub_exists lower stub_window
          [Path_of_str (lit "/v/a/x.md")])
       [Path_of_str (lit "/w/y.md")])
    = Some (Path_of_str (lit "/v/a/x.md")).
Proof.
  exact (proj1 (@filled_base_is_never_updated stub_resolve stub_exists lower
                  (MainWindow._add_files stub_resolve stub_exists lower stub_window
                     [Path_of_str (lit "/v/a/x.md")])
                  [Path_of_str (lit "/w/y.md")] eq_refl)).
Defined.

Lemma first_file_becomes_the_base_witness :
  MainWindow.base_root
    (MainWindow._add_files stub_resolve stub_exists lower stub_window
       [Path_of_str (lit "/v/a/x.md")])
    = Some (Path_of_str (lit "/v/a/x.md")).
Proof.
  exact (proj1 (@first_file_becomes_the_base stub_resolve stub_exists lower
                  stub_window (Path_of_str (lit "/v/a/x.md"))
                  eq_refl eq_refl eq_refl eq_refl eq_refl eq_refl eq_refl eq_refl)).
Defined.

Lemma add_files_keeps_the_list_sound_witness :
  NoDup (MainWindow.files
           (MainWindow._add_files stub_resolve stub_exists lower stub_window
              [Path_of_str (lit "/v/a/x.md"); Path_of_str (lit "/v/a/x.md");
               Path_of_str (lit "/v/a/notes.txt")])).
Proof.
  exact (proj1 (@add_files_keeps_the_list_sound stub_resolve stub_exists lower
                  stub_window
                  [Path_of_str (lit "/v/a/x.md"); Path_of_str (lit "/v/a/x.md");
                   Path_of_str (lit "/v/a/notes.txt")]
                  (NoDup_nil Path) eq_refl)).
Defined.

(** ** Where the badge goes, and titles that break the marker *)

(** X21. In a block whose content, once the marker is removed, does not
    start with [<p], as when a line break follows the opening tag of the
    block, the badge is placed in front of the content, outside any
    paragraph. *)
Theorem badge_first_without_leading_paragraph (a kind title b : str) :
  contains (lit "<!--") a = false ->
  forallb is_lower_ascii kind = true -> kind <> [] ->
  forallb plain_title_char title = true ->
  contains CLOSE (a ++ marker kind title ++ b) = false ->
  startswith (lit "<p") (a ++ lstrip b) = false ->
  transform_callouts (OPEN ++ (a ++ marker kind title ++ b) ++ CLOSE) =
    Ok (OPEN ++ make_badge kind title ++ a ++ lstrip b ++ CLOSE).
Proof.
  intros Ha Hk Hne Ht Hin Hp.
  pose proof (@transform_marked_block a kind title b Ha Hk Hne Ht Hin []) as H.
  rewrite app_nil_r in H. rewrite H, transform_nil. cbn [rbind].
  rewrite app_nil_r. unfold place_badge, p_tag_at. rewrite Hp.
  rewrite <- !app_assoc. reflexivity.
Qed.

Lemma badge_first_without_leading_paragraph_witness :
  transform_callouts
    (OPEN ++ ((LF :: lit "<p>") ++ marker (lit "tip") [] ++ LF :: lit "Body</p>" ++ [LF])
          ++ CLOSE) =
    Ok (OPEN ++ make_badge (lit "tip") [] ++ (LF :: lit "<p>") ++ lit "Body</p>" ++ [LF]
          ++ CLOSE).
Proof.
  exact (@badge_first_without_leading_paragraph (LF :: lit "<p>") (lit "tip") []
           (LF :: lit "Body</p>" ++ [LF])
           eq_refl eq_refl ltac:(discriminate) eq_refl eq_refl eq_refl).
Defined.

Lemma no_arrow_before_quote (u x : str) :
  forallb not_gt u = true -> startswith (lit "-->") (u ++ DQ :: x) = false.
Proof.
  intro H. change (lit "-->") with [45%N; 45%N; GT].
  destruct u as [|c1 [|c2 [|c3 u]]]; cbn [app startswith]; try reflexivity.
  - apply andb_false_iff. right. reflexivity.
  - apply andb_false_iff. right. apply andb_false_iff. right. reflexivity.
  - cbn [forallb] in H. apply andb_true_iff in H as [_ H].
    apply andb_true_iff in H as [_ H]. apply andb_true_iff in H as [H _].
    unfold not_gt in H. apply negb_true_iff in H.
    unfold char_eqb in *. rewrite N.eqb_sym in H. rewrite H.
    rewrite !andb_false_r. reflexivity.
Qed.

Lemma comment_end_before_quote (r x : str) :
  forallb not_gt r = true -> comment_end_at (r ++ DQ :: x) = false.
Proof.
  intro H. unfold comment_end_at.
  destruct (dropwhile isspace r) as [|c r'] eqn:E.
  - rewrite <- (app_nil_r r) in E.
    assert (Hsp : forallb isspace r = true).
    { rewrite app_nil_r in E. clear H. induction r as [|y r IH]; [reflexivity|].
      cbn [dropwhile] in E. cbn [forallb]. destruct (isspace y); [|discriminate].
      apply IH, E. }
    rewrite (dropwhile_app_all _ _ _ Hsp). reflexivity.
  - destruct (dropwhile_app_open _ _ (DQ :: x) E) as [-> _].
    apply (no_arrow_before_quote (c :: r') x).
    rewrite <- E. apply forallb_dropwhile, H.
Qed.

Lemma nonempty_app_cons (p : str) (c : char) (r : str) : nonempty (p ++ c :: r) = true.
Proof. destruct p; reflexivity. Qed.

(** A marker whose title holds a double quote is not read as a marker. *)
Lemma comment_at_quoted (kind p r b : str) :
  forallb is_lower_ascii kind = true -> kind <> [] ->
  forallb not_dq p = true -> forallb not_gt r = true ->
  comment_at (marker kind (p ++ DQ :: r) ++ b) = None.
Proof.
  intros Hk Hne Hp Hr. unfold marker, comment_at. rewrite nonempty_app_cons.
  rewrite <- !app_assoc.
  change (lit "<!--callout:") with (lit "<!--" ++ lit "callout:").
  rewrite <- !app_assoc. rewrite startswith_app.
  set (tail := lit " title=" ++ [DQ] ++ p ++ (DQ :: r) ++ [DQ] ++ lit "-->" ++ b).
  replace (skipn 4 (lit "<!--" ++ lit "callout:" ++ kind ++ tail))
    with (lit "callout:" ++ kind ++ tail) by reflexivity.
  change (dropwhile isspace (lit "callout:" ++ ?x)) with (lit "callout:" ++ x).
  rewrite startswith_app.
  replace (skipn 8 (lit "callout:" ++ kind ++ tail)) with (kind ++ tail)
    by reflexivity.
  rewrite (takewhile_app_all _ _ _ Hk), (dropwhile_app_all _ _ _ Hk).
  unfold tail at 1 2.
  change (takewhile is_lower_ascii (lit " title=" ++ ?x)) with (@nil char).
  change (dropwhile is_lower_ascii (lit " title=" ++ ?x)) with (lit " title=" ++ x).
  rewrite app_nil_r. destruct kind as [|k0 kind]; [congruence|].
  fold tail. unfold title_at. unfold tail.
  change (takewhile isspace (lit " title=" ++ ?x)) with [SP].
  change (dropwhile isspace (lit " title=" ++ [DQ] ++ ?x))
    with ((lit "title=" ++ [DQ]) ++ x).
  rewrite startswith_app.
  replace (skipn 7 ((lit "title=" ++ [DQ]) ++ p ++ (DQ :: r) ++ [DQ] ++ lit "-->" ++ b))
    with (p ++ DQ :: (r ++ DQ :: lit "-->" ++ b)) by reflexivity.
  rewrite takewhile_stop, dropwhile_stop by reflexivity.
  rewrite (takewhile_id _ _ Hp).
  replace (dropwhile not_dq p) with (@nil char)
    by (symmetry; rewrite <- (app_nil_r p) at 1;
        rewrite (dropwhile_app_all _ _ _ Hp); reflexivity).
  cbn [app]. change (char_eqb DQ DQ) with true. cbv iota.
  rewrite (comment_end_before_quote r (lit "-->" ++ b) Hr).
  reflexivity.
Qed.

Lemma contains_after_plain (l u v : str) :
  forallb not_lt u = true -> contains (LT :: l) (u ++ v) = contains (LT :: l) v.
Proof.
  induction u as [|c u IH]; intro H; [reflexivity|].
  cbn [forallb] in H. apply andb_true_iff in H as [H1 H2].
  cbn [app contains startswith].
  unfold not_lt in H1. apply negb_true_iff in H1.
  unfold char_eqb in *. rewrite N.eqb_sym in H1. rewrite H1.
  cbn [andb orb]. apply IH, H2.
Qed.

Lemma is_lower_not_lt (kind : str) :
  forallb is_lower_ascii kind = true -> forallb not_lt kind = true.
Proof.
  apply forallb_weaken. intros c Hc. apply is_lower_range in Hc.
  unfold not_lt, char_eqb, LT. apply negb_true_iff, N.eqb_neq. lia.
Qed.

Lemma first_comment_quoted (a kind p r b : str) :
  contains (lit "<!--") a = false -> contains (lit "<!--") b = false ->
  forallb is_lower_ascii kind = true -> kind <> [] ->
  forallb not_dq p = true -> forallb not_lt p = true ->
  forallb not_lt r = true -> forallb not_gt r = true ->
  first_comment (a ++ marker kind (p ++ DQ :: r) ++ b) = None.
Proof.
  intros Ha Hb Hk Hne Hp Hpl Hrl Hr. rewrite first_comment_keep.
  - pose proof (@comment_at_quoted kind p r b Hk Hne Hp Hr) as Hc.
    assert (Hm : exists tail, marker kind (p ++ DQ :: r) = LT :: tail /\
                              forallb not_lt tail = true).
    { unfold marker. rewrite nonempty_app_cons. eexists. split; [reflexivity|].
      rewrite !forallb_app, (is_lower_not_lt _ Hk), Hpl. cbn [forallb].
      rewrite Hrl. reflexivity. }
    destruct Hm as (tail & Hm & Htail). rewrite Hm in *. cbn [app] in Hc.
    cbn [app first_comment]. rewrite Hc. apply first_comment_none.
    change (lit "<!--") with (LT :: [33%N; 45%N; 45%N]).
    rewrite contains_after_plain by exact Htail. exact Hb.
  - intros a1 c a2 Heq. apply comment_at_no_start.
    apply (@comment_tag_not_in a _ Ha (stops_marker kind (p ++ DQ :: r) b) _ _ _ Heq).
Qed.

(** X22. A title that holds a double quote breaks the marker: when the text
    after the first quote of the title holds no [>], the marker is not
    recognised, and a block that holds it, and no other comment, is left as
    it is, marker included, without a badge. *)
Theorem quoted_title_is_not_recognised (a kind p r b : str) :
  contains (lit "<!--") a = false -> contains (lit "<!--") b = false ->
  forallb is_lower_ascii kind = true -> kind <> [] ->
  forallb not_dq p = true -> forallb not_lt p = true ->
  forallb not_lt r = true -> forallb not_gt r = true ->
  contains CLOSE (a ++ marker kind (p ++ DQ :: r) ++ b) = false ->
  transform_callouts (OPEN ++ (a ++ marker kind (p ++ DQ :: r) ++ b) ++ CLOSE) =
    Ok (OPEN ++ (a ++ marker kind (p ++ DQ :: r) ++ b) ++ CLOSE).
Proof.
  intros Ha Hb Hk Hne Hp Hpl Hrl Hr Hin.
  set (inner := a ++ marker kind (p ++ DQ :: r) ++ b) in *.
  pose proof (@transform_block [] inner [] eq_refl Hin) as H.
  cbn [app] in H. rewrite app_nil_r in H. rewrite H. clear H.
  assert (Hs : re_search callout_comment_re inner = None).
  { pose proof (search_comment inner 0 None) as Hs. unfold inner in Hs.
    rewrite first_comment_quoted in Hs by assumption. unfold re_search, inner.
    destruct (search_from callout_comment_re 0 None _); [discriminate | reflexivity]. }
  unfold repl. change (group_or_empty (Match 0 ?t [(1, inner)]) 1) with inner.
  rewrite Hs. cbn [rbind m_text]. rewrite transform_nil. cbn [rbind].
  rewrite app_nil_r. reflexivity.
Qed.

Lemma quoted_title_is_not_recognised_witness :
  transform_callouts
    (OPEN ++ (lit "<p>" ++ marker (lit "note") (lit "Say " ++ DQ :: lit "hi" ++ [DQ])
                ++ lit " x</p>") ++ CLOSE) =
    Ok (OPEN ++ (lit "<p>" ++ marker (lit "note") (lit "Say " ++ DQ :: lit "hi" ++ [DQ])
                   ++ lit " x</p>") ++ CLOSE).
Proof.
  exact (@quoted_title_is_not_recognised (lit "<p>") (lit "note") (lit "Say ")
           (lit "hi" ++ [DQ]) (lit " x</p>")
           eq_refl eq_refl eq_refl ltac:(discriminate) eq_refl eq_refl eq_refl eq_refl
           eq_refl).
Defined.

(** *** A title that holds [>] *)

Lemma no_arrow_in_body (body t u rest : str) :
  forallb not_gt body = true -> startswith (lit "--") (rev body) = false ->
  t ++ u = body -> startswith (lit "-->") (u ++ GT :: rest) = false.
Proof.
  intros Hb Hend Htu.
  assert (Hu : forallb not_gt u = true).
  { rewrite <- Htu, forallb_app in Hb. apply andb_true_iff in Hb. tauto. }
  change (lit "-->") with [45%N; 45%N; GT].
  destruct u as [|c1 [|c2 [|c3 u]]]; cbn [app startswith].
  - reflexivity.
  - change (char_eqb 45%N GT) with false. rewrite andb_false_r. reflexivity.
  - destruct (char_eqb 45%N c1) eqn:E1; [|reflexivity].
    destruct (char_eqb 45%N c2) eqn:E2; [|reflexivity].
    apply N.eqb_eq in E1, E2. subst c1 c2. subst body.
    rewrite rev_app_distr in Hend. discriminate Hend.
  - cbn [forallb] in Hu. apply andb_true_iff in Hu as [_ Hu].
    apply andb_true_iff in Hu as [_ Hu]. apply andb_true_iff in Hu as [Hc _].
    unfold not_gt in Hc. apply negb_true_iff in Hc.
    replace (char_eqb GT c3) with (char_eqb c3 GT) by apply N.eqb_sym.
    rewrite Hc, !andb_false_r. reflexivity.
Qed.

(** The removal pattern finds no end of comment before the first [>]
    unless the text before it ends with two hyphens. *)
Lemma strip_stops_at_gt (prev : option char) (body rest : str) :
  forallb not_gt body = true -> startswith (lit "--") (rev body) = false ->
  match_here callout_strip_re prev (lit "<!--callout:" ++ body ++ GT :: rest) = None.
Proof.
  intros Hb Hend. unfold match_here, callout_strip_re, seq. cbn [m].
  change (lit "<!--callout:") with (lit "<!--" ++ lit "callout:").
  rewrite <- app_assoc, m_lit_app.
  rewrite m_star_commit
    by (intros; apply m_lit_reject; apply class_neq with (p := isspace); auto).
  change (takewhile isspace (lit "callout:" ++ body ++ GT :: rest))
    with (@nil char).
  change (dropwhile isspace (lit "callout:" ++ body ++ GT :: rest))
    with (lit "callout:" ++ body ++ GT :: rest).
  rewrite m_lit_app.
  rewrite m_star_none.
  - apply m_lit_fail. apply (@no_arrow_in_body body [] body rest Hb Hend eq_refl).
  - exact Hb.
  - reflexivity.
  - intros t u Htu _. apply m_lit_fail.
    apply (@no_arrow_in_body body t u rest Hb Hend Htu).
Qed.

Lemma ends_after_quote (pre t1 : str) :
  startswith (lit "--") (rev t1) = false ->
  startswith (lit "--") (rev (pre ++ DQ :: t1)) = false.
Proof.
  intro H. rewrite rev_app_distr. cbn [rev]. rewrite <- !app_assoc. cbn [app].
  change (lit "--") with [45%N; 45%N] in *.
  destruct (rev t1) as [|c1 [|c2 w]]; cbn [app startswith] in *.
  - reflexivity.
  - change (char_eqb 45%N DQ) with false. rewrite andb_false_r. reflexivity.
  - exact H.
Qed.

Lemma scan_keep_all (r : regex) (bd : option nat) (s : str) (pos : nat)
  (prev : option char) :
  (forall a1 c a2, s = a1 ++ c :: a2 ->
                   match_here r (last_char prev a1) (c :: a2) = None) ->
  (forall prev', match_here r prev' [] = None) ->
  scan r bd 0 pos prev s = map Keep s.
Proof.
  intros H Hnil. rewrite <- (app_nil_r s) at 1. rewrite scan_keep.
  - cbn [scan]. destruct (budget_open bd); [rewrite Hnil|]; cbn [map];
      apply app_nil_r.
  - intros a1 c a2 Heq. rewrite app_nil_r. apply (H a1 c a2 Heq).
Qed.

(** With [>] in the title, the removal leaves the content as it is. *)
Lemma strip_sub_gt (a kind title t1 t2 b : str) :
  title = t1 ++ GT :: t2 ->
  contains (lit "<!--") a = false -> contains (lit "<!--") b = false ->
  forallb is_lower_ascii kind = true ->
  forallb not_gt t1 = true -> forallb not_lt t1 = true ->
  startswith (lit "--") (rev t1) = false ->
  forallb not_lt t2 = true ->
  re_sub callout_strip_re (fun _ => []) (a ++ marker kind title ++ b) 1 =
    a ++ marker kind title ++ b.
Proof.
  intros -> Ha Hb Hk Hg1 Hl1 Hend Hl2. unfold re_sub, pieces. cbn [budget_of_count].
  rewrite scan_keep.
  2:{ intros a1 c a2 Heq. apply strip_no_start.
      apply (@comment_tag_not_in a _ Ha (stops_marker kind (t1 ++ GT :: t2) b) _ _ _ Heq). }
  rewrite subst_keep. f_equal.
  assert (Hm : marker kind (t1 ++ GT :: t2) ++ b =
               lit "<!--callout:" ++ (kind ++ lit " title=" ++ DQ :: t1) ++
               GT :: (t2 ++ [DQ] ++ lit "-->" ++ b)).
  { unfold marker. rewrite nonempty_app_cons, <- !app_assoc. reflexivity. }
  set (body := kind ++ lit " title=" ++ DQ :: t1) in *.
  set (rest := t2 ++ [DQ] ++ lit "-->" ++ b) in *.
  assert (Hbody : forallb not_gt body = true).
  { unfold body. rewrite forallb_app.
    rewrite (forallb_weaken _ _ kind is_lower_not_gt Hk). cbn [andb].
    change (lit " title=" ++ DQ :: t1) with ((lit " title=" ++ [DQ]) ++ t1).
    rewrite forallb_app, Hg1. reflexivity. }
  assert (Hbend : startswith (lit "--") (rev body) = false).
  { unfold body. rewrite app_assoc. apply ends_after_quote, Hend. }
  assert (Htail : contains (lit "<!--")
                    (lit "!--callout:" ++ body ++ GT :: rest) = false).
  { change (lit "<!--") with (LT :: [33%N; 45%N; 45%N]).
    replace (lit "!--callout:" ++ body ++ GT :: rest)
      with ((lit "!--callout:" ++ body ++ GT :: t2 ++ [DQ] ++ lit "-->") ++ b)
      by (unfold rest; rewrite <- !app_assoc; cbn [app]; rewrite <- !app_assoc;
          reflexivity).
    rewrite contains_after_plain; [exact Hb|].
    unfold body. rewrite !forallb_app. cbn [forallb].
    rewrite (is_lower_not_lt _ Hk), Hl1, !forallb_app, Hl2. reflexivity. }
  rewrite Hm. change (lit "<!--callout:" ++ ?x) with (LT :: lit "!--callout:" ++ x).
  cbn [scan budget_open].
  change (LT :: lit "!--callout:" ++ body ++ GT :: rest)
    with (lit "<!--callout:" ++ body ++ GT :: rest).
  rewrite (@strip_stops_at_gt _ body rest Hbody Hbend).
  change (lit "<!--callout:" ++ body ++ GT :: rest)
    with (LT :: lit "!--callout:" ++ body ++ GT :: rest).
  cbn [subst_pieces]. f_equal.
  rewrite scan_keep_all; [apply subst_keep_all | |].
  - intros a1 c a2 Heq. apply strip_no_start.
    apply (contains_false_suffix (lit "<!--") a1). rewrite <- Heq. exact Htail.
  - intro prev'. apply strip_no_start. reflexivity.
Qed.

Lemma repl_block_gt (pos : nat) (outer a kind t1 t2 b : str) :
  contains (lit "<!--") a = false -> contains (lit "<!--") b = false ->
  forallb is_lower_ascii kind = true -> kind <> [] ->
  forallb plain_title_char t1 = true -> forallb not_lt t1 = true ->
  startswith (lit "--") (rev t1) = false ->
  forallb not_dq t2 = true -> forallb not_lt t2 = true ->
  forallb (fun c => negb (char_eqb c BSL)) t2 = true ->
  repl (Match pos outer [(1, a ++ marker kind (t1 ++ GT :: t2) ++ b)]) =
    Ok (OPEN ++ place_badge (make_badge kind (t1 ++ GT :: t2))
                  (a ++ marker kind (t1 ++ GT :: t2) ++ b) ++ CLOSE).
Proof.
  intros Ha Hb Hk Hne Ht1 Hl1 Hend Hd2 Hl2 Hb2.
  destruct (plain_title_parts _ Ht1) as (Hdq & Hgt & Hbs).
  remember (t1 ++ GT :: t2) as title eqn:Et.
  assert (Htd : forallb not_dq title = true).
  { subst title. rewrite forallb_app, Hdq. cbn [forallb]. rewrite Hd2. reflexivity. }
  assert (Htb : forallb (fun c => negb (char_eqb c BSL)) title = true).
  { subst title. rewrite forallb_app, Hbs. cbn [forallb]. rewrite Hb2. reflexivity. }
  unfold repl. change (group_or_empty (Match pos outer ?cs) 1)
    with (a ++ marker kind title ++ b).
  pose proof (search_comment (a ++ marker kind title ++ b) 0 None) as Hs.
  rewrite first_comment_marker in Hs by assumption.
  unfold re_search.
  destruct (search_from callout_comment_re 0 None (a ++ marker kind title ++ b))
    as [cm|]; [|discriminate].
  cbn [option_map] in Hs. injection Hs as Hc.
  destruct (group_of_comment cm _ _ Hc) as [H1 H2].
  assert (H2' : group_or_empty cm 2 = title).
  { rewrite H2, Et, nonempty_app_cons. reflexivity. }
  rewrite H1, H2'.
  rewrite (@strip_sub_gt a kind title t1 t2 b Et Ha Hb Hk Hgt Hl1 Hend Hl2).
  rewrite badge_template_sub by assumption.
  cbn [rbind]. fold OPEN CLOSE. do 3 f_equal. unfold place_badge.
  destruct (p_tag_at (a ++ marker kind title ++ b)) as [[tag rest]|] eqn:E.
  - rewrite (p_tag_at_split _ E).
    replace (tag ++ make_badge kind title ++ [SP] ++ rest)
      with (tag ++ (make_badge kind title ++ [SP]) ++ rest)
      by (rewrite <- app_assoc; reflexivity).
    rewrite str_eqb_longer; [reflexivity|].
    intro Hn. apply app_eq_nil in Hn. destruct Hn as [_ Hn]. discriminate.
  - rewrite str_eqb_refl. reflexivity.
Qed.

(** X23. A title that holds [>] keeps its marker: the search reads the
    marker and a badge is placed, but the removal pattern stops at the
    first [>] of the title, so the marker comment stays in the content,
    unless the title ends with two hyphens right before that [>]. *)
Theorem title_with_gt_keeps_the_marker (a kind t1 t2 b : str) :
  contains (lit "<!--") a = false -> contains (lit "<!--") b = false ->
  forallb is_lower_ascii kind = true -> kind <> [] ->
  forallb plain_title_char t1 = true -> forallb not_lt t1 = true ->
  startswith (lit "--") (rev t1) = false ->
  forallb not_dq t2 = true -> forallb not_lt t2 = true ->
  forallb (fun c => negb (char_eqb c BSL)) t2 = true ->
  contains CLOSE (a ++ marker kind (t1 ++ GT :: t2) ++ b) = false ->
  transform_callouts (OPEN ++ (a ++ marker kind (t1 ++ GT :: t2) ++ b) ++ CLOSE) =
    Ok (OPEN ++ place_badge (make_badge kind (t1 ++ GT :: t2))
                  (a ++ marker kind (t1 ++ GT :: t2) ++ b) ++ CLOSE).
Proof.
  intros Ha Hb Hk Hne Ht1 Hl1 Hend Hd2 Hl2 Hb2 Hin.
  pose proof (@transform_block [] _ [] eq_refl Hin) as H.
  cbn [app] in H. rewrite app_nil_r in H. rewrite H. clear H.
  rewrite repl_block_gt by assumption.
  cbn [rbind]. rewrite transform_nil. cbn [rbind]. rewrite app_nil_r. reflexivity.
Qed.

Lemma title_with_gt_keeps_the_marker_witness :
  transform_callouts
    (OPEN ++ (lit "<p>" ++ marker (lit "tip") (lit "a" ++ GT :: lit "b") ++ lit " x</p>")
          ++ CLOSE) =
    Ok (OPEN ++ lit "<p>" ++ make_badge (lit "tip") (lit "a" ++ GT :: lit "b") ++ [SP]
          ++ marker (lit "tip") (lit "a" ++ GT :: lit "b") ++ lit " x</p>" ++ CLOSE).
Proof.
  exact (@title_with_gt_keeps_the_marker (lit "<p>") (lit "tip") (lit "a") (lit "b")
           (lit " x</p>")
           eq_refl eq_refl eq_refl ltac:(discriminate) eq_refl eq_refl eq_refl eq_refl
           eq_refl eq_refl eq_refl).
Defined.

(** ** What a success stands for *)

Section RunSuccess.
Variable World : Type.
Variable read_file : World -> Path -> result str.
Variable markdown_convert : str -> result str.
Variable pdf_css_base : str -> str.
Variable pdf_css_theme_light : str.
Variable pdf_css_theme_dark : str.
Variable pygments_css : str.
Variable mkdir_p : World -> Path -> World * result unit.
Variable write_pdf : World -> str -> str -> str -> World * result unit.

Local Abbreviation run_ :=
    (run read_file markdown_convert pdf_css_base pdf_css_theme_light
       pdf_css_theme_dark pygments_css mkdir_p write_pdf).
Local Abbreviation run_loop_ :=
    (run_loop read_file markdown_convert pdf_css_base pdf_css_theme_light
       pdf_css_theme_dark pygments_css mkdir_p write_pdf).
Local Abbreviation run_step_ :=
    (run_step read_file markdown_convert pdf_css_base pdf_css_theme_light
       pdf_css_theme_dark pygments_css mkdir_p write_pdf).
Local Abbreviation steps_ :=
    (convert_and_render read_file markdown_convert pdf_css_base
       pdf_css_theme_light pdf_css_theme_dark pygments_css mkdir_p write_pdf).
Local Abbreviation convert_one_ :=
    (convert_one read_file markdown_convert pdf_css_base pdf_css_theme_light
       pdf_css_theme_dark pygments_css).




End RunSuccess.
